(** * AWS CloudWatch Logs exporter: a model of [exporter.go] and its properties

    The development follows exporter/awscloudwatchlogsexporter/exporter.go:

    - [pdata]: the log data the exporter consumes (records, attribute values);
    - [attrValue], [attrsValue]: the attribute flattener;
    - [json]: what [encoding/json] does with a [cwLogBody];
    - [logToCWLog], [logsToCWLogs]: the record translator and the batch walk;
    - [getLogPusher], [PushLogs], [Shutdown]: the registry and the entry points,
      over an explicit store of map and Pusher objects;
    - [advance], [step], [run]: goroutines calling [PushLogs], interleaved by
      a schedule. *)

From Stdlib Require Import ZArith Lia Strings.Byte Strings.Ascii.
From Stdlib Require Floats.PrimFloat.
From stdpp Require Import gmap strings list fin_maps.

Set Warnings "-register-all,-clear-no-such-hyp".
Set Default Proof Using "Type".

Local Open Scope Z_scope.
Local Open Scope string_scope.
Local Open Scope list_scope.

(** ** Go integers *)

(** [int64(u)] for an unsigned 64-bit [u]: the bits are kept, so values from
    [2^63] on come out negative. *)
Definition int64 (u : Z) : Z := (u + 2 ^ 63) mod 2 ^ 64 - 2 ^ 63.

(** [time.Millisecond], a [time.Duration] counted in nanoseconds. *)
Definition time_Millisecond : Z := 1000000.

(** ** Errors *)

Inductive error :=
| UnsupportedValueError          (* encoding/json: NaN or an infinity *)
| ErrorString (msg : string).    (* any error of a collaborator *)

(** A fallible result [(v, err)]: [Ok v] when [err == nil]. *)
Inductive result (A : Type) :=
| Ok (a : A)
| Err (e : error).
Arguments Ok {A} a.
Arguments Err {A} e.

#[global] Instance result_ret : MRet result := fun A a => Ok a.
#[global] Instance result_bind : MBind result := fun A B k r =>
  match r with
  | Ok a => k a
  | Err e => Err e
  end.

(** ** Log data ([go.opentelemetry.io/collector/model/pdata]) *)

Module pdata.

(** [pdata.AttributeValue]: the constructors are the values of
    [value.Type()].  [AVOther] stands for a value whose type tag is none of
    the seven that [attrValue] names. *)
Inductive AttributeValue :=
| AVEmpty
| AVString (s : string)
| AVInt (i : Z)
| AVDouble (d : PrimFloat.float)
| AVBool (b : bool)
| AVMap (kvs : list (string * AttributeValue))
| AVArray (l : list AttributeValue)
| AVOther.

(** [pdata.AttributeMap]: the entries in the order [Range] visits them. *)
Definition AttributeMap := list (string * AttributeValue).

(** [pdata.TraceID] wraps a [[16]byte], [pdata.SpanID] a [[8]byte]. *)
Definition IsEmpty (id : list byte) : bool :=
  forallb (fun b => Byte.eqb b Byte.x00) id.

Definition hexdigit (n : N) : ascii :=
  match String.get (N.to_nat n) "0123456789abcdef" with
  | Some c => c
  | None => "0"%char
  end.

(** [hex.EncodeToString] *)
Fixpoint hex_EncodeToString (bs : list byte) : string :=
  match bs with
  | [] => ""
  | b :: bs =>
      String (hexdigit (Byte.to_N b / 16))
        (String (hexdigit (Byte.to_N b mod 16)) (hex_EncodeToString bs))
  end.

Definition HexString (id : list byte) : string :=
  if IsEmpty id then "" else hex_EncodeToString id.

(** [pdata.LogRecord], by its accessors.  [Timestamp] is a [uint64] count
    of nanoseconds, [SeverityNumber] an [int32], the two counters
    [uint32]. *)
Record LogRecord := {
  Name : string;
  Body : AttributeValue;
  SeverityNumber : Z;
  SeverityText : string;
  DroppedAttributesCount : Z;
  Flags : Z;
  TraceID : list byte;
  SpanID : list byte;
  Attributes : AttributeMap;
  Timestamp : Z;
}.

Record InstrumentationLibraryLogs := {
  ils_Logs : list LogRecord;   (* ils.Logs() *)
}.

Record ResourceLogs := {
  rl_Resource : AttributeMap;   (* rl.Resource().Attributes() *)
  rl_InstrumentationLibraryLogs : list InstrumentationLibraryLogs;
}.

(** [pdata.Logs], as [ld.ResourceLogs()]. *)
Definition Logs := list ResourceLogs.

End pdata.
Import pdata (AttributeValue(..), AttributeMap, LogRecord, Logs).

(** ** Attribute flattener *)

(** A Go [interface{}] as [attrValue] fills it: [nil], [int64], [bool],
    [float64], [string], [map[string]interface{}] or [[]interface{}]. *)
Inductive value :=
| VNil
| VInt (i : Z)
| VBool (b : bool)
| VDouble (d : PrimFloat.float)
| VString (s : string)
| VMap (m : gmap string value)
| VSlice (l : list value).

(** [values[k] = x], once per entry in [Range] order: a later entry with the
    same key replaces the earlier one. *)
Definition rangeInto (f : AttributeValue -> value)
    (kvs : list (string * AttributeValue)) (values : gmap string value)
    : gmap string value :=
  foldl (fun values kv => <[kv.1 := f kv.2]> values) values kvs.

(** [attrValue], case by case as the switch over [value.Type()].  The array
    case is written with [map], on which the recursion is structural; the
    loop of the source is [fillSlice] below, and gives the same slice. *)
Fixpoint attrValue (v : AttributeValue) : value :=
  match v with
  | AVInt i => VInt i
  | AVBool b => VBool b
  | AVDouble d => VDouble d
  | AVString s => VString s
  | AVMap kvs => VMap (rangeInto attrValue kvs ∅)
  | AVArray arrayVal => VSlice (map attrValue arrayVal)
  | AVEmpty => VNil
  | _ => VNil
  end.

(** The array case of [attrValue] as the source writes it: a slice of
    [Len()] nils, then [values[i] = f(arrayVal.At(i))] for [i] from 0 up to
    [Len()]. *)
Fixpoint fillFrom (f : AttributeValue -> value) (arrayVal : list AttributeValue)
    (n : nat) (i : nat) (values : list value) : list value :=
  match n with
  | O => values
  | S n =>
      match arrayVal !! i with
      | Some x => fillFrom f arrayVal n (S i) (<[i := f x]> values)
      | None => values
      end
  end.

Definition fillSlice (f : AttributeValue -> value) (arrayVal : list AttributeValue)
    : list value :=
  fillFrom f arrayVal (length arrayVal) 0 (replicate (length arrayVal) VNil).

(** [attrsValue]: a [map[string]interface{}] that may be [nil] ([None]). *)
Definition attrsValue (attrs : AttributeMap) : option (gmap string value) :=
  if bool_decide (length attrs = 0%nat) then None
  else Some (rangeInto attrValue attrs ∅).

(** [len(m)] of a map that may be nil. *)
Definition map_len (m : option (gmap string value)) : nat :=
  match m with
  | None => 0
  | Some m => size m
  end.

(** ** encoding/json *)

Module json.

(** A JSON document, as decoding the marshalled bytes into an
    [interface{}] gives it back: an object is a map from member names to
    documents.  The bytes themselves (escapes, digits of a number, order of
    the members) are left to [encoding/json]. *)
Inductive doc :=
| Null
| Bool (b : bool)
| Int (i : Z)
| Float (d : PrimFloat.float)
| Str (s : string)
| Array (l : list doc)
| Object (members : gmap string doc).

(** The encoder rejects a [float64] that is NaN or infinite, wherever it
    sits in the value. *)
Fixpoint supported (v : value) : bool :=
  match v with
  | VDouble d => negb (PrimFloat.is_nan d || PrimFloat.is_infinity d)
  | VMap m => map_fold (fun _ x acc => supported x && acc) true m
  | VSlice l => forallb supported l
  | _ => true
  end.

Fixpoint encode (v : value) : doc :=
  match v with
  | VNil => Null
  | VInt i => Int i
  | VBool b => Bool b
  | VDouble d => Float d
  | VString s => Str s
  | VMap m => Object (encode <$> m)
  | VSlice l => Array (map encode l)
  end.

Definition marshalValue (v : value) : result doc :=
  if supported v then Ok (encode v) else Err UnsupportedValueError.

(** A struct field tagged [omitempty]: skipped when [isEmptyValue] holds of
    it, else encoded under its name. *)
Definition omitempty (empty : bool) (name : string) (v : result doc)
    (o : gmap string doc) : result (gmap string doc) :=
  if empty then Ok o else j ← v; Ok (<[name := j]> o).

(** The members of an object document. *)
Definition fields (d : doc) : gset string :=
  match d with
  | Object members => dom members
  | _ => ∅
  end.

End json.

(** ** Record translator *)

Record cwLogBody := {
  Name : string;                               (* name *)
  Body : value;                                (* body *)
  SeverityNumber : Z;                          (* severity_number, int32 *)
  SeverityText : string;                       (* severity_text *)
  DroppedAttributesCount : Z;                  (* dropped_attributes_count *)
  Flags : Z;                                   (* flags *)
  TraceID : string;                            (* trace_id *)
  SpanID : string;                             (* span_id *)
  Attributes : option (gmap string value);     (* attributes *)
  Resource : option (gmap string value);       (* resource *)
}.

(** [isEmptyValue] of each kind of field: a string or map of length 0, an
    integer 0, an interface that is nil. *)
Definition emptyString (s : string) : bool := bool_decide (s = "").
Definition emptyInt (i : Z) : bool := bool_decide (i = 0).
Definition emptyInterface (v : value) : bool :=
  match v with
  | VNil => true
  | _ => false
  end.
Definition emptyMap (m : option (gmap string value)) : bool :=
  bool_decide (map_len m = 0%nat).

Definition marshalMap (m : option (gmap string value)) : result json.doc :=
  match m with
  | None => Ok json.Null
  | Some m => json.marshalValue (VMap m)
  end.

(** [json.Marshal(body)] for a [cwLogBody]: the fields in the order of the
    struct, each under its tag. *)
Definition json_Marshal (body : cwLogBody) : result json.doc :=
  o ← json.omitempty (emptyString (Name body)) "name"
            (Ok (json.Str (Name body))) ∅;
  o ← json.omitempty (emptyInterface (Body body)) "body"
            (json.marshalValue (Body body)) o;
  o ← json.omitempty (emptyInt (SeverityNumber body)) "severity_number"
            (Ok (json.Int (SeverityNumber body))) o;
  o ← json.omitempty (emptyString (SeverityText body)) "severity_text"
            (Ok (json.Str (SeverityText body))) o;
  o ← json.omitempty (emptyInt (DroppedAttributesCount body))
            "dropped_attributes_count"
            (Ok (json.Int (DroppedAttributesCount body))) o;
  o ← json.omitempty (emptyInt (Flags body)) "flags"
            (Ok (json.Int (Flags body))) o;
  o ← json.omitempty (emptyString (TraceID body)) "trace_id"
            (Ok (json.Str (TraceID body))) o;
  o ← json.omitempty (emptyString (SpanID body)) "span_id"
            (Ok (json.Str (SpanID body))) o;
  o ← json.omitempty (emptyMap (Attributes body)) "attributes"
            (marshalMap (Attributes body)) o;
  o ← json.omitempty (emptyMap (Resource body)) "resource"
            (marshalMap (Resource body)) o;
  Ok (json.Object o).

Module cloudwatchlogs.

(** [Message] is the document that the string encodes. *)
Record InputLogEvent := {
  Timestamp : Z;
  Message : json.doc;
}.

End cloudwatchlogs.
Import cloudwatchlogs (InputLogEvent).

Definition with_TraceID (body : cwLogBody) (s : string) : cwLogBody :=
  {| Name := Name body; Body := Body body;
     SeverityNumber := SeverityNumber body; SeverityText := SeverityText body;
     DroppedAttributesCount := DroppedAttributesCount body;
     Flags := Flags body; TraceID := s; SpanID := SpanID body;
     Attributes := Attributes body; Resource := Resource body |}.

Definition with_SpanID (body : cwLogBody) (s : string) : cwLogBody :=
  {| Name := Name body; Body := Body body;
     SeverityNumber := SeverityNumber body; SeverityText := SeverityText body;
     DroppedAttributesCount := DroppedAttributesCount body;
     Flags := Flags body; TraceID := TraceID body; SpanID := s;
     Attributes := Attributes body; Resource := Resource body |}.

Definition with_Attributes (body : cwLogBody)
    (attrs res : option (gmap string value)) : cwLogBody :=
  {| Name := Name body; Body := Body body;
     SeverityNumber := SeverityNumber body; SeverityText := SeverityText body;
     DroppedAttributesCount := DroppedAttributesCount body;
     Flags := Flags body; TraceID := TraceID body; SpanID := SpanID body;
     Attributes := attrs; Resource := res |}.

(** The [cwLogBody] that [logToCWLog] fills in before it marshals it. *)
Definition bodyOf (resourceAttrs : option (gmap string value)) (log : LogRecord)
    : cwLogBody :=
  let body :=
    {| Name := pdata.Name log;
       Body := attrValue (pdata.Body log);
       SeverityNumber := pdata.SeverityNumber log;
       SeverityText := pdata.SeverityText log;
       DroppedAttributesCount := pdata.DroppedAttributesCount log;
       Flags := pdata.Flags log;
       TraceID := ""; SpanID := ""; Attributes := None; Resource := None |} in
  let body :=
    let traceID := pdata.TraceID log in
    if negb (pdata.IsEmpty traceID)
    then with_TraceID body (pdata.HexString traceID) else body in
  let body :=
    let spanID := pdata.SpanID log in
    if negb (pdata.IsEmpty spanID)
    then with_SpanID body (pdata.HexString spanID) else body in
  with_Attributes body (attrsValue (pdata.Attributes log)) resourceAttrs.

Definition logToCWLog (resourceAttrs : option (gmap string value))
    (log : LogRecord) : result InputLogEvent :=
  let body := bodyOf resourceAttrs log in
  match json_Marshal body with
  | Err err => Err err
  | Ok bodyJSON =>
      Ok {| cloudwatchlogs.Timestamp :=
              Z.quot (int64 (pdata.Timestamp log)) time_Millisecond;
            cloudwatchlogs.Message := bodyJSON |}
  end.

(** ** Collaborators: the Pusher and the logger *)

Module cwlogs.

Record Event := {
  InputLogEvent : cloudwatchlogs.InputLogEvent;
  GeneratedTime : Z;
}.

(** The [cwlogs.Pusher] interface.  [P] is what a Pusher object holds; a
    method takes that to its result and to what the object holds after. *)
Class Pusher (P : Type) := {
  AddLogEntry : Event -> P -> option error * P;
  ForceFlush : P -> option error * P;
}.

End cwlogs.
Import cwlogs (Event, Pusher, AddLogEntry, ForceFlush).

Module zap.

Inductive Level := DebugLevel | InfoLevel | ErrorLevel.

#[global] Instance Level_eq_dec : EqDecision Level.
Proof. solve_decision. Defined.

Inductive Field :=
| Int (key : string) (n : Z)
| Error (err : error)
| Any (key : string) (ev : Event).

(** A line written through the [*zap.Logger]. *)
Record Entry := {
  level : Level;
  msg : string;
  context : list Field;
}.

(** The logger, as the lines written to it so far. *)
Definition Logger := list Entry.

Definition write (lv : Level) (m : string) (fs : list Field) (logger : Logger)
    : Logger :=
  logger ++ [{| level := lv; msg := m; context := fs |}].

Definition Debug := write DebugLevel.
Definition Info := write InfoLevel.
Definition Error_ := write ErrorLevel.

End zap.

(** ** Batch walk *)

(** What the loops of [logsToCWLogs] carry: [out], [dropped] and the logger. *)
Definition walk : Type := list InputLogEvent * Z * zap.Logger.

Definition convertOne (resourceAttrs : option (gmap string value))
    (acc : walk) (log : LogRecord) : walk :=
  let '(out, dropped, logger) := acc in
  match logToCWLog resourceAttrs log with
  | Err err =>
      (out, dropped + 1,
       zap.Debug "Failed to convert to CloudWatch Log" [zap.Error err] logger)
  | Ok event => (out ++ [event], dropped, logger)
  end.

Definition convertResource (acc : walk) (rl : pdata.ResourceLogs) : walk :=
  let resourceAttrs := attrsValue (pdata.rl_Resource rl) in
  foldl (fun acc ils => foldl (convertOne resourceAttrs) acc (pdata.ils_Logs ils))
    acc (pdata.rl_InstrumentationLibraryLogs rl).

Definition logsToCWLogs (logger : zap.Logger) (ld : Logs)
    : list InputLogEvent * Z * zap.Logger :=
  let n := length ld in
  if bool_decide (n = 0%nat) then ([], 0, logger)
  else foldl convertResource ([], 0, logger) ld.


(** ** The exporter and the objects it reaches *)

Record Config := {
  LogGroupName : string;
  LogStreamName : string;
}.

(** The [exporter] struct.  [seqTokenMu] is [true] while the mutex is held.
    A Go map is a reference: [groupStreamToPusherMap] takes a group to the
    address of its [map[string]cwlogs.Pusher] in [streamMaps] below. *)
Record exporter := {
  config : Config;
  retryCount : Z;
  collectorID : string;
  seqTokenMu : bool;
  groupStreamToPusherMap : gmap string nat;
}.

(** What the [cwlogs] package was asked to do, in order.  [p] is the address
    of the Pusher object. *)
Inductive Call :=
| NewPusherCall (logGroup logStream : string) (p : nat)
| AddLogEntryCall (p : nat) (ev : Event) (err : option error)
| ForceFlushCall (p : nat) (err : option error).

(** An exporter with the objects it reaches: the stream maps and the Pusher
    objects, each at its address, the lines of its logger, the calls made
    so far and how many times the clock was read. *)
Record state (P : Type) := {
  self : exporter;
  streamMaps : list (gmap string nat);
  pushers : list P;
  logger : zap.Logger;
  calls : list Call;
  ticks : nat;
}.
Arguments self {P} _.
Arguments streamMaps {P} _.
Arguments pushers {P} _.
Arguments logger {P} _.
Arguments calls {P} _.
Arguments ticks {P} _.

Definition set_seqTokenMu (b : bool) (e : exporter) : exporter :=
  {| config := config e; retryCount := retryCount e;
     collectorID := collectorID e; seqTokenMu := b;
     groupStreamToPusherMap := groupStreamToPusherMap e |}.

Definition set_groupStreamToPusherMap (m : gmap string nat) (e : exporter)
    : exporter :=
  {| config := config e; retryCount := retryCount e;
     collectorID := collectorID e; seqTokenMu := seqTokenMu e;
     groupStreamToPusherMap := m |}.

(** ** Reading the list of calls *)

(** The events handed to [AddLogEntry], with the Pusher they went to. *)
Definition added (cs : list Call) : list (nat * InputLogEvent) :=
  omap (fun c => match c with
                 | AddLogEntryCall p ev _ => Some (p, cwlogs.InputLogEvent ev)
                 | _ => None
                 end) cs.

(** The calls of [ForceFlush], with the Pusher and the result. *)
Definition flushed (cs : list Call) : list (nat * option error) :=
  omap (fun c => match c with
                 | ForceFlushCall p err => Some (p, err)
                 | _ => None
                 end) cs.

(** The calls of [NewPusher] for one key. *)
Definition constructed (logGroup logStream : string) (cs : list Call) : list nat :=
  omap (fun c => match c with
                 | NewPusherCall g s p =>
                     if bool_decide (g = logGroup ∧ s = logStream)
                     then Some p else None
                 | _ => None
                 end) cs.

(** The calls of [AddLogEntry] that returned an error. *)
Definition addFailed (c : Call) : bool :=
  match c with
  | AddLogEntryCall _ _ (Some _) => true
  | _ => false
  end.

Definition failedAdds (cs : list Call) : nat :=
  length (filter (fun c => addFailed c = true) cs).

Section Exporter.

Context {P : Type} `{!Pusher P}.

(** [cwlogs.NewPusher], from the group, the stream and the retry count. *)
Variable NewPusher : string -> string -> Z -> P.

(** [time.Now()]: what the clock shows the n-th time it is read. *)
Variable time_Now : nat -> Z.

(** A statement of a method of [*exporter]: it returns a value and leaves
    the exporter and its objects in a new state. *)
Definition M (A : Type) : Type := state P -> A * state P.

#[local] Instance M_ret : MRet M := fun A a st => (a, st).
#[local] Instance M_bind : MBind M := fun A B k m st =>
  let (a, st) := m st in k a st.

Definition with_self (f : exporter -> exporter) (st : state P) : state P :=
  {| self := f (self st); streamMaps := streamMaps st; pushers := pushers st;
     logger := logger st; calls := calls st; ticks := ticks st |}.

Definition with_streamMaps (f : list (gmap string nat) -> list (gmap string nat))
    (st : state P) : state P :=
  {| self := self st; streamMaps := f (streamMaps st); pushers := pushers st;
     logger := logger st; calls := calls st; ticks := ticks st |}.

Definition with_pushers (f : list P -> list P) (st : state P) : state P :=
  {| self := self st; streamMaps := streamMaps st; pushers := f (pushers st);
     logger := logger st; calls := calls st; ticks := ticks st |}.

Definition with_logger (f : zap.Logger -> zap.Logger) (st : state P) : state P :=
  {| self := self st; streamMaps := streamMaps st; pushers := pushers st;
     logger := f (logger st); calls := calls st; ticks := ticks st |}.

Definition record (c : Call) (st : state P) : state P :=
  {| self := self st; streamMaps := streamMaps st; pushers := pushers st;
     logger := logger st; calls := calls st ++ [c]; ticks := ticks st |}.

Definition tick (st : state P) : state P :=
  {| self := self st; streamMaps := streamMaps st; pushers := pushers st;
     logger := logger st; calls := calls st; ticks := S (ticks st) |}.

(** [e.config], read as a [Config] *)
Definition theConfig : M Config := fun st => (config (self st), st).

Definition logDebug (m : string) (fs : list zap.Field) : M unit :=
  fun st => (tt, with_logger (zap.Debug m fs) st).
Definition logInfo (m : string) (fs : list zap.Field) : M unit :=
  fun st => (tt, with_logger (zap.Info m fs) st).
Definition logError (m : string) (fs : list zap.Field) : M unit :=
  fun st => (tt, with_logger (zap.Error_ m fs) st).

Definition now : M Z := fun st => (time_Now (ticks st), tick st).

(** [p.AddLogEntry(ev)] on the Pusher object at address [p]. *)
Definition addLogEntry (p : nat) (ev : Event) : M (option error) := fun st =>
  match pushers st !! p with
  | Some obj =>
      let (err, obj) := AddLogEntry ev obj in
      (err, record (AddLogEntryCall p ev err) (with_pushers (<[p := obj]>) st))
  | None => (None, record (AddLogEntryCall p ev None) st)
  end.

(** [p.ForceFlush()] on the Pusher object at address [p]. *)
Definition forceFlush (p : nat) : M (option error) := fun st =>
  match pushers st !! p with
  | Some obj =>
      let (err, obj) := ForceFlush obj in
      (err, record (ForceFlushCall p err) (with_pushers (<[p := obj]>) st))
  | None => (None, record (ForceFlushCall p None) st)
  end.

(** ** Pusher registry *)

Definition getLogPusher (logGroup logStream : string) : M nat := fun st =>
  let (streamToPusherMap, st) :=
    match groupStreamToPusherMap (self st) !! logGroup with
    | Some a => (a, st)
    | None =>
        (* a new, empty map object, bound to the group *)
        let a := length (streamMaps st) in
        (a, with_self
              (fun e => set_groupStreamToPusherMap
                          (<[logGroup := a]> (groupStreamToPusherMap e)) e)
              (with_streamMaps (fun ms => ms ++ [∅]) st))
    end in
  match streamMaps st !! streamToPusherMap ≫= (.!! logStream) with
  | Some logPusher => (logPusher, st)
  | None =>
      let logPusher := length (pushers st) in
      let obj := NewPusher logGroup logStream (retryCount (self st)) in
      (logPusher,
       with_streamMaps (alter (<[logStream := logPusher]>) streamToPusherMap)
         (record (NewPusherCall logGroup logStream logPusher)
            (with_pushers (fun ps => ps ++ [obj]) st)))
  end.

(** ** Export coordinator *)

(** One turn of the loop of [PushLogs] over [logEvents]; [n] is
    [len(logEvents)]. *)
Definition pushOne (cwLogsPusher : nat) (n : nat) (logEvent : InputLogEvent)
    : M unit :=
  t ← now;
  let logEvent :=
    {| cwlogs.InputLogEvent := logEvent; cwlogs.GeneratedTime := t |} in
  _ ← logDebug "Adding log event" [zap.Any "event" logEvent];
  err ← addLogEntry cwLogsPusher logEvent;
  match err with
  | Some _ => logError "Failed " [zap.Int "num_of_events" (Z.of_nat n)]
  | None => mret tt
  end.

Fixpoint pushAll (cwLogsPusher : nat) (n : nat) (logEvents : list InputLogEvent)
    : M unit :=
  match logEvents with
  | [] => mret tt
  | logEvent :: rest =>
      _ ← pushOne cwLogsPusher n logEvent; pushAll cwLogsPusher n rest
  end.

(** [logsToCWLogs(e.logger, ld)] *)
Definition translate (ld : Logs) : M (list InputLogEvent * Z) := fun st =>
  let '(out, dropped, lg) := logsToCWLogs (logger st) ld in
  ((out, dropped), with_logger (fun _ => lg) st).

(** [PushLogs] between taking the lock and the deferred unlock. *)
Definition pushLogsLocked (ld : Logs) : M (option error) :=
  exp ← theConfig;
  cwLogsPusher ← getLogPusher (LogGroupName exp) (LogStreamName exp);
  r ← translate ld;
  let logEvents := r.1 in
  if bool_decide (length logEvents = 0%nat) then mret None
  else
    _ ← logInfo "Putting log events"
          [zap.Int "num_of_events" (Z.of_nat (length logEvents))];
    _ ← pushAll cwLogsPusher (length logEvents) logEvents;
    _ ← logDebug "Log events are successfully put" [];
    flushErr ← forceFlush cwLogsPusher;
    match flushErr with
    | Some err =>
        _ ← logError "Error force flushing logs. Skipping to next logPusher."
              [zap.Error err];
        mret (Some err)
    | None => mret None
    end.

(** [PushLogs]: [None] when the call cannot start because [seqTokenMu] is
    held; else the returned error and the state with the mutex released. *)
Definition PushLogs (ld : Logs) (st : state P)
    : option (option error * state P) :=
  if seqTokenMu (self st) then None
  else
    let (err, st) := pushLogsLocked ld (with_self (set_seqTokenMu true) st) in
    Some (err, with_self (set_seqTokenMu false) st).

Definition ConsumeLogs (md : Logs) (st : state P)
    : option (option error * state P) :=
  PushLogs md st.

Definition Shutdown : M (option error) :=
  exp ← theConfig;
  logPusher ← getLogPusher (LogGroupName exp) (LogStreamName exp);
  _ ← forceFlush logPusher;
  mret None.

Definition Start : M (option error) := mret None.

(** The struct that [newCwLogsExporter] builds, with an empty registry. *)
Definition newExporter (cfg : Config) (maxRetries : Z) (id : string)
    : state P :=
  {| self := {| config := cfg; retryCount := maxRetries; collectorID := id;
                seqTokenMu := false; groupStreamToPusherMap := ∅ |};
     streamMaps := []; pushers := []; logger := []; calls := []; ticks := 0 |}.

(** [newCwLogsExporter].  [session] is what [awsutil.GetAWSConfigSession]
    gives, as far as the exporter keeps it: the retry count of the AWS
    configuration, or the error; [uuid] is what [uuid.NewRandom] gives. *)
Definition newCwLogsExporter (config : option Config) (session : result Z)
    (uuid : result string) : result (state P) :=
  match config with
  | None => Err (ErrorString "emf exporter config is nil")
  | Some expConfig =>
      maxRetries ← session;
      collectorIdentifier ← uuid;
      mret (newExporter expConfig maxRetries collectorIdentifier)
  end.

(** ** Sequences of calls on one exporter *)

Inductive op :=
| DoPushLogs (ld : Logs)
| DoShutdown
| DoGetLogPusher (logGroup logStream : string).

(** One call after the other; a call that returns leaves its state to the
    next. *)
Definition perform (st : state P) (o : op) : state P :=
  match o with
  | DoPushLogs ld =>
      match PushLogs ld st with
      | Some (_, st') => st'
      | None => st
      end
  | DoShutdown => (Shutdown st).2
  | DoGetLogPusher logGroup logStream => (getLogPusher logGroup logStream st).2
  end.

Definition performAll (os : list op) (st : state P) : state P :=
  foldl perform st os.

(** The Pusher that the registry holds for a key, if any. *)
Definition registered (st : state P) (logGroup logStream : string) : option nat :=
  a ← groupStreamToPusherMap (self st) !! logGroup;
  m ← streamMaps st !! a;
  m !! logStream.

(** ** Goroutines calling [PushLogs] *)

(** Where a call of [PushLogs] stands. *)
Inductive pc :=
| AtLock (ld : Logs)                  (* about to take [seqTokenMu] *)
| AtTranslate (ld : Logs)             (* lock taken *)
| AtAppend (cwLogsPusher n : nat) (rest : list InputLogEvent)
| AtUnlock (ret : option error)       (* the deferred [Unlock] is due *)
| Returned (ret : option error).

(** What a step of a call did, as seen from outside. *)
Inductive action :=
| Locked
| Resolved (p : nat)
| Appended (p : nat) (ev : InputLogEvent)
| Flushed (p : nat) (err : option error)
| Unlocked.

(** One step of a call on the exporter in state [st]: [None] when the call
    cannot move, because the mutex is held by another call or because it has
    returned. *)
Definition advance (c : pc) (st : state P) : option (pc * state P * action) :=
  match c with
  | AtLock ld =>
      if seqTokenMu (self st) then None
      else Some (AtTranslate ld, with_self (set_seqTokenMu true) st, Locked)
  | AtTranslate ld =>
      let '(next, st) :=
        (exp ← theConfig;
         cwLogsPusher ← getLogPusher (LogGroupName exp) (LogStreamName exp);
         r ← translate ld;
         let logEvents := r.1 in
         if bool_decide (length logEvents = 0%nat)
         then mret (AtUnlock None, Resolved cwLogsPusher)
         else
           _ ← logInfo "Putting log events"
                 [zap.Int "num_of_events" (Z.of_nat (length logEvents))];
           mret (AtAppend cwLogsPusher (length logEvents) logEvents,
                 Resolved cwLogsPusher)) st in
      Some (next.1, st, next.2)
  | AtAppend cwLogsPusher n (logEvent :: rest) =>
      let (_, st) := pushOne cwLogsPusher n logEvent st in
      Some (AtAppend cwLogsPusher n rest, st, Appended cwLogsPusher logEvent)
  | AtAppend cwLogsPusher n [] =>
      let (_, st) := logDebug "Log events are successfully put" [] st in
      let '(ret, st) :=
        (flushErr ← forceFlush cwLogsPusher;
         match flushErr with
         | Some err =>
             _ ← logError
                   "Error force flushing logs. Skipping to next logPusher."
                   [zap.Error err];
             mret (Some err)
         | None => mret None
         end) st in
      Some (AtUnlock ret, st, Flushed cwLogsPusher ret)
  | AtUnlock ret =>
      Some (Returned ret, with_self (set_seqTokenMu false) st, Unlocked)
  | Returned _ => None
  end.

(** A call left alone on its exporter, for at most [fuel] steps. *)
Fixpoint alone (fuel : nat) (c : pc) (st : state P) : pc * state P :=
  match fuel with
  | O => (c, st)
  | S fuel =>
      match advance c st with
      | Some (c', st', _) => alone fuel c' st'
      | None => (c, st)
      end
  end.

Record goroutine := {
  on : nat;     (* the exporter whose [PushLogs] it runs *)
  at_ : pc;
}.

(** Several exporters, the goroutines calling them, and what has been done
    so far, each step with the goroutine that did it. *)
Record system := {
  exporters : list (state P);
  goroutines : list goroutine;
  history : list (nat * action);
}.

(** Goroutine [t] is given the processor for one step. *)
Definition step (sys : system) (t : nat) : system :=
  match goroutines sys !! t with
  | None => sys
  | Some g =>
      match exporters sys !! on g with
      | None => sys
      | Some st =>
          match advance (at_ g) st with
          | None => sys
          | Some (c, st', a) =>
              {| exporters := <[on g := st']> (exporters sys);
                 goroutines := <[t := {| on := on g; at_ := c |}]> (goroutines sys);
                 history := history sys ++ [(t, a)] |}
          end
      end
  end.

(** A schedule names the goroutine that moves next, step after step. *)
Definition run (schedule : list nat) (sys : system) : system :=
  foldl step sys schedule.

(** The calls [jobs], each on the exporter it names, none started yet. *)
Definition spawn (exps : list (state P)) (jobs : list (nat * Logs)) : system :=
  {| exporters := exps;
     goroutines := (fun j => {| on := j.1; at_ := AtLock j.2 |}) <$> jobs;
     history := [] |}.

(** A goroutine between [Lock] and the end of the deferred [Unlock]. *)
Definition critical (c : pc) : bool :=
  match c with
  | AtTranslate _ | AtAppend _ _ _ | AtUnlock _ => true
  | AtLock _ | Returned _ => false
  end.

(** ** What a statement may touch *)

(** From [st] to [st'] only the Pusher at [p] was used: the calls [cs] were
    made, the lines [lines] written and the clock read [k] times; the
    exporter, its maps and every other Pusher are as before. *)
Definition uses (p : nat) (cs : list Call) (lines : list zap.Entry) (k : nat)
    (st st' : state P) : Prop :=
  self st' = self st
  ∧ streamMaps st' = streamMaps st
  ∧ calls st' = calls st ++ cs
  ∧ logger st' = logger st ++ lines
  ∧ ticks st' = (ticks st + k)%nat
  ∧ length (pushers st') = length (pushers st)
  ∧ ∀ q, q ≠ p → pushers st' !! q = pushers st !! q.

(** The registry of [st] is sound: a group leads to a map that exists, two
    groups never to the same map, a registered Pusher exists, and
    [NewPusher] was called once for a key that is registered and never for
    one that is not. *)
Definition sound (st : state P) : Prop :=
  (∀ g a, groupStreamToPusherMap (self st) !! g = Some a →
          (a < length (streamMaps st))%nat)
  ∧ (∀ g1 g2 a, groupStreamToPusherMap (self st) !! g1 = Some a →
                groupStreamToPusherMap (self st) !! g2 = Some a → g1 = g2)
  ∧ (∀ g s p, registered st g s = Some p → (p < length (pushers st))%nat)
  ∧ (∀ g s, constructed g s (calls st)
            = match registered st g s with
              | Some p => [p]
              | None => []
              end).

(** ** Steps of two calls *)

(** Every step of [t1] in [h] comes before every step of [t2]. *)
Definition before (t1 t2 : nat) (h : list (nat * action)) : Prop :=
  ∀ i j a1 a2, h !! i = Some (t1, a1) → h !! j = Some (t2, a2) → (i < j)%nat.

(** The steps of [t1] and [t2] do not interleave: one call did all of its
    steps before the other did any. *)
Definition serial (t1 t2 : nat) (h : list (nat * action)) : Prop :=
  before t1 t2 h ∨ before t2 t1 h.

(** What holds of a system however its goroutines are scheduled: a goroutine
    between [Lock] and [Unlock] finds the mutex of its exporter held, and
    is the only such goroutine on that exporter; a goroutine still waiting
    for the mutex has done nothing; every step of a goroutine inside came
    after all the steps of the others on its exporter; and the steps of two
    goroutines on one exporter do not interleave. *)
Definition orderly (sys : system) : Prop :=
  (∀ t g, goroutines sys !! t = Some g → critical (at_ g) = true →
          ∃ st, exporters sys !! on g = Some st ∧ seqTokenMu (self st) = true)
  ∧ (∀ t1 t2 g1 g2,
       goroutines sys !! t1 = Some g1 → goroutines sys !! t2 = Some g2 →
       on g1 = on g2 → critical (at_ g1) = true → critical (at_ g2) = true →
       t1 = t2)
  ∧ (∀ t g ld, goroutines sys !! t = Some g → at_ g = AtLock ld →
               ∀ i a, history sys !! i ≠ Some (t, a))
  ∧ (∀ t1 t2 g1 g2,
       goroutines sys !! t1 = Some g1 → goroutines sys !! t2 = Some g2 →
       t1 ≠ t2 → on g1 = on g2 → critical (at_ g1) = true →
       before t2 t1 (history sys))
  ∧ (∀ t1 t2 g1 g2,
       goroutines sys !! t1 = Some g1 → goroutines sys !! t2 = Some g2 →
       t1 ≠ t2 → on g1 = on g2 → serial t1 t2 (history sys)).

End Exporter.

Arguments system P : clear implicits.

(** ** Reading a batch *)

(** The records of a batch in the order of the three loops of
    [logsToCWLogs], each with the flattened attributes of its resource. *)
Definition scopeRecords (rl : pdata.ResourceLogs)
    (ills : list pdata.InstrumentationLibraryLogs)
    : list (option (gmap string value) * LogRecord) :=
  ils ← ills;
  (fun log => (attrsValue (pdata.rl_Resource rl), log)) <$> pdata.ils_Logs ils.

Definition recordsOf (ld : Logs) : list (option (gmap string value) * LogRecord) :=
  rl ← ld; scopeRecords rl (pdata.rl_InstrumentationLibraryLogs rl).

(** Where [recordsOf] has record [k] of scope [j] of resource [i]: after
    the records of the resources before [i] and those of the scopes before
    [j] in resource [i]. *)
Definition position (ld : Logs) (i j k : nat) : nat :=
  (length (recordsOf (take i ld))
   + match ld !! i with
     | Some rl =>
         length (scopeRecords rl
                   (take j (pdata.rl_InstrumentationLibraryLogs rl)))
     | None => 0
     end
   + k)%nat.

Definition converted (r : option (gmap string value) * LogRecord)
    : option InputLogEvent :=
  match logToCWLog r.1 r.2 with
  | Ok event => Some event
  | Err _ => None
  end.

Definition refused (r : option (gmap string value) * LogRecord)
    : option error :=
  match logToCWLog r.1 r.2 with
  | Ok _ => None
  | Err err => Some err
  end.

Definition fails (r : option (gmap string value) * LogRecord) : bool :=
  match logToCWLog r.1 r.2 with
  | Ok _ => false
  | Err _ => true
  end.

(** The line that [logsToCWLogs] writes for a record it drops. *)
Definition dropLine (err : error) : zap.Entry :=
  {| zap.level := zap.DebugLevel;
     zap.msg := "Failed to convert to CloudWatch Log";
     zap.context := [zap.Error err] |}.

(** How many of the lines carry the message [m] at level [lv]. *)
Definition linesWith (lv : zap.Level) (m : string) (lines : list zap.Entry)
    : nat :=
  length (filter (fun e => zap.level e = lv ∧ zap.msg e = m) lines).

(** ** Fields of the message *)

(** The body member of the message of an event. *)
Definition bodyMember (ev : InputLogEvent) : option json.doc :=
  match cloudwatchlogs.Message ev with
  | json.Object members => members !! "body"
  | _ => None
  end.

Definition pick (b : bool) (name : string) : gset string :=
  if b then {[ name ]} else ∅.

(** A body that [attrValue] does not take to nil. *)
Definition bodyPresent (v : AttributeValue) : bool :=
  match v with
  | AVEmpty | AVOther => false
  | _ => true
  end.

(** The members of the message of a record, read off the record. *)
Definition serializedFields (resourceAttrs : option (gmap string value))
    (log : LogRecord) : gset string :=
  pick (negb (emptyString (pdata.Name log))) "name"
  ∪ pick (bodyPresent (pdata.Body log)) "body"
  ∪ pick (negb (emptyInt (pdata.SeverityNumber log))) "severity_number"
  ∪ pick (negb (emptyString (pdata.SeverityText log))) "severity_text"
  ∪ pick (negb (emptyInt (pdata.DroppedAttributesCount log)))
      "dropped_attributes_count"
  ∪ pick (negb (emptyInt (pdata.Flags log))) "flags"
  ∪ pick (negb (pdata.IsEmpty (pdata.TraceID log))) "trace_id"
  ∪ pick (negb (pdata.IsEmpty (pdata.SpanID log))) "span_id"
  ∪ pick (negb (bool_decide (length (pdata.Attributes log) = 0%nat))) "attributes"
  ∪ pick (negb (emptyMap resourceAttrs)) "resource".

(** A body that is neither absent nor a zero value: not nil, not the empty
    string, not 0, not false, not an empty map or array. *)
Definition nonzero (v : AttributeValue) : bool :=
  match v with
  | AVEmpty | AVOther => false
  | AVString s => negb (emptyString s)
  | AVInt i => negb (emptyInt i)
  | AVDouble d => negb (PrimFloat.is_zero d)
  | AVBool b => b
  | AVMap kvs => negb (bool_decide (length kvs = 0%nat))
  | AVArray l => negb (bool_decide (length l = 0%nat))
  end.

(** The members of the message if every absent or zero-valued field of the
    record were left out, the body among them. *)
Definition nonzeroFields (resourceAttrs : option (gmap string value))
    (log : LogRecord) : gset string :=
  pick (negb (emptyString (pdata.Name log))) "name"
  ∪ pick (nonzero (pdata.Body log)) "body"
  ∪ pick (negb (emptyInt (pdata.SeverityNumber log))) "severity_number"
  ∪ pick (negb (emptyString (pdata.SeverityText log))) "severity_text"
  ∪ pick (negb (emptyInt (pdata.DroppedAttributesCount log)))
      "dropped_attributes_count"
  ∪ pick (negb (emptyInt (pdata.Flags log))) "flags"
  ∪ pick (negb (pdata.IsEmpty (pdata.TraceID log))) "trace_id"
  ∪ pick (negb (pdata.IsEmpty (pdata.SpanID log))) "span_id"
  ∪ pick (negb (bool_decide (length (pdata.Attributes log) = 0%nat))) "attributes"
  ∪ pick (negb (emptyMap resourceAttrs)) "resource".

(** ** A Pusher for examples *)

Module Scripted.

(** A Pusher that keeps what it was given and answers each call with the
    next entry of a script, or with no error once the script is used up. *)
Record obj := {
  script : list (option error);
  buffer : list Event;
  sent : list Event;
}.

Definition next (o : obj) : option error * list (option error) :=
  match script o with
  | [] => (None, [])
  | r :: rest => (r, rest)
  end.

#[global] Instance pusher : Pusher obj := {|
  AddLogEntry ev o :=
    let (r, rest) := next o in
    (r, {| script := rest; buffer := buffer o ++ [ev]; sent := sent o |});
  ForceFlush o :=
    let (r, rest) := next o in
    (r, {| script := rest; buffer := []; sent := sent o ++ buffer o |});
|}.

(** [NewPusher] for a Pusher whose every call succeeds, and for one that
    follows [s]. *)
Definition quiet (_ _ : string) (_ : Z) : obj :=
  {| script := []; buffer := []; sent := [] |}.

Definition scripted (s : list (option error)) (_ _ : string) (_ : Z) : obj :=
  {| script := s; buffer := []; sent := [] |}.

(** A clock that shows [n] at its n-th reading. *)
Definition clock (n : nat) : Z := Z.of_nat n.

End Scripted.

(** ** Records for examples *)

Module Sample.

Definition record (body : AttributeValue) (ts : Z) : LogRecord :=
  {| pdata.Name := ""; pdata.Body := body; pdata.SeverityNumber := 0;
     pdata.SeverityText := ""; pdata.DroppedAttributesCount := 0;
     pdata.Flags := 0; pdata.TraceID := []; pdata.SpanID := [];
     pdata.Attributes := []; pdata.Timestamp := ts |}.

(** A batch of one resource and one scope holding [logs]. *)
Definition batch (logs : list LogRecord) : Logs :=
  [ {| pdata.rl_Resource := [];
       pdata.rl_InstrumentationLibraryLogs := [ {| pdata.ils_Logs := logs |} ] |} ].

(** A record with a name, a trace id and one attribute; its body is 0. *)
Definition named : LogRecord :=
  {| pdata.Name := "n"; pdata.Body := AVInt 0; pdata.SeverityNumber := 0;
     pdata.SeverityText := ""; pdata.DroppedAttributesCount := 0;
     pdata.Flags := 0;
     pdata.TraceID := [Byte.x00; Byte.x01]; pdata.SpanID := [Byte.x00];
     pdata.Attributes := [("k", AVEmpty)]; pdata.Timestamp := 0 |}.

Definition cfg : Config :=
  {| LogGroupName := "group"; LogStreamName := "stream" |}.

(** An exporter just built, for Pushers that answer from a script. *)
Definition fresh : state Scripted.obj := newExporter cfg 3 "collector".

(** Five records; the third has a body that JSON cannot hold. *)
Definition five : Logs :=
  batch [ record (AVString "a") 1000000; record (AVInt 2) 2000000;
          record (AVDouble PrimFloat.nan) 3000000;
          record (AVBool true) 4000000; record AVEmpty 5000000 ].

(** Two calls of [PushLogs] on one exporter, and on one exporter each. *)
Definition sameExporter : list (nat * Logs) := [(0%nat, five); (0%nat, five)].
Definition twoExporters : list (nat * Logs) := [(0%nat, five); (1%nat, five)].

(** The two goroutines take turns for as long as either can move. *)
Definition turns : list nat :=
  [0; 1; 0; 1; 0; 1; 0; 1; 0; 1; 0; 1; 0; 1; 0; 1;
   1; 1; 1; 1; 1; 1; 1; 1]%nat.

(** Two records, neither of which JSON can hold. *)
Definition unsendable : Logs :=
  batch [ record (AVDouble PrimFloat.nan) 1;
          record (AVArray [AVDouble PrimFloat.infinity]) 2 ].

(** Two records in each of two scopes of two resources. *)
Definition nested : Logs :=
  [ {| pdata.rl_Resource := [("host", AVString "a")];
       pdata.rl_InstrumentationLibraryLogs :=
         [ {| pdata.ils_Logs := [record (AVInt 1) 0; record (AVInt 2) 0] |};
           {| pdata.ils_Logs := [record (AVInt 3) 0; record (AVInt 4) 0] |} ] |};
    {| pdata.rl_Resource := [("host", AVString "b")];
       pdata.rl_InstrumentationLibraryLogs :=
         [ {| pdata.ils_Logs := [record (AVInt 5) 0; record (AVInt 6) 0] |};
           {| pdata.ils_Logs := [record (AVInt 7) 0; record (AVInt 8) 0] |} ] |} ].

End Sample.

(** The event of a record without resource attributes, if it has one. *)
Definition logToCWLog_event (log : LogRecord) : option InputLogEvent :=
  match logToCWLog None log with
  | Ok event => Some event
  | Err _ => None
  end.

(** The lines of one turn of the loop: the event, then the failure if the
    call failed. *)
Definition turnLines (n : nat) (ev : Event) (err : option error)
    : list zap.Entry :=
  {| zap.level := zap.DebugLevel; zap.msg := "Adding log event";
     zap.context := [zap.Any "event" ev] |}
  :: match err with
     | Some _ =>
         [{| zap.level := zap.ErrorLevel; zap.msg := "Failed ";
             zap.context := [zap.Int "num_of_events" (Z.of_nat n)] |}]
     | None => []
     end.

(** The message of [PushLogs] for a flush that failed. *)
Definition flushFailed : string :=
  "Error force flushing logs. Skipping to next logPusher.".

(** ** More readings of the data *)

(** The value of the last entry of [kvs] under the key [k], if there is
    one: what [Range] leaves in a Go map after it has stored every entry. *)
Fixpoint lastFor (k : string) (kvs : list (string * AttributeValue))
    : option AttributeValue :=
  match kvs with
  | [] => None
  | kv :: rest =>
      match lastFor k rest with
      | Some v => Some v
      | None => if bool_decide (kv.1 = k) then Some kv.2 else None
      end
  end.

(** A map that JSON can encode, nil included. *)
Definition supportedMap (m : option (gmap string value)) : bool :=
  match m with
  | None => true
  | Some m => json.supported (VMap m)
  end.

(** The member of the message of an event under [name]. *)
Definition member (name : string) (ev : InputLogEvent) : option json.doc :=
  match cloudwatchlogs.Message ev with
  | json.Object members => members !! name
  | _ => None
  end.

(** The document of a map that may be nil, when it is not. *)
Definition encodeMap (m : option (gmap string value)) : option json.doc :=
  (fun m => json.encode (VMap m)) <$> m.

(** A record that JSON can encode: no NaN and no infinity in the flattened
    body, attributes and resource attributes. *)
Definition translatable (resourceAttrs : option (gmap string value))
    (log : LogRecord) : bool :=
  json.supported (attrValue (pdata.Body log))
  && supportedMap (attrsValue (pdata.Attributes log))
  && supportedMap resourceAttrs.

(** ** The calls and lines of one export *)

(** The events of a call of [PushLogs] as [AddLogEntry] gets them: each
    with the time of one reading of the clock, the first with reading [t]. *)
Fixpoint stamped (time_Now : nat -> Z) (t : nat) (logEvents : list InputLogEvent)
    : list Event :=
  match logEvents with
  | [] => []
  | logEvent :: rest =>
      {| cwlogs.InputLogEvent := logEvent; cwlogs.GeneratedTime := time_Now t |}
      :: stamped time_Now (S t) rest
  end.

(** A Pusher object given the events [evs] one after the other: what each
    [AddLogEntry] returns, and the object after the last. *)
Fixpoint feed {P : Type} `{!Pusher P} (evs : list Event) (obj : P)
    : list (option error) * P :=
  match evs with
  | [] => ([], obj)
  | ev :: rest =>
      let r := AddLogEntry ev obj in
      let rs := feed rest r.2 in
      (r.1 :: rs.1, rs.2)
  end.

(** The calls of the loop of [PushLogs], and its lines. *)
Definition addCalls (p : nat) (evs : list Event) (errs : list (option error))
    : list Call :=
  zip_with (AddLogEntryCall p) evs errs.

Definition addLines (n : nat) (evs : list Event) (errs : list (option error))
    : list zap.Entry :=
  mjoin (zip_with (turnLines n) evs errs).

(** The lines of a call of [PushLogs] that has events to send. *)
Definition exportLines (evs : list Event) (errs : list (option error))
    (flushErr : option error) : list zap.Entry :=
  {| zap.level := zap.InfoLevel; zap.msg := "Putting log events";
     zap.context := [zap.Int "num_of_events" (Z.of_nat (length evs))] |}
  :: addLines (length evs) evs errs
  ++ {| zap.level := zap.DebugLevel; zap.msg := "Log events are successfully put";
        zap.context := [] |}
  :: match flushErr with
     | Some err =>
         [{| zap.level := zap.ErrorLevel; zap.msg := flushFailed;
             zap.context := [zap.Error err] |}]
     | None => []
     end.

(** The Pusher that a call of the [cwlogs] package is about. *)
Definition target (c : Call) : nat :=
  match c with
  | NewPusherCall _ _ p | AddLogEntryCall p _ _ | ForceFlushCall p _ => p
  end.

(** The calls that the collector makes on an exporter: [PushLogs] and
    [Shutdown], never [getLogPusher]. *)
Definition exported (o : op) : bool :=
  match o with
  | DoPushLogs _ | DoShutdown => true
  | DoGetLogPusher _ _ => false
  end.

(** Two keys never share a Pusher, and every Pusher object is that of some
    key. *)
Definition tight {P : Type} (st : state P) : Prop :=
  (∀ g s g' s' p,
     registered st g s = Some p → registered st g' s' = Some p →
     g = g' ∧ s = s')
  ∧ (∀ p, (p < length (pushers st))%nat → ∃ g s, registered st g s = Some p).

(** Every mutex that is held is held by a goroutine that is between [Lock]
    and [Unlock] on that exporter. *)
Definition owned {P : Type} (sys : system P) : Prop :=
  ∀ e st, exporters sys !! e = Some st → seqTokenMu (self st) = true →
    ∃ t g, goroutines sys !! t = Some g ∧ on g = e ∧ critical (at_ g) = true.

(** An exporter that has resolved no key but that of its configuration,
    and has called the [cwlogs] package about one Pusher only, the first. *)
Definition single {P : Type} (st : state P) : Prop :=
  (∀ g s p, registered st g s = Some p →
            g = LogGroupName (config (self st))
            ∧ s = LogStreamName (config (self st)))
  ∧ (∀ c, c ∈ calls st → target c = 0%nat).

(** How many of the calls of [AddLogEntry] returned an error, read off what
    the Pusher returned. *)
Definition failures (errs : list (option error)) : nat :=
  length (filter (fun err : option error => is_Some err) errs).

(** * Properties *)

(** ** The attribute flattener *)

Lemma fillFrom_spec f (l : list AttributeValue) :
  ∀ n i (vals : list value),
    length vals = length l → (i + n)%nat = length l →
    fillFrom f l n i vals = take i vals ++ map f (drop i l).
Proof.
  induction n as [|n IH]; intros i vals Hlen Hi; simpl.
  - rewrite Nat.add_0_r in Hi. subst i.
    rewrite drop_all, <- Hlen, firstn_all. by rewrite app_nil_r.
  - destruct (lookup_lt_is_Some_2 l i) as [x Hx]; [lia|].
    rewrite Hx, IH; [|by rewrite length_insert|lia].
    rewrite (drop_S l x i Hx). simpl.
    rewrite (take_S_r (<[i:=f x]> vals) i (f x)).
    + rewrite take_insert_ge by lia. by rewrite <- app_assoc.
    + apply list_lookup_insert_eq. lia.
Qed.

Lemma fillSlice_map f (l : list AttributeValue) : fillSlice f l = map f l.
Proof.
  unfold fillSlice. rewrite fillFrom_spec; [done| |done].
  by rewrite length_replicate.
Qed.

Lemma rangeInto_nonempty f kvs m :
  m ≠ ∅ ∨ kvs ≠ [] → rangeInto f kvs m ≠ ∅.
Proof.
  revert m. induction kvs as [|kv kvs IH]; intros m [Hm|Hk]; simpl; try done.
  - apply IH. left. apply insert_non_empty.
  - apply IH. left. apply insert_non_empty.
Qed.

Lemma attrsValue_len attrs :
  map_len (attrsValue attrs) = 0%nat ↔ length attrs = 0%nat.
Proof.
  unfold attrsValue. case_bool_decide as Hl; simpl; [done|].
  split; [|done]. intros Hs. apply map_size_empty_iff in Hs.
  exfalso. revert Hs. apply rangeInto_nonempty. right.
  by destruct attrs.
Qed.

Lemma attrValue_nil v : emptyInterface (attrValue v) = negb (bodyPresent v).
Proof. by destruct v. Qed.

(** C8: [attrValue] gives a value for every attribute value, however deeply
    nested; a string, an integer, a double and a boolean come out as they
    are; an array comes out as the slice that the loop fills, which is the
    flattened elements in their order, the empty array as the empty slice;
    the empty value and a value of no known type both come out as nil. *)
Theorem attrValue_total :
  (∀ v, ∃ r, attrValue v = r)
  ∧ (∀ s, attrValue (AVString s) = VString s)
  ∧ (∀ i, attrValue (AVInt i) = VInt i)
  ∧ (∀ d, attrValue (AVDouble d) = VDouble d)
  ∧ (∀ b, attrValue (AVBool b) = VBool b)
  ∧ (∀ l, attrValue (AVArray l) = VSlice (fillSlice attrValue l)
          ∧ fillSlice attrValue l = attrValue <$> l
          ∧ length (fillSlice attrValue l) = length l
          ∧ ∀ i, fillSlice attrValue l !! i = attrValue <$> l !! i)
  ∧ attrValue (AVArray []) = VSlice []
  ∧ attrValue AVEmpty = VNil
  ∧ attrValue AVOther = VNil.
Proof.
  repeat split; try done.
  - by eexists.
  - simpl. by rewrite fillSlice_map.
  - apply fillSlice_map.
  - by rewrite fillSlice_map, length_map.
  - rewrite fillSlice_map. apply list_lookup_fmap.
Qed.

(** ** The record translator *)

Lemma result_bind_Ok {A B} (r : result A) (k : A → result B) (b : B) :
  r ≫= k = Ok b → ∃ a, r = Ok a ∧ k a = Ok b.
Proof. destruct r as [a|e]; simpl; [eauto|done]. Qed.

Lemma omitempty_Ok empty name v o o' :
  json.omitempty empty name v o = Ok o' →
  dom o' = dom o ∪ pick (negb empty) name
  ∧ (if empty then o' = o else ∃ j, v = Ok j ∧ o' = <[name := j]> o).
Proof.
  unfold json.omitempty. destruct empty; simpl.
  - intros [= <-]. split; [set_solver|done].
  - intros H. apply result_bind_Ok in H as (j & Hv & [= <-]).
    split; [|by eauto]. rewrite dom_insert_L. set_solver.
Qed.

Lemma encode_Null v : json.encode v = json.Null → v = VNil.
Proof. by destruct v. Qed.

Lemma marshalValue_not_Null v j :
  emptyInterface v = false → json.marshalValue v = Ok j → j ≠ json.Null.
Proof.
  unfold json.marshalValue. intros Hv. destruct (json.supported v); [|done].
  intros [= <-] Hn%encode_Null. by subst v.
Qed.

Lemma marshalMap_not_Null m j :
  emptyMap m = false → marshalMap m = Ok j → j ≠ json.Null.
Proof.
  destruct m as [m|]; [|done]. unfold marshalMap, json.marshalValue.
  intros _. destruct (json.supported _); [|done]. by intros [= <-].
Qed.

(** One more field that is not null keeps an object free of nulls. *)
Lemma omitempty_no_Null empty name v o o' :
  (∀ j, empty = false → v = Ok j → j ≠ json.Null) →
  (∀ k, o !! k ≠ Some json.Null) →
  json.omitempty empty name v o = Ok o' →
  ∀ k, o' !! k ≠ Some json.Null.
Proof.
  intros Hv Ho H k. apply omitempty_Ok in H as [_ H].
  destruct empty; [by subst|].
  destruct H as (j & Hj & ->). rewrite lookup_insert. case_decide; [|done].
  intros [= ->]. by eapply Hv.
Qed.

(** From an object free of nulls to the object after the field of [H]. *)
Ltac no_null H N :=
  let N' := fresh "N" in
  unshelve (epose proof (omitempty_no_Null _ _ _ _ _ _ N H) as N');
  [ first [ by intros ? _ [= <-]
          | apply marshalValue_not_Null
          | apply marshalMap_not_Null ]
  | clear N; rename N' into N ].

Lemma HexString_empty id : emptyString (pdata.HexString id) = pdata.IsEmpty id.
Proof.
  unfold pdata.HexString. destruct (pdata.IsEmpty id) eqn:He; [done|].
  by destruct id.
Qed.

Lemma bodyOf_fields res log :
  let body := bodyOf res log in
  Name body = pdata.Name log
  ∧ Body body = attrValue (pdata.Body log)
  ∧ SeverityNumber body = pdata.SeverityNumber log
  ∧ SeverityText body = pdata.SeverityText log
  ∧ DroppedAttributesCount body = pdata.DroppedAttributesCount log
  ∧ Flags body = pdata.Flags log
  ∧ TraceID body = pdata.HexString (pdata.TraceID log)
  ∧ SpanID body = pdata.HexString (pdata.SpanID log)
  ∧ Attributes body = attrsValue (pdata.Attributes log)
  ∧ Resource body = res.
Proof.
  unfold bodyOf, pdata.HexString.
  destruct (pdata.IsEmpty (pdata.TraceID log)),
    (pdata.IsEmpty (pdata.SpanID log)); by repeat split.
Qed.

Lemma json_Marshal_fields res log d :
  json_Marshal (bodyOf res log) = Ok d →
  ∃ members, d = json.Object members
    ∧ dom members = serializedFields res log
    ∧ ∀ k, members !! k ≠ Some json.Null.
Proof.
  destruct (bodyOf_fields res log)
    as (Hn & Hb & Hsn & Hst & Hd & Hf & Ht & Hs & Ha & Hr).
  unfold json_Marshal.
  rewrite Hn, Hb, Hsn, Hst, Hd, Hf, Ht, Hs, Ha, Hr.
  intros H.
  apply result_bind_Ok in H as (o1 & H1 & H).
  apply result_bind_Ok in H as (o2 & H2 & H).
  apply result_bind_Ok in H as (o3 & H3 & H).
  apply result_bind_Ok in H as (o4 & H4 & H).
  apply result_bind_Ok in H as (o5 & H5 & H).
  apply result_bind_Ok in H as (o6 & H6 & H).
  apply result_bind_Ok in H as (o7 & H7 & H).
  apply result_bind_Ok in H as (o8 & H8 & H).
  apply result_bind_Ok in H as (o9 & H9 & H).
  apply result_bind_Ok in H as (o10 & H10 & [= <-]).
  exists o10. split; [done|]. split.
  - apply omitempty_Ok in H1 as [D1 _], H2 as [D2 _], H3 as [D3 _],
      H4 as [D4 _], H5 as [D5 _], H6 as [D6 _], H7 as [D7 _], H8 as [D8 _],
      H9 as [D9 _], H10 as [D10 _].
    rewrite D10, D9, D8, D7, D6, D5, D4, D3, D2, D1, dom_empty_L.
    rewrite !HexString_empty, attrValue_nil, negb_involutive.
    unfold serializedFields.
    replace (emptyMap (attrsValue (pdata.Attributes log)))
      with (bool_decide (length (pdata.Attributes log) = 0%nat)).
    + by rewrite (left_id_L ∅ (∪)).
    + unfold emptyMap. apply bool_decide_ext. symmetry. apply attrsValue_len.
  - assert (N0 : ∀ k, (∅ : gmap string json.doc) !! k ≠ Some json.Null) by done.
    assert (N1 := N0). no_null H1 N1.
    assert (N2 := N1). no_null H2 N2.
    assert (N3 := N2). no_null H3 N3.
    assert (N4 := N3). no_null H4 N4.
    assert (N5 := N4). no_null H5 N5.
    assert (N6 := N5). no_null H6 N6.
    assert (N7 := N6). no_null H7 N7.
    assert (N8 := N7). no_null H8 N8.
    assert (N9 := N8). no_null H9 N9.
    no_null H10 N9. exact N9.
Qed.

Lemma logToCWLog_Ok res log ev :
  logToCWLog res log = Ok ev →
  json_Marshal (bodyOf res log) = Ok (cloudwatchlogs.Message ev)
  ∧ cloudwatchlogs.Timestamp ev
    = Z.quot (int64 (pdata.Timestamp log)) time_Millisecond.
Proof.
  unfold logToCWLog. destruct (json_Marshal _); [|done]. by intros [= <-].
Qed.

(** C3, as amended: the message of a translated record is a JSON object
    whose members are exactly: name, severity text, trace id and span id when
    not empty (the two ids when not all zero); severity number, dropped
    attribute count and flags when not 0; attributes and resource when they
    have an entry; and body when the body is not the empty value (nor of an
    unknown type), also when it holds 0, false, the empty string or an empty
    map or array.  No member is null. *)
Theorem logToCWLog_fields res log ev :
  logToCWLog res log = Ok ev →
  json.fields (cloudwatchlogs.Message ev) = serializedFields res log
  ∧ ∃ members, cloudwatchlogs.Message ev = json.Object members
      ∧ dom members = serializedFields res log
      ∧ ∀ k, members !! k ≠ Some json.Null.
Proof.
  intros [Hm _]%logToCWLog_Ok.
  destruct (json_Marshal_fields _ _ _ Hm) as (members & -> & Hd & Hn).
  split; [exact Hd|]. by exists members.
Qed.

Lemma logToCWLog_fields_witness :
  ∃ ev, logToCWLog None Sample.named = Ok ev
    ∧ json.fields (cloudwatchlogs.Message ev)
      = serializedFields None Sample.named.
Proof.
  eexists. split; [reflexivity|].
  exact (proj1 (logToCWLog_fields None Sample.named _ eq_refl)).
Defined.

(** C3, as stated, fails: a record whose body is the integer 0 is translated
    to the message [{"body":0}], and one whose body is the empty string to
    [{"body":""}]; a body that is zero or empty is not left out. *)
Lemma zero_body_is_serialized :
  (∃ ev, logToCWLog None (Sample.record (AVInt 0) 0) = Ok ev
     ∧ cloudwatchlogs.Message ev = json.Object {[ "body" := json.Int 0 ]}
     ∧ json.fields (cloudwatchlogs.Message ev)
       ≠ nonzeroFields None (Sample.record (AVInt 0) 0))
  ∧ (∃ ev, logToCWLog None (Sample.record (AVString "") 0) = Ok ev
       ∧ cloudwatchlogs.Message ev = json.Object {[ "body" := json.Str "" ]}
       ∧ json.fields (cloudwatchlogs.Message ev)
         ≠ nonzeroFields None (Sample.record (AVString "") 0)).
Proof.
  split.
  - eexists. split; [reflexivity|]. split; [reflexivity|].
    intros Heq. apply (f_equal size) in Heq. vm_compute in Heq. done.
  - eexists. split; [reflexivity|]. split; [reflexivity|].
    intros Heq. apply (f_equal size) in Heq. vm_compute in Heq. done.
Qed.

(** C5, as amended: the timestamp of the event is the record's timestamp
    read as a signed 64-bit number, divided by one million and truncated
    towards zero.  Below 2^63 ns that is the timestamp divided by one
    million, rounded down: the largest number of milliseconds not after
    it. *)
Theorem logToCWLog_Timestamp res log ev :
  logToCWLog res log = Ok ev →
  cloudwatchlogs.Timestamp ev = Z.quot (int64 (pdata.Timestamp log)) 1000000
  ∧ (0 ≤ pdata.Timestamp log < 2 ^ 63 →
     cloudwatchlogs.Timestamp ev = pdata.Timestamp log / 1000000
     ∧ 1000000 * cloudwatchlogs.Timestamp ev ≤ pdata.Timestamp log
       < 1000000 * (cloudwatchlogs.Timestamp ev + 1)).
Proof.
  intros [_ Ht]%logToCWLog_Ok. split; [exact Ht|]. intros Hr.
  rewrite Ht. unfold int64, time_Millisecond.
  replace ((pdata.Timestamp log + 2 ^ 63) mod 2 ^ 64 - 2 ^ 63)
    with (pdata.Timestamp log) by (rewrite Z.mod_small; lia).
  rewrite Z.quot_div_nonneg by lia.
  split; [done|].
  pose proof (Z.mul_div_le (pdata.Timestamp log) 1000000 ltac:(lia)).
  pose proof (Z.mul_succ_div_gt (pdata.Timestamp log) 1000000 ltac:(lia)).
  lia.
Qed.

Lemma logToCWLog_Timestamp_witness :
  ∃ ev, logToCWLog None (Sample.record AVEmpty 1500000) = Ok ev
    ∧ cloudwatchlogs.Timestamp ev = Z.quot (int64 1500000) 1000000.
Proof.
  eexists. split; [reflexivity|].
  exact (proj1 (logToCWLog_Timestamp None (Sample.record AVEmpty 1500000)
                  _ eq_refl)).
Defined.

(** The two timestamps of the specification: 1,500,000 ns and 1,999,999 ns both give
    1 ms. *)
Example timestamp_1500000 :
  cloudwatchlogs.Timestamp <$> logToCWLog_event (Sample.record AVEmpty 1500000)
  = Some 1
  ∧ cloudwatchlogs.Timestamp <$> logToCWLog_event (Sample.record AVEmpty 1999999)
    = Some 1.
Proof. by split. Qed.

(** C5, as stated, fails: a record whose [uint64] timestamp is 2^64 - 1 is
    translated to an event with timestamp 0, not 18446744073709. *)
Lemma timestamp_wraps :
  ¬ (∀ res log ev, logToCWLog res log = Ok ev →
       cloudwatchlogs.Timestamp ev = Z.quot (pdata.Timestamp log) 1000000).
Proof.
  intros H.
  specialize (H None (Sample.record AVEmpty (2 ^ 64 - 1)) _ eq_refl).
  vm_compute in H. done.
Qed.

(** ** The batch walk *)

(** The three loops of [logsToCWLogs] visit the records of [recordsOf]. *)
Lemma walk_records (ld : Logs) (acc : walk) :
  foldl convertResource acc ld
  = foldl (fun acc r => convertOne r.1 acc r.2) acc (recordsOf ld).
Proof.
  revert acc. induction ld as [|rl ld IH]; intros acc; [done|].
  unfold recordsOf, scopeRecords in *. rewrite bind_cons, foldl_app. simpl.
  rewrite IH. f_equal. clear IH.
  unfold convertResource.
  generalize (pdata.rl_InstrumentationLibraryLogs rl). intros ills.
  revert acc. induction ills as [|ils ills IHi]; intros acc; [done|].
  rewrite bind_cons, foldl_app. simpl. rewrite IHi. f_equal.
  by rewrite foldl_fmap.
Qed.

Lemma omap_converted_cons res log rs :
  omap converted ((res, log) :: rs)
  = match logToCWLog res log with
    | Ok event => event :: omap converted rs
    | Err _ => omap converted rs
    end.
Proof. simpl. unfold converted at 1. simpl. by destruct (logToCWLog res log). Qed.

Lemma omap_refused_cons res log rs :
  omap refused ((res, log) :: rs)
  = match logToCWLog res log with
    | Ok _ => omap refused rs
    | Err err => err :: omap refused rs
    end.
Proof. simpl. unfold refused at 1. simpl. by destruct (logToCWLog res log). Qed.

Lemma walk_spec rs : ∀ out dropped lg,
  foldl (fun acc r => convertOne r.1 acc r.2) (out, dropped, lg) rs
  = (out ++ omap converted rs,
     dropped + Z.of_nat (length (omap refused rs)),
     lg ++ (dropLine <$> omap refused rs)).
Proof.
  induction rs as [|[res log] rs IH]; intros out dropped lg.
  - simpl. by rewrite !app_nil_r, Z.add_0_r.
  - rewrite omap_converted_cons, omap_refused_cons. cbn [foldl].
    unfold convertOne at 2.
    cbn [fst snd].
    destruct (logToCWLog res log) as [event|err]; rewrite IH.
    + by rewrite <- app_assoc.
    + unfold zap.Debug, zap.write. rewrite <- app_assoc. simpl length.
      rewrite Nat2Z.inj_succ. f_equal. f_equal. lia.
Qed.

Lemma logsToCWLogs_spec lg ld :
  logsToCWLogs lg ld
  = (omap converted (recordsOf ld),
     Z.of_nat (length (omap refused (recordsOf ld))),
     lg ++ (dropLine <$> omap refused (recordsOf ld))).
Proof.
  unfold logsToCWLogs. case_bool_decide as Hn.
  - destruct ld; [|done]. simpl. by rewrite app_nil_r.
  - by rewrite walk_records, walk_spec.
Qed.

(** A record is either converted or refused. *)
Lemma converted_or_refused rs :
  (length (omap converted rs) + length (omap refused rs))%nat = length rs.
Proof.
  induction rs as [|[res log] rs IH]; [done|].
  rewrite omap_converted_cons, omap_refused_cons.
  destruct (logToCWLog res log); simpl length; lia.
Qed.

Lemma all_fail_converted rs :
  forallb fails rs = true → omap converted rs = [].
Proof.
  induction rs as [|[res log] rs IH]; [done|].
  rewrite omap_converted_cons. simpl. unfold fails at 1. simpl.
  destruct (logToCWLog res log); simpl; [done|]. exact IH.
Qed.

(** ** What each statement touches *)

Section Effects.

Context {P : Type} `{!Pusher P}.
Variable NewPusher : string → string → Z → P.
Variable time_Now : nat → Z.

Implicit Types (st : state P) (p : nat) (cs : list Call).

Lemma uses_refl p st : uses p [] [] 0 st st.
Proof.
  unfold uses. rewrite !app_nil_r, Nat.add_0_r. by repeat split.
Qed.

Lemma uses_trans p cs1 cs2 l1 l2 k1 k2 st st1 st2 :
  uses p cs1 l1 k1 st st1 → uses p cs2 l2 k2 st1 st2 →
  uses p (cs1 ++ cs2) (l1 ++ l2) (k1 + k2) st st2.
Proof.
  intros (S1 & M1 & C1 & L1 & T1 & N1 & O1) (S2 & M2 & C2 & L2 & T2 & N2 & O2).
  unfold uses. rewrite S2, M2, C2, L2, T2, N2, S1, M1, C1, L1, T1, N1.
  rewrite !app_assoc. repeat split; try done; try lia.
  intros q Hq. by rewrite O2, O1.
Qed.

Lemma addLogEntry_uses p ev st :
  uses p [AddLogEntryCall p ev (addLogEntry p ev st).1] [] 0
    st (addLogEntry p ev st).2.
Proof.
  unfold addLogEntry, uses.
  destruct (pushers st !! p) as [obj|] eqn:Hp; simpl.
  - destruct (AddLogEntry ev obj) as [err obj'] eqn:Ha. simpl.
    rewrite app_nil_r, Nat.add_0_r, length_insert. repeat split; try done.
    intros q Hq. by rewrite list_lookup_insert_ne.
  - rewrite app_nil_r, Nat.add_0_r. by repeat split.
Qed.

Lemma forceFlush_uses p st :
  uses p [ForceFlushCall p (forceFlush p st).1] [] 0 st (forceFlush p st).2.
Proof.
  unfold forceFlush, uses.
  destruct (pushers st !! p) as [obj|] eqn:Hp; simpl.
  - destruct (ForceFlush obj) as [err obj'] eqn:Ha. simpl.
    rewrite app_nil_r, Nat.add_0_r, length_insert. repeat split; try done.
    intros q Hq. by rewrite list_lookup_insert_ne.
  - rewrite app_nil_r, Nat.add_0_r. by repeat split.
Qed.

Lemma write_uses p lv m fs st :
  uses p [] [{| zap.level := lv; zap.msg := m; zap.context := fs |}] 0
    st (with_logger (zap.write lv m fs) st).
Proof.
  unfold uses, zap.write. simpl. rewrite app_nil_r, Nat.add_0_r.
  by repeat split.
Qed.

Lemma tick_uses p st : uses p [] [] 1 st (tick st).
Proof.
  unfold uses. simpl. rewrite !app_nil_r. repeat split; try done. lia.
Qed.

Lemma pushOne_uses p n logEvent st :
  let ev := {| cwlogs.InputLogEvent := logEvent;
               cwlogs.GeneratedTime := time_Now (ticks st) |} in
  ∃ err, uses p [AddLogEntryCall p ev err] (turnLines n ev err) 1
           st (pushOne time_Now p n logEvent st).2.
Proof.
  intros ev. subst ev. unfold pushOne.
  unfold mbind, M_bind, now, logDebug. simpl.
  set (ev := {| cwlogs.InputLogEvent := logEvent; cwlogs.GeneratedTime := _ |}).
  set (st1 := with_logger _ (tick st)).
  pose proof (addLogEntry_uses p ev st1) as Ha.
  destruct (addLogEntry p ev st1) as [err st2]. simpl in Ha.
  exists err.
  assert (H1 : uses p [] [{| zap.level := zap.DebugLevel;
                             zap.msg := "Adding log event";
                             zap.context := [zap.Any "event" ev] |}] 1 st st1).
  { apply (uses_trans p [] [] [] [_] 1 0 st (tick st) st1).
    - apply tick_uses.
    - apply write_uses. }
  pose proof (uses_trans _ _ _ _ _ _ _ _ _ _ H1 Ha) as H2. simpl in H2.
  destruct err as [e|]; simpl.
  - pose proof (uses_trans _ _ _ _ _ _ _ _ _ _ H2
                  (write_uses p zap.ErrorLevel "Failed "
                     [zap.Int "num_of_events" (Z.of_nat n)] st2)) as H3.
    simpl in H3. exact H3.
  - pose proof (uses_trans _ _ _ _ _ _ _ _ _ _ H2 (uses_refl p st2)) as H3.
    simpl in H3. exact H3.
Qed.


Lemma pushAll_cons p n logEvent rest st :
  pushAll time_Now p n (logEvent :: rest) st
  = pushAll time_Now p n rest (pushOne time_Now p n logEvent st).2.
Proof.
  simpl. unfold mbind, M_bind.
  by destruct (pushOne time_Now p n logEvent st).
Qed.

Lemma added_app cs1 cs2 : added (cs1 ++ cs2) = added cs1 ++ added cs2.
Proof. apply omap_app. Qed.

Lemma flushed_app cs1 cs2 : flushed (cs1 ++ cs2) = flushed cs1 ++ flushed cs2.
Proof. apply omap_app. Qed.

Lemma constructed_app g s cs1 cs2 :
  constructed g s (cs1 ++ cs2) = constructed g s cs1 ++ constructed g s cs2.
Proof. apply omap_app. Qed.

Lemma failedAdds_app cs1 cs2 :
  failedAdds (cs1 ++ cs2) = (failedAdds cs1 + failedAdds cs2)%nat.
Proof. unfold failedAdds. by rewrite filter_app, length_app. Qed.

Lemma linesWith_app lv m l1 l2 :
  linesWith lv m (l1 ++ l2) = (linesWith lv m l1 + linesWith lv m l2)%nat.
Proof. unfold linesWith. by rewrite filter_app, length_app. Qed.

Lemma pushAll_uses p n logEvents : ∀ st,
  ∃ cs lines,
    uses p cs lines (length logEvents) st (pushAll time_Now p n logEvents st).2
    ∧ added cs = (fun ev => (p, ev)) <$> logEvents
    ∧ flushed cs = []
    ∧ (∀ g s, constructed g s cs = [])
    ∧ linesWith zap.ErrorLevel "Failed " lines = failedAdds cs
    ∧ linesWith zap.ErrorLevel flushFailed lines = 0%nat.
Proof.
  induction logEvents as [|logEvent rest IH]; intros st.
  - exists [], []. split; [apply uses_refl|done].
  - rewrite pushAll_cons.
    destruct (pushOne_uses p n logEvent st) as (err & H1).
    destruct (IH (pushOne time_Now p n logEvent st).2)
      as (cs & lines & H2 & Ha & Hf & Hc & Hl & Hl').
    eexists ([_] ++ cs), (_ ++ lines). split; [|split; [|split; [|split; [|split]]]].
    + exact (uses_trans _ _ _ _ _ _ _ _ _ _ H1 H2).
    + simpl. by rewrite Ha.
    + simpl. by rewrite Hf.
    + intros g s. simpl. apply Hc.
    + rewrite linesWith_app, Hl, failedAdds_app.
      f_equal. by destruct err.
    + rewrite linesWith_app, Hl'. by destruct err.
Qed.

Lemma getLogPusher_touch g s st :
  let r := getLogPusher NewPusher g s st in
  logger r.2 = logger st
  ∧ ticks r.2 = ticks st
  ∧ config (self r.2) = config (self st)
  ∧ retryCount (self r.2) = retryCount (self st)
  ∧ seqTokenMu (self r.2) = seqTokenMu (self st)
  ∧ (calls r.2 = calls st ∨ calls r.2 = calls st ++ [NewPusherCall g s r.1])
  ∧ (length (pushers st) ≤ length (pushers r.2))%nat
  ∧ ∀ q, (q < length (pushers st))%nat → pushers r.2 !! q = pushers st !! q.
Proof.
  unfold getLogPusher.
  destruct (groupStreamToPusherMap (self st) !! g) as [a|]; simpl.
  - destruct (streamMaps st !! a ≫= lookup s) as [p|]; simpl.
    + repeat split; auto.
    + rewrite length_app. repeat split; auto; [lia|].
      intros q Hq. by rewrite lookup_app_l.
  - destruct ((streamMaps st ++ [∅]) !! length (streamMaps st) ≫= lookup s)
      as [p|]; simpl.
    + repeat split; auto.
    + rewrite length_app. repeat split; auto; [lia|].
      intros q Hq. by rewrite lookup_app_l.
Qed.

(** Whether the mutex is held makes no difference to the registry. *)
Lemma getLogPusher_mutex b g s st :
  getLogPusher NewPusher g s (with_self (set_seqTokenMu b) st)
  = ((getLogPusher NewPusher g s st).1,
     with_self (set_seqTokenMu b) (getLogPusher NewPusher g s st).2).
Proof.
  unfold getLogPusher. simpl.
  destruct (groupStreamToPusherMap (self st) !! g) as [a|]; simpl.
  - by destruct (streamMaps st !! a ≫= lookup s).
  - by destruct ((streamMaps st ++ [∅]) !! length (streamMaps st) ≫= lookup s).
Qed.

End Effects.

Section Coordinator.

Context {P : Type} `{!Pusher P}.
Variable NewPusher : string → string → Z → P.
Variable time_Now : nat → Z.

Implicit Types (st : state P) (p : nat) (cs : list Call).

Lemma linesWith_cons lv m e lines :
  linesWith lv m (e :: lines)
  = ((if bool_decide (zap.level e = lv ∧ zap.msg e = m) then 1 else 0)
     + linesWith lv m lines)%nat.
Proof.
  unfold linesWith. case_bool_decide.
  - by rewrite filter_cons_True.
  - by rewrite filter_cons_False.
Qed.

(** Whether one given line counts. *)
Ltac one_line :=
  match goal with
  | |- context [bool_decide (zap.level ?e = ?lv ∧ zap.msg ?e = ?m)] =>
      let v := eval vm_compute in
                 (bool_decide (zap.level e = lv ∧ zap.msg e = m)) in
      change (bool_decide (zap.level e = lv ∧ zap.msg e = m)) with v
  end.

(** [pushLogsLocked], statement by statement. *)
Lemma pushLogsLocked_eq ld st :
  pushLogsLocked NewPusher time_Now ld st
  = let exp := config (self st) in
    let got := getLogPusher NewPusher (LogGroupName exp) (LogStreamName exp) st in
    let w := logsToCWLogs (logger got.2) ld in
    let st2 := with_logger (fun _ => w.2) got.2 in
    let logEvents := w.1.1 in
    if bool_decide (length logEvents = 0%nat) then (None, st2)
    else
      let st3 :=
        with_logger
          (zap.Info "Putting log events"
             [zap.Int "num_of_events" (Z.of_nat (length logEvents))]) st2 in
      let st4 := (pushAll time_Now got.1 (length logEvents) logEvents st3).2 in
      let st5 :=
        with_logger (zap.Debug "Log events are successfully put" []) st4 in
      let f := forceFlush got.1 st5 in
      match f.1 with
      | Some err =>
          (Some err,
           with_logger (zap.Error_ flushFailed [zap.Error err]) f.2)
      | None => (None, f.2)
      end.
Proof.
  unfold pushLogsLocked, mbind, M_bind, mret, M_ret, theConfig, translate,
    logInfo, logDebug, logError.
  simpl.
  destruct (getLogPusher NewPusher _ _ st) as [p st1]. simpl.
  destruct (logsToCWLogs (logger st1) ld) as [[out dropped] lg]. simpl.
  case_bool_decide; [done|].
  destruct (pushAll time_Now p (length out) out _) as [[] st4]. simpl.
  by destruct (forceFlush p _) as [[err|] st6].
Qed.

Lemma pushLogsLocked_effect ld st :
  let exp := config (self st) in
  let got := getLogPusher NewPusher (LogGroupName exp) (LogStreamName exp) st in
  let p := got.1 in
  let evs := omap converted (recordsOf ld) in
  let r := pushLogsLocked NewPusher time_Now ld st in
  ∃ cs lines k,
    uses p cs ((dropLine <$> omap refused (recordsOf ld)) ++ lines) k got.2 r.2
    ∧ added cs = (fun ev => (p, ev)) <$> evs
    ∧ flushed cs = (if bool_decide (evs = []) then [] else [(p, r.1)])
    ∧ (∀ g s, constructed g s cs = [])
    ∧ (evs = [] → r.1 = None ∧ lines = [] ∧ pushers r.2 = pushers got.2)
    ∧ (evs ≠ [] → last cs = Some (ForceFlushCall p r.1))
    ∧ linesWith zap.ErrorLevel "Failed " lines = failedAdds cs
    ∧ linesWith zap.ErrorLevel flushFailed lines
      = (if r.1 is Some _ then 1 else 0)%nat.
Proof.
  intros exp got p evs r. subst r. rewrite pushLogsLocked_eq.
  cbv zeta. fold exp. fold got. fold p.
  rewrite logsToCWLogs_spec. fold evs. cbn [fst snd].
  set (st1 := got.2).
  set (st2 := with_logger _ st1).
  assert (H12 : uses p [] (dropLine <$> omap refused (recordsOf ld)) 0 st1 st2).
  { unfold uses, st2. simpl. rewrite app_nil_r, Nat.add_0_r.
    by repeat split. }
  case_bool_decide as Hn.
  - apply length_zero_iff_nil in Hn. exists [], [], 0%nat.
    rewrite app_nil_r, bool_decide_eq_true_2 by done.
    split; [exact H12|]. rewrite Hn. by repeat split.
  - assert (Hne : evs ≠ []) by (by intros Hn'; rewrite Hn' in Hn).
    rewrite bool_decide_eq_false_2 by done.
    set (st3 := with_logger _ st2).
    assert (H23 : uses p [] [_] 0 st2 st3) by apply write_uses.
    destruct (pushAll_uses time_Now p (length evs) evs st3)
      as (cs & lines & H34 & Ha & Hf & Hc & Hl & Hl').
    set (st4 := (pushAll time_Now p (length evs) evs st3).2) in *.
    set (st5 := with_logger _ st4).
    assert (H45 : uses p [] [_] 0 st4 st5) by apply write_uses.
    pose proof (forceFlush_uses p st5) as H56.
    destruct (forceFlush p st5) as [flushErr st6]. simpl in H56.
    pose proof (uses_trans _ _ _ _ _ _ _ _ _ _ H12
      (uses_trans _ _ _ _ _ _ _ _ _ _ H23
        (uses_trans _ _ _ _ _ _ _ _ _ _ H34
          (uses_trans _ _ _ _ _ _ _ _ _ _ H45 H56)))) as H16.
    simpl in H16. cbn [fst snd].
    destruct flushErr as [err|]; cbn [fst snd].
    + pose proof (uses_trans _ _ _ _ _ _ _ _ _ _ H16
        (write_uses p zap.ErrorLevel flushFailed [zap.Error err] st6)) as H17.
      rewrite <- !app_assoc in H17. simpl in H17.
      eexists _, _, _. split; [exact H17|].
      rewrite added_app, flushed_app, Ha, Hf. simpl.
      rewrite app_nil_r, last_snoc.
      split; [done|]. split; [done|]. split.
      { intros g s. rewrite constructed_app, Hc. done. }
      split; [done|]. split; [done|].
      rewrite failedAdds_app, !linesWith_cons, !linesWith_app, Hl, Hl'.
      rewrite !linesWith_cons. change (linesWith _ _ []) with 0%nat.
      repeat one_line. change (failedAdds [_]) with 0%nat. split; lia.
    + pose proof (uses_trans _ _ _ _ _ _ _ _ _ _ H16 (uses_refl p st6)) as H17.
      rewrite <- !app_assoc in H17. simpl in H17.
      eexists _, _, _. split; [exact H17|].
      rewrite added_app, flushed_app, Ha, Hf. simpl.
      rewrite app_nil_r, last_snoc.
      split; [done|]. split; [done|]. split.
      { intros g s. rewrite constructed_app, Hc. done. }
      split; [done|]. split; [done|].
      rewrite failedAdds_app, !linesWith_cons, !linesWith_app, Hl, Hl'.
      rewrite !linesWith_cons. change (linesWith _ _ []) with 0%nat.
      repeat one_line. change (failedAdds [_]) with 0%nat. split; lia.
Qed.


Lemma linesWith_dropLine m errs :
  linesWith zap.ErrorLevel m (dropLine <$> errs) = 0%nat.
Proof.
  induction errs as [|e errs IH]; [done|].
  change (dropLine <$> e :: errs) with (dropLine e :: (dropLine <$> errs)).
  rewrite linesWith_cons, IH.
  case_bool_decide as H; [by destruct H|done].
Qed.

Lemma PushLogs_effect ld st :
  seqTokenMu (self st) = false →
  let exp := config (self st) in
  let p := (getLogPusher NewPusher (LogGroupName exp) (LogStreamName exp) st).1 in
  let evs := omap converted (recordsOf ld) in
  ∃ err st' delta lines,
    PushLogs NewPusher time_Now ld st = Some (err, st')
    ∧ calls st' = calls st ++ delta
    ∧ logger st'
      = logger st ++ (dropLine <$> omap refused (recordsOf ld)) ++ lines
    ∧ added delta = (fun ev => (p, ev)) <$> evs
    ∧ flushed delta = (if bool_decide (evs = []) then [] else [(p, err)])
    ∧ (evs = [] → err = None ∧ lines = []
                  ∧ ∀ q, (q < length (pushers st))%nat →
                         pushers st' !! q = pushers st !! q)
    ∧ (evs ≠ [] → last delta = Some (ForceFlushCall p err))
    ∧ linesWith zap.ErrorLevel "Failed " lines = failedAdds delta
    ∧ linesWith zap.ErrorLevel flushFailed lines
      = (if err is Some _ then 1 else 0)%nat
    ∧ seqTokenMu (self st') = false
    ∧ config (self st') = config (self st)
    ∧ (∀ q, q ≠ p → (q < length (pushers st))%nat →
            pushers st' !! q = pushers st !! q).
Proof.
  intros Hmu exp p evs. unfold PushLogs. rewrite Hmu.
  set (st0 := with_self (set_seqTokenMu true) st).
  destruct (pushLogsLocked_effect ld st0)
    as (cs & lines & k & Hu & Ha & Hf & Hc & He & Hl & Hfa & Hff).
  change (config (self st0)) with exp in *.
  pose proof (getLogPusher_mutex NewPusher true (LogGroupName exp)
                (LogStreamName exp) st) as Hgm.
  fold st0 in Hgm. rewrite Hgm in Hu, Ha, Hf, He, Hl. clear Hgm.
  fold p in Hu, Ha, Hf, Hl.
  cbn [fst snd] in *. fold evs in Ha, Hf, He, Hl.
  destruct (getLogPusher_touch NewPusher (LogGroupName exp) (LogStreamName exp) st)
    as (Tl & Tt & Tc & Tr & Tm & Tcalls & Tlen & Tp).
  fold p in Tcalls.
  set (got := getLogPusher NewPusher (LogGroupName exp) (LogStreamName exp) st) in *.
  destruct (pushLogsLocked NewPusher time_Now ld st0) as [err st1].
  cbn [fst snd] in *.
  destruct Hu as (Us & Um & Uc & Ul & Ut & Un & Uo). simpl in Us, Um, Uc, Ul, Un, Uo.
  assert (∃ news, calls got.2 = calls st ++ news ∧ added news = []
                  ∧ flushed news = [] ∧ failedAdds news = 0%nat)
    as (news & Hnews & Hna & Hnf & Hnn).
  { destruct Tcalls as [->| ->]; [exists []|eexists [_]];
      by rewrite ?app_nil_r. }
  exists err, (with_self (set_seqTokenMu false) st1), (news ++ cs), lines.
  simpl. rewrite Uc, Ul, Hnews, Tl, added_app, flushed_app, failedAdds_app.
  rewrite Hna, Hnf, Hnn, app_assoc. simpl.
  split; [done|]. split; [done|]. split; [done|]. split; [done|].
  split; [done|]. split.
  { intros Hev. destruct (He Hev) as (-> & -> & Hp). repeat split; try done.
    intros q Hq. rewrite Hp. simpl. by apply Tp. }
  split.
  { intros Hev. rewrite last_app, (Hl Hev). done. }
  split; [done|]. split; [done|]. split; [done|]. split.
  { rewrite Us. simpl. exact Tc. }
  intros q Hq Hlt. rewrite (Uo q Hq). by apply Tp.
Qed.

End Coordinator.

(** ** The order of the records *)

Lemma omap_source {A B} (f : A → option B) (l : list A) n y :
  omap f l !! n = Some y → ∃ m x, l !! m = Some x ∧ f x = Some y.
Proof.
  intros Hn. apply list_elem_of_lookup_2 in Hn.
  apply list_elem_of_omap in Hn as (x & Hx & Hf).
  apply list_elem_of_lookup in Hx as (m & Hm). eauto.
Qed.

(** [omap] keeps the order of what it keeps. *)
Lemma omap_order {A B} (f : A → option B) (l : list A) :
  ∀ n1 n2 y1 y2,
    omap f l !! n1 = Some y1 → omap f l !! n2 = Some y2 → (n1 < n2)%nat →
    ∃ m1 m2 x1 x2,
      (m1 < m2)%nat ∧ l !! m1 = Some x1 ∧ l !! m2 = Some x2
      ∧ f x1 = Some y1 ∧ f x2 = Some y2.
Proof.
  induction l as [|x l IH]; intros n1 n2 y1 y2 H1 H2 Hlt; [done|].
  simpl in H1, H2. destruct (f x) as [y|] eqn:Hfx.
  - destruct n2 as [|n2]; [lia|]. simpl in H2. destruct n1 as [|n1].
    + injection H1 as <-.
      destruct (omap_source f l n2 y2 H2) as (m & x2 & Hm & Hf2).
      exists 0%nat, (S m), x, x2. repeat split; auto. lia.
    + simpl in H1.
      destruct (IH n1 n2 y1 y2 H1 H2 ltac:(lia))
        as (m1 & m2 & x1 & x2 & Hm & L1 & L2 & F1 & F2).
      exists (S m1), (S m2), x1, x2. repeat split; auto. lia.
  - destruct (IH n1 n2 y1 y2 H1 H2 Hlt)
      as (m1 & m2 & x1 & x2 & Hm & L1 & L2 & F1 & F2).
    exists (S m1), (S m2), x1, x2. repeat split; auto. lia.
Qed.

Lemma recordsOf_app ld1 ld2 :
  recordsOf (ld1 ++ ld2) = recordsOf ld1 ++ recordsOf ld2.
Proof. apply bind_app. Qed.

Lemma scopeRecords_app rl ills1 ills2 :
  scopeRecords rl (ills1 ++ ills2)
  = scopeRecords rl ills1 ++ scopeRecords rl ills2.
Proof. apply bind_app. Qed.

Lemma recordsOf_take_S ld i rl :
  ld !! i = Some rl →
  recordsOf (take (S i) ld)
  = recordsOf (take i ld)
    ++ scopeRecords rl (pdata.rl_InstrumentationLibraryLogs rl).
Proof.
  intros Hi. rewrite (take_S_r _ _ _ Hi), recordsOf_app.
  unfold recordsOf at 2. rewrite bind_cons. simpl. by rewrite app_nil_r.
Qed.

Lemma scopeRecords_take_S rl ills j ils :
  ills !! j = Some ils →
  scopeRecords rl (take (S j) ills)
  = scopeRecords rl (take j ills)
    ++ ((fun log => (attrsValue (pdata.rl_Resource rl), log))
          <$> pdata.ils_Logs ils).
Proof.
  intros Hj. rewrite (take_S_r _ _ _ Hj), scopeRecords_app.
  unfold scopeRecords at 2. rewrite bind_cons. simpl. by rewrite app_nil_r.
Qed.

Lemma recordsOf_take_le ld i i' :
  (i ≤ i')%nat →
  (length (recordsOf (take i ld)) ≤ length (recordsOf (take i' ld)))%nat.
Proof.
  intros Hle. rewrite <- (take_drop i (take i' ld)), recordsOf_app, length_app.
  rewrite take_take, Nat.min_l by lia. lia.
Qed.

Lemma scopeRecords_take_le rl ills j j' :
  (j ≤ j')%nat →
  (length (scopeRecords rl (take j ills))
   ≤ length (scopeRecords rl (take j' ills)))%nat.
Proof.
  intros Hle.
  rewrite <- (take_drop j (take j' ills)), scopeRecords_app, length_app.
  rewrite take_take, Nat.min_l by lia. lia.
Qed.

Lemma recordsOf_take_all ld i :
  (length (recordsOf (take i ld)) ≤ length (recordsOf ld))%nat.
Proof.
  rewrite <- (take_drop i ld) at 2. rewrite recordsOf_app, length_app. lia.
Qed.

Lemma scopeRecords_take_all rl ills j :
  (length (scopeRecords rl (take j ills)) ≤ length (scopeRecords rl ills))%nat.
Proof.
  rewrite <- (take_drop j ills) at 2. rewrite scopeRecords_app, length_app. lia.
Qed.

(** Record [k] of scope [j] of resource [i] is where [position] says. *)
Lemma recordsOf_position ld i j k rl ils log :
  ld !! i = Some rl →
  pdata.rl_InstrumentationLibraryLogs rl !! j = Some ils →
  pdata.ils_Logs ils !! k = Some log →
  recordsOf ld !! position ld i j k
  = Some (attrsValue (pdata.rl_Resource rl), log).
Proof.
  intros Hi Hj Hk. unfold position. rewrite Hi.
  set (ills := pdata.rl_InstrumentationLibraryLogs rl) in *.
  assert (Hsplit : ∃ rest,
    recordsOf ld
    = recordsOf (take i ld)
      ++ scopeRecords rl (take j ills)
      ++ ((fun log => (attrsValue (pdata.rl_Resource rl), log))
            <$> pdata.ils_Logs ils)
      ++ rest).
  { exists (scopeRecords rl (drop (S j) ills) ++ recordsOf (drop (S i) ld)).
    transitivity (recordsOf (take (S i) ld ++ drop (S i) ld));
      [by rewrite take_drop|].
    rewrite recordsOf_app, (recordsOf_take_S _ _ _ Hi). fold ills.
    transitivity
      ((recordsOf (take i ld)
        ++ scopeRecords rl (take (S j) ills ++ drop (S j) ills))
       ++ recordsOf (drop (S i) ld)); [by rewrite take_drop|].
    rewrite scopeRecords_app, (scopeRecords_take_S _ _ _ _ Hj).
    by rewrite <- !app_assoc. }
  destruct Hsplit as [rest ->].
  rewrite <- Nat.add_assoc, lookup_app_r by lia.
  replace (_ + _ - _)%nat
    with (length (scopeRecords rl (take j ills)) + k)%nat by lia.
  rewrite lookup_app_r by lia.
  replace (_ + _ - _)%nat with k by lia.
  rewrite lookup_app_l.
  - by rewrite list_lookup_fmap, Hk.
  - rewrite length_fmap. by eapply lookup_lt_Some.
Qed.

(** The positions follow the indices: first the resource, then the scope,
    then the record. *)
Lemma position_lex ld i j k i' j' k' rl ils log rl' ils' log' :
  ld !! i = Some rl →
  pdata.rl_InstrumentationLibraryLogs rl !! j = Some ils →
  pdata.ils_Logs ils !! k = Some log →
  ld !! i' = Some rl' →
  pdata.rl_InstrumentationLibraryLogs rl' !! j' = Some ils' →
  pdata.ils_Logs ils' !! k' = Some log' →
  (i < i')%nat ∨ i = i' ∧ ((j < j')%nat ∨ j = j' ∧ (k < k')%nat) →
  (position ld i j k < position ld i' j' k')%nat.
Proof.
  intros Hi Hj Hk Hi' Hj' Hk' Hlex. unfold position. rewrite Hi, Hi'.
  assert (Hk_lt : (k < length (pdata.ils_Logs ils))%nat)
    by by eapply lookup_lt_Some.
  assert (Hscope :
    (length (scopeRecords rl (take j (pdata.rl_InstrumentationLibraryLogs rl)))
     + k
     < length (scopeRecords rl
                 (take (S j) (pdata.rl_InstrumentationLibraryLogs rl))))%nat).
  { rewrite (scopeRecords_take_S _ _ _ _ Hj), length_app, length_fmap. lia. }
  destruct Hlex as [Hlt|[<- Hlex]].
  - pose proof (recordsOf_take_le ld (S i) i' ltac:(lia)) as Hle.
    rewrite (recordsOf_take_S _ _ _ Hi), length_app in Hle.
    pose proof (scopeRecords_take_all rl
                  (pdata.rl_InstrumentationLibraryLogs rl) (S j)).
    lia.
  - rewrite Hi in Hi'. injection Hi' as <-.
    destruct Hlex as [Hlt|[<- Hlt]].
    + pose proof (scopeRecords_take_le rl
                    (pdata.rl_InstrumentationLibraryLogs rl) (S j) j'
                    ltac:(lia)).
      lia.
    + lia.
Qed.

(** ** The export coordinator *)

Section Claims.

Context {P : Type} `{!Pusher P}.
Variable NewPusher : string → string → Z → P.
Variable time_Now : nat → Z.

Implicit Types (st : state P) (p : nat) (cs : list Call).

(** C6: for a batch without resource groups, and for a batch all of whose
    records fail translation, a call of [PushLogs] that can take the mutex
    returns nil, calls neither [AddLogEntry] nor [ForceFlush], and leaves
    every Pusher object as it was. *)
Theorem PushLogs_nothing_to_send ld st :
  seqTokenMu (self st) = false →
  ld = [] ∨ forallb fails (recordsOf ld) = true →
  ∃ st' delta,
    PushLogs NewPusher time_Now ld st = Some (None, st')
    ∧ calls st' = calls st ++ delta
    ∧ added delta = []
    ∧ flushed delta = []
    ∧ ∀ q, (q < length (pushers st))%nat → pushers st' !! q = pushers st !! q.
Proof.
  intros Hmu Hld.
  assert (Hev : omap converted (recordsOf ld) = []).
  { destruct Hld as [->|Hall]; [done|]. by apply all_fail_converted. }
  destruct (PushLogs_effect NewPusher time_Now ld st Hmu)
    as (err & st' & delta & lines & HP & Hc & Hl & Ha & Hf & He & _).
  destruct (He Hev) as (-> & _ & Hp).
  rewrite Hev in Ha, Hf. rewrite bool_decide_eq_true_2 in Hf by done.
  by exists st', delta.
Qed.

End Claims.

(** The first [AddLogEntry] fails, the others and the flush succeed:
    [PushLogs] returns nil, after four calls of [AddLogEntry]. *)
Example failed_add_is_not_returned :
  ∃ st', PushLogs (Scripted.scripted [Some (ErrorString "add")]) Scripted.clock
           Sample.five Sample.fresh = Some (None, st')
    ∧ length (added (calls st')) = 4%nat
    ∧ failedAdds (calls st') = 1%nat
    ∧ flushed (calls st') = [(0%nat, None)].
Proof. vm_compute. eexists. repeat split. Qed.

(** Every [AddLogEntry] succeeds and the flush fails: [PushLogs] returns the
    error of the flush. *)
Example failed_flush_is_returned :
  ∃ st', PushLogs (Scripted.scripted [None; None; None; None;
                                      Some (ErrorString "flush")])
           Scripted.clock Sample.five Sample.fresh
         = Some (Some (ErrorString "flush"), st')
    ∧ failedAdds (calls st') = 0%nat.
Proof. vm_compute. eexists. repeat split. Qed.

Lemma PushLogs_nothing_to_send_witness :
  ∃ st' delta,
    PushLogs Scripted.quiet Scripted.clock Sample.unsendable Sample.fresh
    = Some (None, st')
    ∧ calls st' = calls Sample.fresh ++ delta
    ∧ added delta = []
    ∧ flushed delta = []
    ∧ ∀ q, (q < length (pushers Sample.fresh))%nat →
           pushers st' !! q = pushers Sample.fresh !! q.
Proof.
  apply (PushLogs_nothing_to_send Scripted.quiet Scripted.clock
           Sample.unsendable Sample.fresh).
  - reflexivity.
  - right. reflexivity.
Defined.

(** A batch without resource groups: nothing but the Pusher of the
    configured destination being built. *)
Example empty_batch :
  ∃ st', PushLogs Scripted.quiet Scripted.clock [] Sample.fresh
         = Some (None, st')
    ∧ calls st' = [NewPusherCall "group" "stream" 0].
Proof. vm_compute. eexists. repeat split. Qed.

(** The batch of the specification: five records, the third of which fails
    translation.  Four events, one record dropped and one line for it; four
    calls of [AddLogEntry], a flush, and nil returned. *)
Example five_records :
  (length (logsToCWLogs [] Sample.five).1.1 = 4%nat
   ∧ (logsToCWLogs [] Sample.five).1.2 = 1
   ∧ (logsToCWLogs [] Sample.five).2 = [dropLine UnsupportedValueError])
  ∧ ∃ st', PushLogs Scripted.quiet Scripted.clock Sample.five Sample.fresh
           = Some (None, st')
      ∧ length (added (calls st')) = 4%nat
      ∧ flushed (calls st') = [(0%nat, None)].
Proof. vm_compute. split; [repeat split|]. eexists. repeat split. Qed.

(** Two resources of two scopes of two records each: the bodies 1 to 8
    reach the Pusher in that order. *)
Example nested_in_order :
  (fun r => (r.1, (fun c => bodyMember c.2) <$> added (calls r.2)))
    <$> PushLogs Scripted.quiet Scripted.clock Sample.nested Sample.fresh
  = Some (None, (fun n => Some (json.Int n)) <$> [1; 2; 3; 4; 5; 6; 7; 8]).
Proof. vm_compute. reflexivity. Qed.

(** ** The registry *)

Section Registry.

Context {P : Type} `{!Pusher P}.
Variable NewPusher : string → string → Z → P.
Variable time_Now : nat → Z.

Implicit Types (st : state P) (p : nat) (cs : list Call).

Lemma registered_eq st st' :
  groupStreamToPusherMap (self st') = groupStreamToPusherMap (self st) →
  streamMaps st' = streamMaps st →
  ∀ g s, registered st' g s = registered st g s.
Proof. intros Hs Hm g s. unfold registered. by rewrite Hs, Hm. Qed.

(** What [getLogPusher] does, by what the registry holds for the key. *)
Lemma getLogPusher_cases g s st :
  (∀ g a, groupStreamToPusherMap (self st) !! g = Some a →
          (a < length (streamMaps st))%nat) →
  let r := getLogPusher NewPusher g s st in
  let p := length (pushers st) in
  (∃ q, registered st g s = Some q ∧ r = (q, st))
  ∨ (registered st g s = None
     ∧ r.1 = p
     ∧ calls r.2 = calls st ++ [NewPusherCall g s p]
     ∧ pushers r.2 = pushers st ++ [NewPusher g s (retryCount (self st))]
     ∧ logger r.2 = logger st ∧ ticks r.2 = ticks st
     ∧ config (self r.2) = config (self st)
     ∧ seqTokenMu (self r.2) = seqTokenMu (self st)
     ∧ ((∃ a m, groupStreamToPusherMap (self st) !! g = Some a
                ∧ streamMaps st !! a = Some m
                ∧ groupStreamToPusherMap (self r.2)
                  = groupStreamToPusherMap (self st)
                ∧ streamMaps r.2 = <[a := <[s := p]> m]> (streamMaps st))
        ∨ (groupStreamToPusherMap (self st) !! g = None
           ∧ groupStreamToPusherMap (self r.2)
             = <[g := length (streamMaps st)]> (groupStreamToPusherMap (self st))
           ∧ streamMaps r.2 = streamMaps st ++ [{[ s := p ]}]))).
Proof.
  intros W1 r p. subst r. unfold getLogPusher, registered.
  destruct (groupStreamToPusherMap (self st) !! g) as [a|] eqn:Hg; simpl.
  - destruct (lookup_lt_is_Some_2 (streamMaps st) a (W1 g a Hg)) as [m Hm].
    rewrite Hm. simpl. destruct (m !! s) as [q|] eqn:Hs; simpl.
    + left. by exists q.
    + right. repeat split; try done. left. exists a, m.
      repeat split; try done.
      apply list_eq. intros i. destruct (decide (a = i)) as [<-|Hne].
      * rewrite list_lookup_alter_eq, Hm, list_lookup_insert_eq; [done|].
        by eapply lookup_lt_Some.
      * by rewrite list_lookup_alter_ne, list_lookup_insert_ne.
  - rewrite lookup_app_r, Nat.sub_diag by lia. simpl.
    rewrite lookup_empty. simpl.
    right. repeat split; try done. right. repeat split; try done.
    apply list_eq. intros i.
    destruct (decide (length (streamMaps st) = i)) as [<-|Hne].
    + rewrite list_lookup_alter_eq, !lookup_app_r, Nat.sub_diag by lia. simpl.
      by rewrite insert_empty.
    + rewrite list_lookup_alter_ne by done.
      destruct (decide (i < length (streamMaps st))%nat).
      * by rewrite !lookup_app_l.
      * rewrite !lookup_app_r by lia.
        by destruct (i - length (streamMaps st))%nat as [|[|?]] eqn:E; [lia|..].
Qed.

Lemma getLogPusher_spec g s st :
  sound st →
  let r := getLogPusher NewPusher g s st in
  sound r.2
  ∧ (∀ g' s', registered r.2 g' s'
              = if bool_decide (g' = g ∧ s' = s) then Some r.1
                else registered st g' s')
  ∧ match registered st g s with
    | Some q => r = (q, st)
    | None =>
        r.1 = length (pushers st)
        ∧ calls r.2 = calls st ++ [NewPusherCall g s r.1]
        ∧ pushers r.2 = pushers st ++ [NewPusher g s (retryCount (self st))]
    end.
Proof.
  intros (W1 & W2 & W3 & W4) r.
  destruct (getLogPusher_cases g s st W1)
    as [(q & Hq & Hr)|(Hnone & Hp & Hc & Hps & _ & _ & _ & _ & Hcase)];
    fold r in Hr || fold r in Hp, Hc, Hps, Hcase.
  - rewrite Hq, Hr. simpl. split; [done|]. split; [|done].
    intros g' s'. case_bool_decide as Hk; [|done]. by destruct Hk as [-> ->].
  - rewrite Hnone.
    assert (Hreg : ∀ g' s',
              registered r.2 g' s'
              = (if bool_decide (g' = g ∧ s' = s) then Some r.1
                 else registered st g' s')
            ∧ (∀ g a, groupStreamToPusherMap (self r.2) !! g = Some a →
                      (a < length (streamMaps r.2))%nat)
            ∧ (∀ g1 g2 a, groupStreamToPusherMap (self r.2) !! g1 = Some a →
                 groupStreamToPusherMap (self r.2) !! g2 = Some a → g1 = g2)).
    { intros g' s'.
      destruct Hcase as [(a & m & Hg & Hm & Ho & Hs)|(Hg & Ho & Hs)].
      - split; [|split].
        + unfold registered. rewrite Ho, Hs.
          destruct (groupStreamToPusherMap (self st) !! g') as [a'|] eqn:Hg';
            simpl; [|by rewrite bool_decide_eq_false_2 by (by intros [-> _]; congruence)].
          destruct (decide (a = a')) as [<-|Hne].
          * assert (g' = g) as -> by eauto.
            rewrite list_lookup_insert_eq by (by eapply lookup_lt_Some).
            rewrite Hm. simpl.
            destruct (decide (s = s')) as [<-|Hs'].
            -- by rewrite lookup_insert_eq, bool_decide_eq_true_2, Hp.
            -- rewrite lookup_insert_ne by done.
               rewrite bool_decide_eq_false_2; [done|]. by intros [_ ->].
          * rewrite list_lookup_insert_ne by done.
            rewrite bool_decide_eq_false_2; [done|].
            intros [-> _]. congruence.
        + intros g0 a0. rewrite Ho, Hs, length_insert. apply W1.
        + rewrite Ho. apply W2.
      - split; [|split].
        + unfold registered. rewrite Ho, Hs, lookup_insert.
          destruct (decide (g = g')) as [<-|Hne]; simpl.
          * rewrite lookup_app_r, Nat.sub_diag by lia. simpl.
            rewrite Hg. simpl.
            destruct (decide (s = s')) as [<-|Hs'].
            -- by rewrite lookup_singleton_eq, bool_decide_eq_true_2, Hp.
            -- rewrite lookup_singleton_ne by done.
               by rewrite bool_decide_eq_false_2 by (by intros [_ ->]).
          * rewrite bool_decide_eq_false_2 by (by intros [-> _]).
            destruct (groupStreamToPusherMap (self st) !! g') as [a'|] eqn:Hg';
              simpl; [|done].
            by rewrite lookup_app_l by eauto.
        + intros g0 a0. rewrite Ho, Hs, length_app, lookup_insert. simpl.
          case_decide; [intros [= <-]; lia|]. intros Ha%W1. lia.
        + intros g1 g2 a0. rewrite Ho, !lookup_insert.
          repeat case_decide; subst; try done.
          * intros [= <-] Ha%W1. lia.
          * intros Ha%W1 [= <-]. lia.
          * apply W2. }
    split; [|split; [apply Hreg|by rewrite Hp]].
    split; [apply (Hreg g s)|]. split; [apply (Hreg g s)|]. split.
    + intros g' s' q. rewrite (proj1 (Hreg g' s')), Hps, length_app. simpl.
      case_bool_decide.
      * intros [= <-]. lia.
      * intros Hq%W3. lia.
    + intros g' s'. rewrite (proj1 (Hreg g' s')), Hc, constructed_app, W4.
      simpl. rewrite Hp. case_bool_decide as Hk.
      * destruct Hk as [-> ->]. rewrite Hnone.
        by rewrite bool_decide_eq_true_2.
      * rewrite bool_decide_eq_false_2 by (by intros [-> ->]; apply Hk).
        by rewrite app_nil_r.
Qed.


Lemma getLogPusher_mono g s st :
  sound st →
  ∀ g' s' q, registered st g' s' = Some q →
             registered (getLogPusher NewPusher g s st).2 g' s' = Some q.
Proof.
  intros Hs g' s' q Hq.
  destruct (getLogPusher_spec g s st Hs) as (_ & Hreg & Hm).
  rewrite Hreg. case_bool_decide as Hk; [|done].
  destruct Hk as [-> ->]. rewrite Hq in Hm. by rewrite Hm.
Qed.

Lemma sound_newExporter cfg maxRetries id :
  sound (newExporter (P := P) cfg maxRetries id).
Proof. by repeat split. Qed.

(** [newCwLogsExporter], when it returns an exporter, returns one with an
    empty registry and a free mutex. *)
Lemma newCwLogsExporter_Ok config session uuid (st : state P) :
  newCwLogsExporter config session uuid = Ok st →
  ∃ cfg maxRetries id,
    config = Some cfg ∧ session = Ok maxRetries ∧ uuid = Ok id
    ∧ st = newExporter cfg maxRetries id.
Proof.
  unfold newCwLogsExporter. destruct config as [cfg|]; [|done].
  destruct session as [maxRetries|]; [|done].
  destruct uuid as [id|]; [|done].
  intros [= <-]. by exists cfg, maxRetries, id.
Qed.

Lemma sound_mutex b st : sound st → sound (with_self (set_seqTokenMu b) st).
Proof. done. Qed.

(** Using a Pusher leaves the registry as it is. *)
Lemma uses_sound p cs lines k st st' :
  uses p cs lines k st st' → (∀ g s, constructed g s cs = []) →
  sound st →
  sound st' ∧ ∀ g s, registered st' g s = registered st g s.
Proof.
  intros (Us & Um & Uc & _ & _ & Un & _) Hcs (W1 & W2 & W3 & W4).
  assert (Hreg : ∀ g s, registered st' g s = registered st g s).
  { apply registered_eq; [by rewrite Us|done]. }
  split; [|done]. unfold sound. rewrite Us, Um, Un, Uc.
  split; [done|]. split; [done|]. split.
  - intros g s q. rewrite Hreg. apply W3.
  - intros g s. by rewrite constructed_app, Hcs, app_nil_r, Hreg.
Qed.

Lemma PushLogs_keeps ld st err st' :
  sound st → PushLogs NewPusher time_Now ld st = Some (err, st') →
  sound st'
  ∧ seqTokenMu (self st') = false
  ∧ config (self st') = config (self st)
  ∧ ∀ g s q, registered st g s = Some q → registered st' g s = Some q.
Proof.
  intros Hs. unfold PushLogs.
  destruct (seqTokenMu (self st)) eqn:Hmu; [done|].
  set (st0 := with_self (set_seqTokenMu true) st).
  destruct (pushLogsLocked_effect NewPusher time_Now ld st0)
    as (cs & lines & k & Hu & _ & _ & Hc & _).
  change (config (self st0)) with (config (self st)) in Hu.
  set (exp := config (self st)) in *.
  pose proof (sound_mutex true st Hs) as Hs0. fold st0 in Hs0.
  destruct (getLogPusher_spec (LogGroupName exp) (LogStreamName exp) st0 Hs0)
    as (Hs1 & _).
  pose proof (getLogPusher_mono (LogGroupName exp) (LogStreamName exp) st0 Hs0)
    as Hmono.
  destruct (getLogPusher_touch NewPusher (LogGroupName exp) (LogStreamName exp) st0)
    as (_ & _ & Tc & _).
  destruct (uses_sound _ _ _ _ _ _ Hu Hc Hs1) as (Hs2 & Hreg).
  destruct Hu as (Us & _).
  destruct (pushLogsLocked NewPusher time_Now ld st0) as [err0 st1].
  intros [= <- <-]. simpl in *.
  split; [by apply sound_mutex|]. split; [done|]. split.
  - by rewrite Us, Tc.
  - intros g s q Hq.
    change (registered (with_self (set_seqTokenMu false) st1) g s)
      with (registered st1 g s).
    rewrite Hreg. by apply Hmono.
Qed.

Lemma Shutdown_eq st :
  Shutdown NewPusher st
  = let exp := config (self st) in
    let got := getLogPusher NewPusher (LogGroupName exp) (LogStreamName exp) st in
    (None, (forceFlush got.1 got.2).2).
Proof.
  unfold Shutdown, mbind, M_bind, mret, M_ret, theConfig. simpl.
  destruct (getLogPusher NewPusher _ _ st) as [p st1]. simpl.
  by destruct (forceFlush p st1).
Qed.

Lemma Shutdown_keeps st :
  sound st →
  let st' := (Shutdown NewPusher st).2 in
  sound st'
  ∧ seqTokenMu (self st') = seqTokenMu (self st)
  ∧ config (self st') = config (self st)
  ∧ ∀ g s q, registered st g s = Some q → registered st' g s = Some q.
Proof.
  intros Hs. rewrite Shutdown_eq. cbv zeta. cbn [snd].
  set (exp := config (self st)).
  destruct (getLogPusher_spec (LogGroupName exp) (LogStreamName exp) st Hs)
    as (Hs1 & _).
  pose proof (getLogPusher_mono (LogGroupName exp) (LogStreamName exp) st Hs)
    as Hmono.
  destruct (getLogPusher_touch NewPusher (LogGroupName exp) (LogStreamName exp) st)
    as (_ & _ & Tc & _ & Tm & _).
  set (got := getLogPusher NewPusher (LogGroupName exp) (LogStreamName exp) st) in *.
  pose proof (forceFlush_uses got.1 got.2) as Hu.
  destruct (uses_sound _ _ _ _ _ _ Hu ltac:(done) Hs1) as (Hs2 & Hreg).
  destruct Hu as (Us & _).
  split; [done|]. split; [by rewrite Us|]. split; [by rewrite Us|].
  intros g s q Hq. rewrite Hreg. by apply Hmono.
Qed.

Lemma perform_keeps st o :
  sound st → seqTokenMu (self st) = false →
  let st' := perform NewPusher time_Now st o in
  sound st'
  ∧ seqTokenMu (self st') = false
  ∧ config (self st') = config (self st)
  ∧ ∀ g s q, registered st g s = Some q → registered st' g s = Some q.
Proof.
  intros Hs Hmu. destruct o as [ld| |g s]; unfold perform; cbv zeta.
  - destruct (PushLogs NewPusher time_Now ld st) as [[err st']|] eqn:HP;
      [|done].
    by apply (PushLogs_keeps ld st err st').
  - destruct (Shutdown_keeps st Hs) as (H1 & H2 & H3 & H4).
    split; [done|]. split; [by rewrite H2|]. by split.
  - destruct (getLogPusher_spec g s st Hs) as (H1 & _).
    destruct (getLogPusher_touch NewPusher g s st) as (_ & _ & Tc & _ & Tm & _).
    split; [done|]. split; [by rewrite Tm|]. split; [done|].
    by apply getLogPusher_mono.
Qed.



End Registry.

(** The Pusher fails to flush at shutdown, and [Shutdown] returns nil. *)
Example Shutdown_hides_the_error :
  (fun r => (r.1, flushed (calls r.2)))
    (Shutdown (Scripted.scripted [Some (ErrorString "flush")]) Sample.fresh)
  = (None, [(0%nat, Some (ErrorString "flush"))]).
Proof. vm_compute. reflexivity. Qed.

(** Two Pushers in the registry: [Shutdown] flushes the one of the
    configured destination and not the other. *)
Example Shutdown_flushes_one :
  (fun st => flushed (calls st))
    (performAll Scripted.quiet Scripted.clock
       [DoGetLogPusher "other" "stream"; DoPushLogs Sample.five; DoShutdown]
       Sample.fresh)
  = [(1%nat, None); (1%nat, None)]
  ∧ registered
      (performAll Scripted.quiet Scripted.clock
         [DoGetLogPusher "other" "stream"; DoPushLogs Sample.five; DoShutdown]
         Sample.fresh) "other" "stream"
    = Some 0%nat.
Proof. vm_compute. split; reflexivity. Qed.

(** The same key twice, with other calls between: one Pusher, built once. *)
Example getLogPusher_twice :
  let st := performAll Scripted.quiet Scripted.clock
              [DoGetLogPusher "g" "s"; DoPushLogs Sample.five;
               DoGetLogPusher "g" "t"; DoGetLogPusher "g" "s"] Sample.fresh in
  registered st "g" "s" = Some 0%nat
  ∧ registered st "group" "stream" = Some 1%nat
  ∧ registered st "g" "t" = Some 2%nat
  ∧ constructed "g" "s" (calls st) = [0%nat]
  ∧ length (pushers st) = 3%nat.
Proof. vm_compute. repeat split. Qed.

(** ** Goroutines *)

Lemma before_nil t1 t2 : before t1 t2 [].
Proof. intros i j a1 a2 Hi. by rewrite lookup_nil in Hi. Qed.

Lemma before_no_steps t1 t2 (h : list (nat * action)) :
  (∀ i a, h !! i ≠ Some (t2, a)) → before t1 t2 h.
Proof. intros Hno i j a1 a2 _ Hj. by destruct (Hno j a2). Qed.

(** A step of a third goroutine changes nothing between two others. *)
Lemma before_snoc_other t1 t2 t a (h : list (nat * action)) :
  t ≠ t1 → t ≠ t2 → before t1 t2 h → before t1 t2 (h ++ [(t, a)]).
Proof.
  intros H1 H2 Hb i j a1 a2 Hi Hj.
  apply lookup_snoc_Some in Hi as [[_ Hi]|[_ [= ? _]]]; [|congruence].
  apply lookup_snoc_Some in Hj as [[_ Hj]|[_ [= ? _]]]; [|congruence].
  by eapply Hb.
Qed.

(** A new step of the later goroutine keeps it the later. *)
Lemma before_snoc_later t1 t2 a (h : list (nat * action)) :
  t1 ≠ t2 → before t1 t2 h → before t1 t2 (h ++ [(t2, a)]).
Proof.
  intros Hne Hb i j a1 a2 Hi Hj.
  apply lookup_snoc_Some in Hi as [[Hlt Hi]|[_ [= ? _]]]; [|congruence].
  apply lookup_snoc_Some in Hj as [[_ Hj]|[-> _]]; [|done].
  by eapply Hb.
Qed.

Section Goroutines.

Context {P : Type} `{!Pusher P}.
Variable NewPusher : string → string → Z → P.
Variable time_Now : nat → Z.

Implicit Types (st : state P) (sys : system P) (c : pc).

(** The step from [AtTranslate], statement by statement. *)
Lemma advance_translate ld st :
  advance NewPusher time_Now (AtTranslate ld) st
  = let exp := config (self st) in
    let got := getLogPusher NewPusher (LogGroupName exp) (LogStreamName exp) st in
    let w := logsToCWLogs (logger got.2) ld in
    let st2 := with_logger (fun _ => w.2) got.2 in
    let logEvents := w.1.1 in
    if bool_decide (length logEvents = 0%nat)
    then Some (AtUnlock None, st2, Resolved got.1)
    else Some (AtAppend got.1 (length logEvents) logEvents,
               with_logger
                 (zap.Info "Putting log events"
                    [zap.Int "num_of_events" (Z.of_nat (length logEvents))])
                 st2,
               Resolved got.1).
Proof.
  unfold advance, mbind, M_bind, mret, M_ret, theConfig, translate, logInfo.
  simpl.
  destruct (getLogPusher NewPusher _ _ st) as [p st1]. simpl.
  destruct (logsToCWLogs (logger st1) ld) as [[out dropped] lg]. simpl.
  by case_bool_decide.
Qed.

(** The step from the end of the loop, statement by statement. *)
Lemma advance_flush p n st :
  advance NewPusher time_Now (AtAppend p n []) st
  = let st5 :=
      with_logger (zap.Debug "Log events are successfully put" []) st in
    let f := forceFlush p st5 in
    match f.1 with
    | Some err =>
        Some (AtUnlock (Some err),
              with_logger (zap.Error_ flushFailed [zap.Error err]) f.2,
              Flushed p (Some err))
    | None => Some (AtUnlock None, f.2, Flushed p None)
    end.
Proof.
  unfold advance, mbind, M_bind, mret, M_ret, logDebug, logError. simpl.
  by destruct (forceFlush p _) as [[err|] st6].
Qed.

Lemma advance_append p n logEvent rest st :
  advance NewPusher time_Now (AtAppend p n (logEvent :: rest)) st
  = Some (AtAppend p n rest, (pushOne time_Now p n logEvent st).2,
          Appended p logEvent).
Proof. simpl. by destruct (pushOne time_Now p n logEvent st). Qed.

(** A step takes the mutex, or keeps it, or gives it back. *)
Lemma advance_cases c st c' st' a :
  advance NewPusher time_Now c st = Some (c', st', a) →
  ((∃ ld, c = AtLock ld) ∧ seqTokenMu (self st) = false
   ∧ critical c' = true ∧ seqTokenMu (self st') = true)
  ∨ (critical c = true ∧ critical c' = true
     ∧ seqTokenMu (self st') = seqTokenMu (self st))
  ∨ (critical c = true ∧ (∃ ret, c' = Returned ret)
     ∧ seqTokenMu (self st') = false).
Proof.
  destruct c as [ld|ld|p n [|logEvent rest]|ret|ret].
  - simpl. destruct (seqTokenMu (self st)) eqn:Hmu; [done|].
    intros [= <- <- <-]. left. eauto.
  - rewrite advance_translate. cbv zeta.
    destruct (getLogPusher_touch NewPusher (LogGroupName (config (self st)))
                (LogStreamName (config (self st))) st)
      as (_ & _ & _ & _ & Tm & _).
    case_bool_decide; intros [= <- <- <-]; right; left; by repeat split.
  - rewrite advance_flush. cbv zeta.
    pose proof (forceFlush_uses p
      (with_logger (zap.Debug "Log events are successfully put" []) st))
      as (Us & _).
    destruct (forceFlush p _) as [[err|] st6]; simpl in *;
      intros [= <- <- <-]; right; left; repeat split; try done;
      simpl; by rewrite Us.
  - rewrite advance_append.
    destruct (pushOne_uses time_Now p n logEvent st) as (err & Us & _).
    intros [= <- <- <-]. right. left. repeat split; try done. by rewrite Us.
  - simpl. intros [= <- <- <-]. right. right. repeat split; eauto.
  - done.
Qed.


(** What a step says it did is what the Pusher was asked to do: an append
    is one call of [AddLogEntry] with that event, a flush one call of
    [ForceFlush] with that result; taking and releasing the mutex call
    nothing, and resolving the Pusher at most builds it. *)
Lemma advance_calls c st c' st' a :
  advance NewPusher time_Now c st = Some (c', st', a) →
  match a with
  | Locked | Unlocked => calls st' = calls st
  | Resolved p =>
      calls st' = calls st
      ∨ calls st'
        = calls st ++ [NewPusherCall (LogGroupName (config (self st)))
                         (LogStreamName (config (self st))) p]
  | Appended p logEvent =>
      ∃ err, calls st'
             = calls st
               ++ [AddLogEntryCall p
                     {| cwlogs.InputLogEvent := logEvent;
                        cwlogs.GeneratedTime := time_Now (ticks st) |} err]
  | Flushed p err => calls st' = calls st ++ [ForceFlushCall p err]
  end.
Proof.
  destruct c as [ld|ld|p n [|logEvent rest]|ret|ret].
  - simpl. destruct (seqTokenMu (self st)); [done|]. by intros [= <- <- <-].
  - rewrite advance_translate. cbv zeta.
    destruct (getLogPusher_touch NewPusher (LogGroupName (config (self st)))
                (LogStreamName (config (self st))) st)
      as (_ & _ & _ & _ & _ & Tc & _).
    by case_bool_decide; intros [= <- <- <-].
  - rewrite advance_flush. cbv zeta.
    pose proof (forceFlush_uses p
      (with_logger (zap.Debug "Log events are successfully put" []) st))
      as (_ & _ & Uc & _).
    by destruct (forceFlush p _) as [[err|] st6]; intros [= <- <- <-].
  - rewrite advance_append.
    destruct (pushOne_uses time_Now p n logEvent st) as (err & _ & _ & Uc & _).
    intros [= <- <- <-]. by exists err.
  - simpl. by intros [= <- <- <-].
  - done.
Qed.

(** A goroutine that cannot move leaves the system as it is; one that can
    changes its own place, the state of its exporter and the history. *)
Lemma step_cases sys t :
  step NewPusher time_Now sys t = sys
  ∨ ∃ g st c' st' a,
      goroutines sys !! t = Some g
      ∧ exporters sys !! on g = Some st
      ∧ advance NewPusher time_Now (at_ g) st = Some (c', st', a)
      ∧ step NewPusher time_Now sys t
        = {| exporters := <[on g := st']> (exporters sys);
             goroutines := <[t := {| on := on g; at_ := c' |}]> (goroutines sys);
             history := history sys ++ [(t, a)] |}.
Proof.
  unfold step. destruct (goroutines sys !! t) as [g|] eqn:Hg; [|by left].
  destruct (exporters sys !! on g) as [st|] eqn:He; [|by left].
  destruct (advance NewPusher time_Now (at_ g) st) as [[[c' st'] a]|] eqn:Ha;
    [|by left].
  right. by exists g, st, c', st', a.
Qed.

(** A goroutine stays on its exporter. *)
Lemma step_on sys t :
  on <$> goroutines (step NewPusher time_Now sys t) = on <$> goroutines sys.
Proof.
  destruct (step_cases sys t) as [->|(g & st & c' & st' & a & Hg & _ & _ & ->)];
    [done|].
  simpl. rewrite list_fmap_insert. simpl. apply list_insert_id.
  by rewrite list_lookup_fmap, Hg.
Qed.

Lemma run_on schedule : ∀ sys,
  on <$> goroutines (run NewPusher time_Now schedule sys)
  = on <$> goroutines sys.
Proof.
  induction schedule as [|t schedule IH]; intros sys; [done|].
  simpl. by rewrite IH, step_on.
Qed.

Lemma orderly_spawn (exps : list (state P)) jobs : orderly (spawn exps jobs).
Proof.
  unfold orderly, spawn. simpl.
  assert (Hnot : ∀ t g,
    ((fun j : nat * Logs => {| on := j.1; at_ := AtLock j.2 |}) <$> jobs) !! t
    = Some g → critical (at_ g) = false).
  { intros t g. rewrite list_lookup_fmap.
    destruct (jobs !! t); [|done]. by intros [= <-]. }
  split; [|split; [|split; [|split]]].
  - intros t g Hg Hc. by rewrite (Hnot t g Hg) in Hc.
  - intros t1 t2 g1 g2 Hg1 _ _ Hc. by rewrite (Hnot t1 g1 Hg1) in Hc.
  - intros t g ld _ _ i a. by rewrite lookup_nil.
  - intros. apply before_nil.
  - intros. left. apply before_nil.
Qed.

Lemma orderly_step sys t : orderly sys → orderly (step NewPusher time_Now sys t).
Proof.
  intros (I1 & I2 & I3 & I4 & I5).
  destruct (step_cases sys t)
    as [->|(g & st & c' & st' & a & Hg & He & Ha & ->)]; [done|].
  apply advance_cases in Ha as K.
  pose proof (lookup_lt_Some _ _ _ Hg) as Ht.
  pose proof (lookup_lt_Some _ _ _ He) as Hlt.
  (* nobody else on this exporter is between Lock and Unlock *)
  assert (F : ∀ t' g', t' ≠ t → goroutines sys !! t' = Some g' →
                       on g' = on g → critical (at_ g') = true → False).
  { intros t' g' Hne Hg' Hon Hc.
    destruct K as [(_ & Hmu & _)|[(Hcg & _)|(Hcg & _)]].
    - destruct (I1 t' g' Hg' Hc) as (st0 & Hst0 & Hmu0).
      rewrite Hon, He in Hst0. injection Hst0 as <-. congruence.
    - apply Hne. by apply (I2 t' t g' g).
    - apply Hne. by apply (I2 t' t g' g). }
  (* the steps of the others on this exporter are all in the past *)
  assert (B : ∀ t' g', t' ≠ t → goroutines sys !! t' = Some g' →
                       on g' = on g → before t' t (history sys)).
  { intros t' g' Hne Hg' Hon.
    destruct K as [((ld & Hld) & _)|[(Hcg & _)|(Hcg & _)]].
    - apply before_no_steps. by apply (I3 t g ld).
    - by apply (I4 t t' g g').
    - by apply (I4 t t' g g'). }
  assert (Hc' : critical c' = true → seqTokenMu (self st') = true).
  { destruct K as [(_ & _ & _ & Hmu)|[(Hcg & _ & Hmu)|(_ & (ret & ->) & _)]];
      [done| |done].
    intros _. rewrite Hmu. destruct (I1 t g Hg Hcg) as (st0 & Hst0 & Hmu0).
    rewrite He in Hst0. by injection Hst0 as <-. }
  assert (Hnew : ∀ ld, c' ≠ AtLock ld).
  { intros ld ->.
    by destruct K as [(_ & _ & ? & _)|[(_ & ? & _)|(_ & (ret & ?) & _)]]. }
  unfold orderly. simpl.
  split; [|split; [|split; [|split]]].
  - intros t1 g1 Hg1 Hc1. destruct (decide (t1 = t)) as [->|Hne].
    + rewrite list_lookup_insert_eq in Hg1 by done. injection Hg1 as <-.
      simpl in *. exists st'. rewrite list_lookup_insert_eq by done. auto.
    + rewrite list_lookup_insert_ne in Hg1 by done.
      destruct (decide (on g1 = on g)) as [Hon|Hon];
        [by destruct (F t1 g1 Hne Hg1 Hon Hc1)|].
      rewrite list_lookup_insert_ne by done. by apply (I1 t1).
  - intros t1 t2 g1 g2 Hg1 Hg2 Hon Hc1 Hc2.
    destruct (decide (t1 = t)) as [->|Hne1], (decide (t2 = t)) as [->|Hne2];
      [done| | |].
    + rewrite list_lookup_insert_eq in Hg1 by done. injection Hg1 as <-.
      rewrite list_lookup_insert_ne in Hg2 by done. simpl in Hon.
      by destruct (F t2 g2 Hne2 Hg2 (eq_sym Hon) Hc2).
    + rewrite list_lookup_insert_eq in Hg2 by done. injection Hg2 as <-.
      rewrite list_lookup_insert_ne in Hg1 by done. simpl in Hon.
      by destruct (F t1 g1 Hne1 Hg1 Hon Hc1).
    + rewrite list_lookup_insert_ne in Hg1, Hg2 by done.
      by apply (I2 t1 t2 g1 g2).
  - intros t1 g1 ld Hg1 Hat i a1 Hi.
    destruct (decide (t1 = t)) as [->|Hne].
    + rewrite list_lookup_insert_eq in Hg1 by done. injection Hg1 as <-.
      by destruct (Hnew ld).
    + rewrite list_lookup_insert_ne in Hg1 by done.
      apply lookup_snoc_Some in Hi as [[_ Hi]|[_ [= ? _]]]; [|congruence].
      by apply (I3 t1 g1 ld Hg1 Hat i a1).
  - intros t1 t2 g1 g2 Hg1 Hg2 Hne Hon Hc1.
    destruct (decide (t1 = t)) as [->|Hne1].
    + rewrite list_lookup_insert_eq in Hg1 by done. injection Hg1 as <-.
      rewrite list_lookup_insert_ne in Hg2 by done. simpl in Hon.
      apply before_snoc_later; [done|]. by apply (B t2 g2).
    + rewrite list_lookup_insert_ne in Hg1 by done.
      destruct (decide (t2 = t)) as [->|Hne2].
      * rewrite list_lookup_insert_eq in Hg2 by done. injection Hg2 as <-.
        simpl in Hon. by destruct (F t1 g1 Hne1 Hg1 Hon Hc1).
      * rewrite list_lookup_insert_ne in Hg2 by done.
        apply before_snoc_other; [done..|]. by apply (I4 t1 t2 g1 g2).
  - intros t1 t2 g1 g2 Hg1 Hg2 Hne Hon.
    destruct (decide (t1 = t)) as [->|Hne1].
    + rewrite list_lookup_insert_eq in Hg1 by done. injection Hg1 as <-.
      rewrite list_lookup_insert_ne in Hg2 by done. simpl in Hon.
      right. apply before_snoc_later; [done|]. by apply (B t2 g2).
    + rewrite list_lookup_insert_ne in Hg1 by done.
      destruct (decide (t2 = t)) as [->|Hne2].
      * rewrite list_lookup_insert_eq in Hg2 by done. injection Hg2 as <-.
        simpl in Hon.
        left. apply before_snoc_later; [done|]. by apply (B t1 g1).
      * rewrite list_lookup_insert_ne in Hg2 by done.
        destruct (I5 t1 t2 g1 g2 Hg1 Hg2 Hne Hon) as [Hb|Hb];
          [left|right]; by apply before_snoc_other.
Qed.

Lemma orderly_run schedule : ∀ sys,
  orderly sys → orderly (run NewPusher time_Now schedule sys).
Proof.
  induction schedule as [|t schedule IH]; intros sys Hs; [done|].
  simpl. by apply IH, orderly_step.
Qed.

Lemma alone_S fuel c st :
  alone NewPusher time_Now (S fuel) c st
  = match advance NewPusher time_Now c st with
    | Some (c', st', _) => alone NewPusher time_Now fuel c' st'
    | None => (c, st)
    end.
Proof. done. Qed.

Lemma alone_Returned fuel ret st :
  alone NewPusher time_Now fuel (Returned ret) st = (Returned ret, st).
Proof. by destruct fuel. Qed.

Lemma alone_appends p n rest : ∀ fuel st,
  alone NewPusher time_Now (length rest + fuel) (AtAppend p n rest) st
  = alone NewPusher time_Now fuel (AtAppend p n [])
      (pushAll time_Now p n rest st).2.
Proof.
  induction rest as [|logEvent rest IH]; intros fuel st; [done|].
  change (length (logEvent :: rest) + fuel)%nat
    with (S (length rest + fuel)).
  by rewrite alone_S, advance_append, IH, pushAll_cons.
Qed.

(** A call that runs with no other goroutine on its exporter does what
    [PushLogs] does, in four steps and one more for each event. *)
Lemma alone_PushLogs ld st err st' more :
  PushLogs NewPusher time_Now ld st = Some (err, st') →
  alone NewPusher time_Now
    (length (omap converted (recordsOf ld)) + 4 + more) (AtLock ld) st
  = (Returned err, st').
Proof.
  unfold PushLogs. destruct (seqTokenMu (self st)) eqn:Hmu; [done|].
  set (st0 := with_self (set_seqTokenMu true) st).
  rewrite pushLogsLocked_eq. cbv zeta.
  replace (length (omap converted (recordsOf ld)) + 4 + more)%nat
    with (S (S (length (omap converted (recordsOf ld)) + S (S more))))
    by lia.
  rewrite alone_S. cbn [advance]. rewrite Hmu. fold st0.
  rewrite alone_S, advance_translate. cbv zeta.
  rewrite logsToCWLogs_spec. cbn [fst snd].
  case_bool_decide as Hn.
  - intros [= <- <-].
    rewrite Hn. cbn [Nat.add]. rewrite alone_S. cbn [advance].
    apply alone_Returned.
  - rewrite alone_appends, alone_S, advance_flush. cbv zeta.
    destruct (forceFlush _ _) as [[e|] st6]; cbn [fst snd];
      intros [= <- <-]; rewrite alone_S; cbn [advance];
      apply alone_Returned.
Qed.

(** C1, as amended: however the goroutines are scheduled, two calls of
    [PushLogs] on the same exporter do not interleave: one does all its
    steps, from taking [seqTokenMu] through the appends and the flush to
    the release, before the other does any.  The mutex is a field of the
    exporter: calls on different exporters are not ordered by it. *)
Theorem PushLogs_calls_are_serial (exps : list (state P)) jobs schedule
    t1 t2 e ld1 ld2 :
  jobs !! t1 = Some (e, ld1) → jobs !! t2 = Some (e, ld2) → t1 ≠ t2 →
  serial t1 t2
    (history (run NewPusher time_Now schedule (spawn exps jobs))).
Proof.
  intros H1 H2 Hne.
  pose proof (orderly_run schedule _ (orderly_spawn exps jobs))
    as (_ & _ & _ & _ & I5).
  pose proof (run_on schedule (spawn exps jobs)) as Hon.
  assert (∀ t ld, jobs !! t = Some (e, ld) →
                  ∃ g, goroutines (run NewPusher time_Now schedule
                                     (spawn exps jobs)) !! t = Some g
                       ∧ on g = e) as Hg.
  { intros t ld Ht. apply (f_equal (fun l => l !! t)) in Hon.
    rewrite !list_lookup_fmap in Hon. simpl in Hon.
    rewrite list_lookup_fmap, Ht in Hon. simpl in Hon.
    destruct (goroutines _ !! t) as [g|]; [|done].
    exists g. split; [done|]. by injection Hon. }
  destruct (Hg t1 ld1 H1) as (g1 & Hg1 & Ho1).
  destruct (Hg t2 ld2 H2) as (g2 & Hg2 & Ho2).
  apply (I5 t1 t2 g1 g2); congruence.
Qed.

End Goroutines.

Lemma PushLogs_calls_are_serial_witness :
  serial 0 1
    (history (run Scripted.quiet Scripted.clock Sample.turns
                (spawn [Sample.fresh] Sample.sameExporter))).
Proof.
  apply (PushLogs_calls_are_serial Scripted.quiet Scripted.clock
           [Sample.fresh] Sample.sameExporter Sample.turns 0 1 0
           Sample.five Sample.five).
  - reflexivity.
  - reflexivity.
  - lia.
Defined.

(** Two calls on one exporter, given the processor in turns: the second
    cannot move until the first has returned; both return. *)
Example turns_on_one_exporter :
  (fun sys => ((history sys).*1, at_ <$> goroutines sys))
    (run Scripted.quiet Scripted.clock Sample.turns
       (spawn [Sample.fresh] Sample.sameExporter))
  = ([0; 0; 0; 0; 0; 0; 0; 0; 1; 1; 1; 1; 1; 1; 1; 1]%nat,
     [Returned None; Returned None]).
Proof. vm_compute. reflexivity. Qed.

(** C1, as stated, fails: two exporters, each with a mutex of its own, and
    one call of [PushLogs] on each.  Given the processor in turns the two
    calls move in turns, neither waiting for the other. *)
Lemma two_exporters_interleave :
  ¬ serial 0 1
      (history (run Scripted.quiet Scripted.clock Sample.turns
                  (spawn [Sample.fresh; Sample.fresh] Sample.twoExporters))).
Proof.
  intros [H|H].
  - specialize (H 2%nat 1%nat (Resolved 0) Locked).
    vm_compute in H. specialize (H eq_refl eq_refl). lia.
  - specialize (H 1%nat 0%nat Locked Locked).
    vm_compute in H. specialize (H eq_refl eq_refl). lia.
Qed.

Example turns_on_two_exporters :
  (fun sys => ((history sys).*1, at_ <$> goroutines sys))
    (run Scripted.quiet Scripted.clock Sample.turns
       (spawn [Sample.fresh; Sample.fresh] Sample.twoExporters))
  = ([0; 1; 0; 1; 0; 1; 0; 1; 0; 1; 0; 1; 0; 1; 0; 1]%nat,
     [Returned None; Returned None]).
Proof. vm_compute. reflexivity. Qed.

(** * Further properties *)

(** ** The attribute flattener, maps *)

Lemma rangeInto_lookup f kvs : ∀ (m : gmap string value) k,
  rangeInto f kvs m !! k
  = match lastFor k kvs with
    | Some v => Some (f v)
    | None => m !! k
    end.
Proof.
  induction kvs as [|kv kvs IH]; intros m k; [done|].
  change (rangeInto f (kv :: kvs) m)
    with (rangeInto f kvs (<[kv.1 := f kv.2]> m)).
  rewrite IH. simpl. destruct (lastFor k kvs) as [v|]; [done|].
  case_bool_decide as Hk.
  - by rewrite Hk, lookup_insert_eq.
  - by rewrite lookup_insert_ne.
Qed.

Lemma lastFor_Some k kvs : is_Some (lastFor k kvs) ↔ k ∈ kvs.*1.
Proof.
  induction kvs as [|kv kvs IH]; simpl.
  - split; [by intros [? ?]|by intros ?%elem_of_nil].
  - rewrite elem_of_cons, <- IH. destruct (lastFor k kvs) as [v|].
    + split; [by right|by eauto].
    + case_bool_decide as Hk.
      * split; [by left|by eauto].
      * split; [by intros [? ?]|]. intros [->|[? ?]]; done.
Qed.

Lemma rangeInto_dom f kvs :
  dom (rangeInto f kvs ∅) = list_to_set kvs.*1.
Proof.
  apply set_eq. intros k.
  rewrite elem_of_dom, rangeInto_lookup, elem_of_list_to_set, <- lastFor_Some.
  rewrite lookup_empty. destruct (lastFor k kvs); split; intros [? ?]; eauto;
    done.
Qed.

Lemma size_keys (kvs : list (string * AttributeValue)) :
  (size (list_to_set (C := gset string) kvs.*1) ≤ length kvs)%nat.
Proof.
  induction kvs as [|kv kvs IH]; [done|].
  change (size ({[kv.1]} ∪ list_to_set (C := gset string) kvs.*1)
          ≤ S (length kvs))%nat.
  rewrite size_union_alt, size_singleton.
  assert (size (list_to_set (C := gset string) kvs.*1 ∖ {[kv.1]})
          ≤ size (list_to_set (C := gset string) kvs.*1))%nat as Hs
    by (apply subseteq_size; set_solver).
  lia.
Qed.

(** X1: [attrsValue] gives nil exactly for the collection without entries.
    Otherwise it gives a map that is not empty: its keys are the keys of the
    collection, and under each key it holds the flattened value of the last
    entry with that key, so an earlier entry with the same key is lost. *)
Theorem attrsValue_lookup attrs :
  (attrsValue attrs = None ↔ attrs = [])
  ∧ ∀ m, attrsValue attrs = Some m →
      (∀ k, m !! k = attrValue <$> lastFor k attrs)
      ∧ dom m = list_to_set attrs.*1
      ∧ m ≠ ∅
      ∧ (size m ≤ length attrs)%nat.
Proof.
  unfold attrsValue. split.
  - case_bool_decide as Hl; [|split; [done|by intros ->]].
    split; [|done]. intros _. by destruct attrs.
  - intros m. case_bool_decide as Hl; [done|]. intros [= <-].
    split; [|split; [|split]].
    + intros k. rewrite rangeInto_lookup, lookup_empty.
      by destruct (lastFor k attrs).
    + apply rangeInto_dom.
    + apply rangeInto_nonempty. right. by intros ->.
    + rewrite <- size_dom, rangeInto_dom.
      apply size_keys.
Qed.

(** Of two attributes with one key the later is kept: the message has no
    NaN, and the record is translated. *)
Example later_attribute_wins :
  member "attributes"
    <$> converted (None,
                   {| pdata.Name := ""; pdata.Body := AVEmpty;
                      pdata.SeverityNumber := 0; pdata.SeverityText := "";
                      pdata.DroppedAttributesCount := 0; pdata.Flags := 0;
                      pdata.TraceID := []; pdata.SpanID := [];
                      pdata.Attributes := [("k", AVDouble PrimFloat.nan);
                                           ("k", AVInt 1)];
                      pdata.Timestamp := 0 |})
  = Some (Some (json.Object {[ "k" := json.Int 1 ]})).
Proof. vm_compute. reflexivity. Qed.

(** X2: a nested map flattens to a map, never to nil, also when it has no
    entry; its keys are the keys of the nested map, and under each key it
    holds the flattened value of the last entry with that key. *)
Theorem attrValue_map kvs :
  ∃ m, attrValue (AVMap kvs) = VMap m
    ∧ (∀ k, m !! k = attrValue <$> lastFor k kvs)
    ∧ dom m = list_to_set kvs.*1
    ∧ (kvs = [] → m = ∅)
    ∧ emptyInterface (attrValue (AVMap kvs)) = false.
Proof.
  exists (rangeInto attrValue kvs ∅). split; [done|]. split; [|split].
  - intros k. rewrite rangeInto_lookup, lookup_empty.
    by destruct (lastFor k kvs).
  - apply rangeInto_dom.
  - split; [by intros ->|done].
Qed.

(** ** The record translator, member by member *)

Lemma omitempty_value empty name j o :
  json.omitempty empty name (Ok j) o
  = Ok (if empty then o else <[name := j]> o).
Proof. by destruct empty. Qed.

Lemma omitempty_marshalValue name v o :
  json.omitempty (emptyInterface v) name (json.marshalValue v) o
  = if json.supported v
    then Ok (if emptyInterface v then o else <[name := json.encode v]> o)
    else Err UnsupportedValueError.
Proof.
  unfold json.omitempty, json.marshalValue.
  destruct (emptyInterface v) eqn:He.
  - by destruct v.
  - by destruct (json.supported v).
Qed.

Lemma emptyMap_supported m : emptyMap m = true → supportedMap m = true.
Proof.
  unfold emptyMap. destruct m as [m|]; [|done]. simpl.
  intros Hm%bool_decide_eq_true%map_size_empty_inv.
  subst m. by rewrite map_fold_empty.
Qed.

Lemma omitempty_marshalMap name m o :
  json.omitempty (emptyMap m) name (marshalMap m) o
  = if supportedMap m
    then Ok (if emptyMap m then o
             else match encodeMap m with
                  | Some j => <[name := j]> o
                  | None => o
                  end)
    else Err UnsupportedValueError.
Proof.
  unfold json.omitempty.
  destruct (emptyMap m) eqn:He.
  - by rewrite emptyMap_supported.
  - destruct m as [m|]; [|done].
    unfold marshalMap, supportedMap, encodeMap, json.marshalValue.
    by destruct (json.supported (VMap m)).
Qed.

Lemma lookup_put_ne (absent : bool) (name : string) (j : json.doc)
    (o : gmap string json.doc) (k : string) :
  k ≠ name → (if absent then o else <[name := j]> o) !! k = o !! k.
Proof. intros Hk. destruct absent; [done|]. by rewrite lookup_insert_ne. Qed.

Lemma lookup_put (absent : bool) (name : string) (j : json.doc)
    (o : gmap string json.doc) :
  (if absent then o else <[name := j]> o) !! name
  = if absent then o !! name else Some j.
Proof. destruct absent; [done|]. by rewrite lookup_insert_eq. Qed.

(** The message that [json.Marshal] gives for the body of a record. *)
Lemma json_Marshal_bodyOf res log :
  json_Marshal (bodyOf res log)
  = if translatable res log
    then
      let o := ∅ in
      let o := if emptyString (pdata.Name log) then o
               else <["name" := json.Str (pdata.Name log)]> o in
      let o := if emptyInterface (attrValue (pdata.Body log)) then o
               else <["body" := json.encode (attrValue (pdata.Body log))]> o in
      let o := if emptyInt (pdata.SeverityNumber log) then o
               else <["severity_number"
                      := json.Int (pdata.SeverityNumber log)]> o in
      let o := if emptyString (pdata.SeverityText log) then o
               else <["severity_text"
                      := json.Str (pdata.SeverityText log)]> o in
      let o := if emptyInt (pdata.DroppedAttributesCount log) then o
               else <["dropped_attributes_count"
                      := json.Int (pdata.DroppedAttributesCount log)]> o in
      let o := if emptyInt (pdata.Flags log) then o
               else <["flags" := json.Int (pdata.Flags log)]> o in
      let o := if emptyString (pdata.HexString (pdata.TraceID log)) then o
               else <["trace_id"
                      := json.Str (pdata.HexString (pdata.TraceID log))]> o in
      let o := if emptyString (pdata.HexString (pdata.SpanID log)) then o
               else <["span_id"
                      := json.Str (pdata.HexString (pdata.SpanID log))]> o in
      let o := if emptyMap (attrsValue (pdata.Attributes log)) then o
               else match encodeMap (attrsValue (pdata.Attributes log)) with
                    | Some j => <["attributes" := j]> o
                    | None => o
                    end in
      let o := if emptyMap res then o
               else match encodeMap res with
                    | Some j => <["resource" := j]> o
                    | None => o
                    end in
      Ok (json.Object o)
    else Err UnsupportedValueError.
Proof.
  unfold json_Marshal, translatable.
  destruct (bodyOf_fields res log) as (-> & -> & -> & -> & -> & -> & -> & ->
                                       & -> & ->).
  rewrite omitempty_value. simpl.
  rewrite omitempty_marshalValue.
  destruct (json.supported (attrValue (pdata.Body log))); [|done]. simpl.
  rewrite !omitempty_value. simpl. rewrite !omitempty_value. simpl.
  rewrite !omitempty_value. simpl. rewrite !omitempty_value. simpl.
  rewrite !omitempty_value. simpl. rewrite !omitempty_value. simpl.
  rewrite omitempty_marshalMap.
  destruct (supportedMap (attrsValue (pdata.Attributes log))); [|done]. simpl.
  rewrite omitempty_marshalMap.
  by destruct (supportedMap res).
Qed.

(** X3: [logToCWLog] fails exactly when the flattened body, the flattened
    attributes of the record or the attributes of its resource hold a NaN or
    an infinity, at any depth; the error is then the encoder's
    UnsupportedValueError and no event is built.  Nothing else makes it
    fail: any other record gives an event. *)
Theorem logToCWLog_refuses res log :
  (translatable res log = true ↔ ∃ ev, logToCWLog res log = Ok ev)
  ∧ (translatable res log = false
     ↔ logToCWLog res log = Err UnsupportedValueError)
  ∧ (∀ err, logToCWLog res log = Err err → err = UnsupportedValueError).
Proof.
  unfold logToCWLog. cbv zeta. rewrite json_Marshal_bodyOf.
  destruct (translatable res log); cbv zeta.
  - split; [split; [eauto|done]|]. split; [split; done|done].
  - split; [split; [done|by intros [? ?]]|].
    split; [done|]. by intros err [= <-].
Qed.

Lemma lookup_putMap_ne (m : option (gmap string value)) (name : string)
    (o : gmap string json.doc) (k : string) :
  k ≠ name →
  (if emptyMap m then o
   else match encodeMap m with
        | Some j => <[name := j]> o
        | None => o
        end) !! k = o !! k.
Proof.
  intros Hk. destruct (emptyMap m); [done|].
  destruct (encodeMap m); [|done]. by rewrite lookup_insert_ne.
Qed.

Lemma lookup_putMap (m : option (gmap string value)) (name : string)
    (o : gmap string json.doc) :
  (if emptyMap m then o
   else match encodeMap m with
        | Some j => <[name := j]> o
        | None => o
        end) !! name
  = if emptyMap m then o !! name else encodeMap m.
Proof.
  destruct (emptyMap m) eqn:He; [done|].
  destruct m as [m|]; [|done]. unfold encodeMap. simpl.
  by rewrite lookup_insert_eq.
Qed.

Lemma emptyMap_attrsValue attrs :
  emptyMap (attrsValue attrs) = true → attrsValue attrs = None.
Proof.
  intros He%bool_decide_eq_true%attrsValue_len.
  unfold attrsValue. by rewrite bool_decide_eq_true_2.
Qed.

(** X4: the value of each member of the message.  The name, the severity
    text, the severity number, the dropped attribute count and the flags
    are those of the record; the body is the flattened body; the trace id
    and the span id are the hexadecimal strings of the ids; the attributes
    are the flattened attributes of the record and the resource those of
    its resource.  A member is there exactly when its field is not empty:
    a string not of length 0, a number not 0, ids not all zero, a body that
    is not of the empty type, attributes with an entry. *)
Theorem logToCWLog_members res log ev :
  logToCWLog res log = Ok ev →
  member "name" ev
  = (if emptyString (pdata.Name log) then None
     else Some (json.Str (pdata.Name log)))
  ∧ member "body" ev
    = (if bodyPresent (pdata.Body log)
       then Some (json.encode (attrValue (pdata.Body log))) else None)
  ∧ member "severity_number" ev
    = (if emptyInt (pdata.SeverityNumber log) then None
       else Some (json.Int (pdata.SeverityNumber log)))
  ∧ member "severity_text" ev
    = (if emptyString (pdata.SeverityText log) then None
       else Some (json.Str (pdata.SeverityText log)))
  ∧ member "dropped_attributes_count" ev
    = (if emptyInt (pdata.DroppedAttributesCount log) then None
       else Some (json.Int (pdata.DroppedAttributesCount log)))
  ∧ member "flags" ev
    = (if emptyInt (pdata.Flags log) then None
       else Some (json.Int (pdata.Flags log)))
  ∧ member "trace_id" ev
    = (if pdata.IsEmpty (pdata.TraceID log) then None
       else Some (json.Str (pdata.HexString (pdata.TraceID log))))
  ∧ member "span_id" ev
    = (if pdata.IsEmpty (pdata.SpanID log) then None
       else Some (json.Str (pdata.HexString (pdata.SpanID log))))
  ∧ member "attributes" ev = encodeMap (attrsValue (pdata.Attributes log))
  ∧ member "resource" ev = (if emptyMap res then None else encodeMap res).
Proof.
  intros H. unfold logToCWLog in H. cbv zeta in H.
  rewrite json_Marshal_bodyOf in H.
  destruct (translatable res log); [|done]. cbv zeta in H.
  injection H as <-. unfold member. cbn [cloudwatchlogs.Message].
  rewrite !HexString_empty, attrValue_nil.
  repeat split;
    rewrite ?lookup_putMap_ne, ?lookup_put_ne by done;
    rewrite ?lookup_putMap, ?lookup_put;
    rewrite ?lookup_putMap_ne, ?lookup_put_ne by done;
    rewrite ?lookup_empty; try done.
  - by destruct (bodyPresent (pdata.Body log)).
  - destruct (emptyMap (attrsValue (pdata.Attributes log))) eqn:He; [|done].
    by rewrite emptyMap_attrsValue.
Qed.

Lemma logToCWLog_members_witness :
  ∃ ev, logToCWLog None Sample.named = Ok ev
    ∧ member "name" ev = Some (json.Str "n").
Proof.
  eexists. split; [reflexivity|].
  exact (proj1 (logToCWLog_members None Sample.named _ eq_refl)).
Defined.

(** A record with a trace id, a span id of zeros and an attribute without
    value, in a resource with one attribute: the members of its message. *)
Example members_of_named :
  (fun ev => (member "trace_id" ev, member "span_id" ev, member "body" ev,
              member "attributes" ev, member "resource" ev))
    <$> converted (Some {[ "host" := VString "a" ]}, Sample.named)
  = Some (Some (json.Str "0001"), None, Some (json.Int 0),
          Some (json.Object {[ "k" := json.Null ]}),
          Some (json.Object {[ "host" := json.Str "a" ]})).
Proof. vm_compute. reflexivity. Qed.

(** ** The time of an event *)

(** X5: for a record whose timestamp is a [uint64], the timestamp of the
    event lies between -9223372036854 and 9223372036854 ms; it is not
    negative exactly for the timestamps below 2^63 ns, where it does not
    decrease when the timestamp of the record grows; from 2^63 ns on it is
    never positive. *)
Theorem logToCWLog_Timestamp_range res log ev :
  0 ≤ pdata.Timestamp log < 2 ^ 64 →
  logToCWLog res log = Ok ev →
  (-9223372036854 ≤ cloudwatchlogs.Timestamp ev ≤ 9223372036854)%Z
  ∧ (pdata.Timestamp log < 2 ^ 63 → 0 ≤ cloudwatchlogs.Timestamp ev)%Z
  ∧ (2 ^ 63 ≤ pdata.Timestamp log → cloudwatchlogs.Timestamp ev ≤ 0)%Z
  ∧ ∀ res' log' ev',
      logToCWLog res' log' = Ok ev' →
      (pdata.Timestamp log ≤ pdata.Timestamp log' < 2 ^ 63)%Z →
      (cloudwatchlogs.Timestamp ev ≤ cloudwatchlogs.Timestamp ev')%Z.
Proof.
  intros Hr [_ Ht]%logToCWLog_Ok. rewrite Ht.
  unfold time_Millisecond.
  assert (Hi : (- 2 ^ 63 ≤ int64 (pdata.Timestamp log) < 2 ^ 63)%Z).
  { unfold int64.
    pose proof (Z.mod_pos_bound (pdata.Timestamp log + 2 ^ 63) (2 ^ 64)
                  ltac:(lia)). lia. }
  assert (Hlow : ∀ u, 0 ≤ u < 2 ^ 63 → int64 u = u).
  { intros u Hu. unfold int64. rewrite Z.mod_small; lia. }
  assert (Hhigh : ∀ u, 2 ^ 63 ≤ u < 2 ^ 64 → int64 u = u - 2 ^ 64).
  { intros u Hu. unfold int64.
    replace (u + 2 ^ 63) with (u - 2 ^ 63 + 1 * 2 ^ 64) by lia.
    rewrite Z.mod_add by lia. rewrite Z.mod_small; lia. }
  split; [|split; [|split]].
  - pose proof (Z.quot_le_mono (- 2 ^ 63) (int64 (pdata.Timestamp log)) 1000000
                  ltac:(lia) ltac:(lia)) as H1.
    pose proof (Z.quot_le_mono (int64 (pdata.Timestamp log)) (2 ^ 63 - 1) 1000000
                  ltac:(lia) ltac:(lia)) as H2.
    change (- 2 ^ 63 ÷ 1000000) with (-9223372036854) in H1.
    change ((2 ^ 63 - 1) ÷ 1000000) with 9223372036854 in H2. lia.
  - intros Hlt. rewrite Hlow by lia. apply Z.quot_pos; lia.
  - intros Hge. rewrite Hhigh by lia.
    pose proof (Z.quot_le_mono (pdata.Timestamp log - 2 ^ 64) 0 1000000
                  ltac:(lia) ltac:(lia)) as H1.
    by rewrite Z.quot_0_l in H1.
  - intros res' log' ev' [_ Ht']%logToCWLog_Ok Hle. rewrite Ht'.
    unfold time_Millisecond. rewrite !Hlow by lia.
    apply Z.quot_le_mono; lia.
Qed.

Lemma logToCWLog_Timestamp_range_witness :
  ∃ ev, logToCWLog None (Sample.record AVEmpty (2 ^ 63)) = Ok ev
    ∧ (-9223372036854 ≤ cloudwatchlogs.Timestamp ev ≤ 9223372036854)%Z.
Proof.
  eexists. split; [reflexivity|].
  refine (proj1 (logToCWLog_Timestamp_range None
                   (Sample.record AVEmpty (2 ^ 63)) _ _ eq_refl)).
  simpl. lia.
Defined.

(** The first timestamp that wraps, 2^63 ns, gives the least event time. *)
Example timestamp_2_63 :
  cloudwatchlogs.Timestamp <$> logToCWLog_event (Sample.record AVEmpty (2 ^ 63))
  = Some (-9223372036854).
Proof. vm_compute. reflexivity. Qed.

(** ** The batch walk, record by record *)

Lemma elem_of_recordsOf r ld :
  r ∈ recordsOf ld
  ↔ ∃ rl ils log,
      rl ∈ ld ∧ ils ∈ pdata.rl_InstrumentationLibraryLogs rl
      ∧ log ∈ pdata.ils_Logs ils
      ∧ r = (attrsValue (pdata.rl_Resource rl), log).
Proof.
  unfold recordsOf, scopeRecords. rewrite list_elem_of_bind. split.
  - intros (rl & (ils & (log & -> & Hlog)%list_elem_of_fmap & Hils)%list_elem_of_bind
            & Hrl).
    by exists rl, ils, log.
  - intros (rl & ils & log & Hrl & Hils & Hlog & ->).
    exists rl. split; [|done]. apply list_elem_of_bind. exists ils.
    split; [|done]. apply list_elem_of_fmap. by exists log.
Qed.

(** X6: the events that [logsToCWLogs] returns are the translations of the
    records of the batch and nothing else: an event is returned exactly
    when some record of some scope of some resource of the batch translates
    to it, with the flattened attributes of that same resource.  The logger
    plays no part in what is returned, and the path of an empty batch gives
    what the loops would. *)
Theorem logsToCWLogs_events lg ld ev :
  (ev ∈ (logsToCWLogs lg ld).1.1
   ↔ ∃ i j k rl ils log,
       ld !! i = Some rl
       ∧ pdata.rl_InstrumentationLibraryLogs rl !! j = Some ils
       ∧ pdata.ils_Logs ils !! k = Some log
       ∧ logToCWLog (attrsValue (pdata.rl_Resource rl)) log = Ok ev)
  ∧ (logsToCWLogs lg ld).1 = (logsToCWLogs [] ld).1
  ∧ logsToCWLogs lg ld = foldl convertResource ([], 0, lg) ld.
Proof.
  split; [|split].
  - rewrite logsToCWLogs_spec. cbn [fst]. rewrite list_elem_of_omap. split.
    + intros (r & (rl & ils & log & Hrl & Hils & Hlog & ->)%elem_of_recordsOf
              & Hc).
      apply list_elem_of_lookup in Hrl as [i Hi].
      apply list_elem_of_lookup in Hils as [j Hj].
      apply list_elem_of_lookup in Hlog as [k Hk].
      exists i, j, k, rl, ils, log. repeat split; try done.
      unfold converted in Hc. simpl in Hc.
      destruct (logToCWLog _ log); by simplify_eq.
    + intros (i & j & k & rl & ils & log & Hi & Hj & Hk & Hev).
      exists (attrsValue (pdata.rl_Resource rl), log). split.
      * apply elem_of_recordsOf. exists rl, ils, log.
        repeat split; try done; by eapply list_elem_of_lookup_2.
      * unfold converted. simpl. by rewrite Hev.
  - by rewrite !logsToCWLogs_spec.
  - unfold logsToCWLogs. cbv zeta. case_bool_decide as Hn; [|done].
    apply length_zero_iff_nil in Hn. by subst ld.
Qed.

(** X7: translating two batches one after the other gives what translating
    their concatenation gives: the events of the first followed by those of
    the second, the sum of the numbers of records dropped, and the lines of
    the first followed by those of the second.  The lines already written
    are kept, and each dropped record adds one line. *)
Theorem logsToCWLogs_app lg ld1 ld2 :
  let w1 := logsToCWLogs lg ld1 in
  let w2 := logsToCWLogs w1.2 ld2 in
  logsToCWLogs lg (ld1 ++ ld2) = (w1.1.1 ++ w2.1.1, w1.1.2 + w2.1.2, w2.2)
  ∧ (∃ lines, w1.2 = lg ++ lines ∧ Z.of_nat (length lines) = w1.1.2)
  ∧ (0 ≤ w1.1.2)%Z
  ∧ (Z.of_nat (length w1.1.1) + w1.1.2
     = Z.of_nat (length (recordsOf ld1))).
Proof.
  intros w1 w2. subst w1 w2. rewrite !logsToCWLogs_spec. cbn [fst snd].
  rewrite recordsOf_app, !omap_app, fmap_app, length_app, app_assoc.
  split; [by rewrite Nat2Z.inj_add|]. split.
  - eexists. split; [done|]. by rewrite length_fmap.
  - split; [lia|].
    pose proof (converted_or_refused (recordsOf ld1)). lia.
Qed.

(** ** One export, call by call *)

Section Traces.

Context {P : Type} `{!Pusher P}.
Variable NewPusher : string → string → Z → P.
Variable time_Now : nat → Z.

Implicit Types (st : state P) (p : nat) (cs : list Call) (obj : P).

Lemma addLogEntry_object p ev st obj :
  pushers st !! p = Some obj →
  addLogEntry p ev st
  = ((AddLogEntry ev obj).1,
     record (AddLogEntryCall p ev (AddLogEntry ev obj).1)
       (with_pushers (<[p := (AddLogEntry ev obj).2]>) st)).
Proof.
  intros Hp. unfold addLogEntry. rewrite Hp.
  by destruct (AddLogEntry ev obj).
Qed.

Lemma forceFlush_object p st obj :
  pushers st !! p = Some obj →
  forceFlush p st
  = ((ForceFlush obj).1,
     record (ForceFlushCall p (ForceFlush obj).1)
       (with_pushers (<[p := (ForceFlush obj).2]>) st)).
Proof.
  intros Hp. unfold forceFlush. rewrite Hp.
  by destruct (ForceFlush obj).
Qed.

Lemma pushOne_object p n logEvent st obj :
  pushers st !! p = Some obj →
  let ev := {| cwlogs.InputLogEvent := logEvent;
               cwlogs.GeneratedTime := time_Now (ticks st) |} in
  let r := AddLogEntry ev obj in
  uses p [AddLogEntryCall p ev r.1] (turnLines n ev r.1) 1
    st (pushOne time_Now p n logEvent st).2
  ∧ pushers (pushOne time_Now p n logEvent st).2 !! p = Some r.2.
Proof.
  intros Hp ev r.
  destruct (pushOne_uses time_Now p n logEvent st) as (err & Hu).
  fold ev in Hu.
  assert (calls (pushOne time_Now p n logEvent st).2
          = calls st ++ [AddLogEntryCall p ev r.1]
          ∧ pushers (pushOne time_Now p n logEvent st).2 !! p = Some r.2)
    as [Hc Ho].
  { unfold pushOne, mbind, M_bind, now, logDebug. simpl. fold ev.
    rewrite (addLogEntry_object p ev _ obj) by exact Hp. fold r.
    destruct r.1 as [e|]; simpl;
      (split; [done|]); apply list_lookup_insert_eq;
      by apply lookup_lt_Some in Hp. }
  destruct Hu as (Us & Um & Uc & Ul & Ut & Un & Uo).
  rewrite Hc in Uc. apply app_inv_head in Uc. injection Uc as Herr.
  rewrite <- Herr in Ul.
  split; [|done]. unfold uses. by rewrite Hc.
Qed.

Lemma pushAll_exact p n logEvents : ∀ st obj,
  pushers st !! p = Some obj →
  let evs := stamped time_Now (ticks st) logEvents in
  let r := feed evs obj in
  uses p (addCalls p evs r.1) (addLines n evs r.1) (length logEvents)
    st (pushAll time_Now p n logEvents st).2
  ∧ pushers (pushAll time_Now p n logEvents st).2 !! p = Some r.2
  ∧ length r.1 = length logEvents
  ∧ length evs = length logEvents.
Proof.
  induction logEvents as [|logEvent rest IH]; intros st obj Hp.
  - simpl. split; [apply uses_refl|done].
  - rewrite pushAll_cons.
    destruct (pushOne_object p n logEvent st obj Hp) as (H1 & Ho).
    destruct (IH _ _ Ho) as (H2 & Ho' & Hl & Hl').
    assert (Ht : ticks (pushOne time_Now p n logEvent st).2 = S (ticks st)).
    { destruct H1 as (_ & _ & _ & _ & -> & _). lia. }
    rewrite Ht in H2, Ho', Hl, Hl'.
    cbn [stamped feed fst snd length]. cbv zeta. cbn [fst snd].
    split; [|split; [done|split; [by rewrite Hl|by rewrite Hl']]].
    exact (uses_trans _ _ _ _ _ _ _ _ _ _ H1 H2).
Qed.

Lemma set_seqTokenMu_back e :
  seqTokenMu e = false → set_seqTokenMu false (set_seqTokenMu true e) = e.
Proof. destruct e as [c r i m reg]. simpl. by intros ->. Qed.

(** What [PushLogs] does to a state whose registry is sound. *)
Lemma PushLogs_exact ld st :
  sound st → seqTokenMu (self st) = false →
  let exp := config (self st) in
  let got := getLogPusher NewPusher (LogGroupName exp) (LogStreamName exp) st in
  let p := got.1 in
  let evs := stamped time_Now (ticks st) (omap converted (recordsOf ld)) in
  ∃ obj err st',
    PushLogs NewPusher time_Now ld st = Some (err, st')
    ∧ pushers got.2 !! p = Some obj
    ∧ self st' = self got.2
    ∧ streamMaps st' = streamMaps got.2
    ∧ ticks st' = (ticks st + length evs)%nat
    ∧ length (pushers st') = length (pushers got.2)
    ∧ (∀ q, q ≠ p → pushers st' !! q = pushers got.2 !! q)
    ∧ if bool_decide (evs = []) then
        err = None
        ∧ calls st' = calls got.2
        ∧ logger st' = logger st ++ (dropLine <$> omap refused (recordsOf ld))
        ∧ pushers st' = pushers got.2
      else
        let r := feed evs obj in
        err = (ForceFlush r.2).1
        ∧ calls st' = calls got.2 ++ addCalls p evs r.1 ++ [ForceFlushCall p err]
        ∧ logger st'
          = logger st ++ (dropLine <$> omap refused (recordsOf ld))
            ++ exportLines evs r.1 err
        ∧ pushers st' !! p = Some (ForceFlush r.2).2.
Proof.
  intros Hs Hmu exp got p evs. unfold PushLogs. rewrite Hmu.
  set (st0 := with_self (set_seqTokenMu true) st).
  rewrite pushLogsLocked_eq. cbv zeta.
  change (config (self st0)) with exp.
  pose proof (getLogPusher_mutex NewPusher true (LogGroupName exp)
                (LogStreamName exp) st) as Hgm.
  fold st0 in Hgm. fold got in Hgm. rewrite Hgm. cbn [fst snd]. fold p.
  destruct (getLogPusher_spec NewPusher (LogGroupName exp) (LogStreamName exp)
              st Hs) as (Hs1 & Hreg & _).
  fold got in Hs1, Hreg.
  assert (Hp : (p < length (pushers got.2))%nat).
  { destruct Hs1 as (_ & _ & W3 & _).
    apply (W3 (LogGroupName exp) (LogStreamName exp)).
    rewrite Hreg. by rewrite bool_decide_eq_true_2. }
  destruct (lookup_lt_is_Some_2 _ _ Hp) as [obj Hobj].
  destruct (getLogPusher_touch NewPusher (LogGroupName exp) (LogStreamName exp) st)
    as (Tl & Tt & _ & _ & Tm & _).
  fold got in Tl, Tt, Tm. rewrite Hmu in Tm.
  rewrite logsToCWLogs_spec. cbn [fst snd].
  assert (Hlen : length evs = length (omap converted (recordsOf ld))).
  { clear. unfold evs. generalize (ticks st).
    induction (omap converted (recordsOf ld)) as [|e l IH]; intros t; [done|].
    simpl. by rewrite IH. }
  set (st1 := with_self (set_seqTokenMu true) got.2).
  set (st2 := with_logger _ st1).
  exists obj.
  case_bool_decide as Hn.
  - apply length_zero_iff_nil in Hn.
    assert (Hev : evs = []) by (unfold evs; by rewrite Hn).
    rewrite bool_decide_eq_true_2 by done.
    eexists _, _. split; [reflexivity|]. split; [done|].
    rewrite Hev. simpl. rewrite Nat.add_0_r, Tl, Tt.
    split; [by apply set_seqTokenMu_back|]. by repeat split.
  - assert (Hev : evs ≠ []).
    { intros Hev. rewrite Hev in Hlen. by rewrite <- Hlen in Hn. }
    rewrite bool_decide_eq_false_2 by done.
    set (st3 := with_logger _ st2).
    destruct (pushAll_exact p (length (omap converted (recordsOf ld)))
                (omap converted (recordsOf ld)) st3 obj Hobj)
      as (H34 & Ho4 & Hl4 & _).
    change (ticks st3) with (ticks got.2) in H34, Ho4, Hl4.
    rewrite Tt in H34, Ho4, Hl4. fold evs in H34, Ho4, Hl4.
    set (st4 := (pushAll time_Now p _ _ st3).2) in *.
    set (st5 := with_logger _ st4).
    set (r := feed evs obj) in *.
    rewrite (forceFlush_object p st5 r.2) by exact Ho4. cbn [fst snd].
    destruct H34 as (Us & Um & Uc & Ul & Ut & Un & Uo).
    simpl in Us, Um, Uc, Ul, Ut, Un, Uo.
    assert (Hq : (p < length (pushers st4))%nat) by (by apply lookup_lt_Some in Ho4).
    unfold exportLines. rewrite Hlen.
    destruct (ForceFlush r.2) as [[e|] obj'] eqn:Hff; cbn [fst snd];
      eexists _, _; (split; [reflexivity|]); (split; [done|]); simpl;
      rewrite Us, Um, Uc, Ul, Ut, Tl, Tt, length_insert, Un;
      (split; [by apply set_seqTokenMu_back|]);
      (split; [done|]); (split; [lia|]); (split; [done|]);
      (split; [by intros q Hne; rewrite list_lookup_insert_ne, Uo|]);
      (split; [done|]); (split; [by rewrite <- app_assoc|]);
      (split; [unfold zap.Error_, zap.Debug, zap.Info, zap.write;
               by rewrite <- !app_assoc|]);
      by rewrite list_lookup_insert_eq.
Qed.

Lemma addCalls_target p evs errs c : c ∈ addCalls p evs errs → target c = p.
Proof.
  unfold addCalls. intros (ev & err & -> & _)%elem_of_zip_with. done.
Qed.

(** What a call of [PushLogs] that returns leaves of the exporter. *)
Lemma PushLogs_frame ld st err st' :
  sound st → PushLogs NewPusher time_Now ld st = Some (err, st') →
  let exp := config (self st) in
  let got := getLogPusher NewPusher (LogGroupName exp) (LogStreamName exp) st in
  self st' = self got.2
  ∧ streamMaps st' = streamMaps got.2
  ∧ length (pushers st') = length (pushers got.2)
  ∧ ∃ delta, calls st' = calls got.2 ++ delta ∧ ∀ c, c ∈ delta → target c = got.1.
Proof.
  intros Hs HP exp got.
  destruct (seqTokenMu (self st)) eqn:Hmu.
  { unfold PushLogs in HP. by rewrite Hmu in HP. }
  destruct (PushLogs_exact ld st Hs Hmu)
    as (obj & err0 & st0 & HP0 & _ & H1 & H2 & _ & H3 & _ & H4).
  rewrite HP in HP0. injection HP0 as <- <-.
  fold exp in H1, H2, H3, H4. fold got in H1, H2, H3, H4.
  split; [done|]. split; [done|]. split; [done|].
  destruct (bool_decide _).
  - destruct H4 as (_ & Hc & _). exists []. rewrite app_nil_r.
    split; [done|]. by intros c ?%elem_of_nil.
  - cbv zeta in H4. destruct H4 as (_ & Hc & _). eexists. split; [exact Hc|].
    intros c [Hin|Hin%list_elem_of_singleton]%elem_of_app.
    + by apply addCalls_target in Hin.
    + by subst c.
Qed.

Lemma forceFlush_mutex b p st :
  forceFlush p (with_self (set_seqTokenMu b) st)
  = ((forceFlush p st).1, with_self (set_seqTokenMu b) (forceFlush p st).2).
Proof.
  unfold forceFlush. simpl. destruct (pushers st !! p) as [obj|]; [|done].
  by destruct (ForceFlush obj).
Qed.

(** What a call of [Shutdown] leaves of the exporter. *)
Lemma Shutdown_frame st :
  let exp := config (self st) in
  let got := getLogPusher NewPusher (LogGroupName exp) (LogStreamName exp) st in
  let st' := (Shutdown NewPusher st).2 in
  self st' = self got.2
  ∧ streamMaps st' = streamMaps got.2
  ∧ length (pushers st') = length (pushers got.2)
  ∧ logger st' = logger st
  ∧ ticks st' = ticks st
  ∧ ∃ r, calls st' = calls got.2 ++ [ForceFlushCall got.1 r].
Proof.
  intros exp got st'. subst st'. rewrite Shutdown_eq. cbv zeta. cbn [snd].
  fold exp. fold got.
  destruct (forceFlush_uses got.1 got.2) as (Us & Um & Uc & Ul & Ut & Un & _).
  destruct (getLogPusher_touch NewPusher (LogGroupName exp) (LogStreamName exp) st)
    as (Tl & Tt & _).
  fold got in Tl, Tt.
  rewrite Us, Um, Uc, Ul, Ut, Un, Tl, Tt, app_nil_r, Nat.add_0_r.
  repeat split; try done. by eexists.
Qed.

Lemma getLogPusher_tight g s st :
  sound st → tight st → tight (getLogPusher NewPusher g s st).2.
Proof.
  intros Hs [Hinj Hall].
  destruct (getLogPusher_spec NewPusher g s st Hs) as (Hs1 & Hreg & Hm).
  pose proof Hs as (_ & _ & W3 & _).
  destruct (registered st g s) as [q|] eqn:Hq.
  { rewrite Hm. by split. }
  destruct Hm as (Hp & _ & Hps).
  set (r := getLogPusher NewPusher g s st) in *. split.
  - intros g1 s1 g2 s2 p. rewrite !Hreg.
    repeat case_bool_decide; intros H1 H2; simplify_eq.
    + by destruct_and!; subst.
    + apply W3 in H2. lia.
    + apply W3 in H1. lia.
    + by eapply Hinj.
  - intros p. rewrite Hps, length_app. simpl. intros Hlt.
    destruct (decide (p < length (pushers st))%nat) as [Hlt'|].
    + destruct (Hall p Hlt') as (g0 & s0 & H0). exists g0, s0.
      rewrite Hreg. case_bool_decide as Hk; [|done].
      destruct Hk as [-> ->]. by rewrite Hq in H0.
    + exists g, s. rewrite Hreg, bool_decide_eq_true_2 by done.
      f_equal. lia.
Qed.

Lemma tight_frame st st' :
  self st' = self st → streamMaps st' = streamMaps st →
  length (pushers st') = length (pushers st) →
  tight st → tight st'.
Proof.
  intros H1 H2 H3 [Hinj Hall].
  assert (Hreg : ∀ g s, registered st' g s = registered st g s).
  { apply registered_eq; [by rewrite H1|done]. }
  split.
  - intros g s g' s' p. rewrite !Hreg. apply Hinj.
  - intros p. rewrite H3. intros Hlt. destruct (Hall p Hlt) as (g & s & H).
    exists g, s. by rewrite Hreg.
Qed.

Lemma perform_more st o :
  sound st → seqTokenMu (self st) = false → tight st →
  let st' := perform NewPusher time_Now st o in
  tight st' ∧ retryCount (self st') = retryCount (self st).
Proof.
  intros Hs Hmu Ht. destruct o as [ld| |g s]; unfold perform; cbv zeta.
  - destruct (PushLogs NewPusher time_Now ld st) as [[err st']|] eqn:HP;
      [|done].
    destruct (PushLogs_frame ld st err st' Hs HP) as (H1 & H2 & H3 & _).
    set (exp := config (self st)) in *.
    destruct (getLogPusher_touch NewPusher (LogGroupName exp)
                (LogStreamName exp) st) as (_ & _ & _ & Tr & _).
    split; [|by rewrite H1].
    eapply tight_frame; [exact H1|exact H2|exact H3|].
    by apply getLogPusher_tight.
  - destruct (Shutdown_frame st) as (H1 & H2 & H3 & _).
    set (exp := config (self st)) in *.
    destruct (getLogPusher_touch NewPusher (LogGroupName exp)
                (LogStreamName exp) st) as (_ & _ & _ & Tr & _).
    split; [|by rewrite H1].
    eapply tight_frame; [exact H1|exact H2|exact H3|].
    by apply getLogPusher_tight.
  - destruct (getLogPusher_touch NewPusher g s st) as (_ & _ & _ & Tr & _).
    split; [by apply getLogPusher_tight|done].
Qed.

Lemma performAll_more os : ∀ st,
  sound st → seqTokenMu (self st) = false → tight st →
  let st' := performAll NewPusher time_Now os st in
  sound st' ∧ seqTokenMu (self st') = false ∧ tight st'
  ∧ config (self st') = config (self st)
  ∧ retryCount (self st') = retryCount (self st).
Proof.
  induction os as [|o os IH]; intros st Hs Hmu Ht; [done|].
  destruct (perform_keeps NewPusher time_Now st o Hs Hmu) as (H1 & H2 & H3 & _).
  destruct (perform_more st o Hs Hmu Ht) as (H4 & H5).
  destruct (IH _ H1 H2 H4) as (I1 & I2 & I3 & I4 & I5).
  change (performAll NewPusher time_Now (o :: os) st)
    with (performAll NewPusher time_Now os (perform NewPusher time_Now st o)).
  cbv zeta. split; [done|]. split; [done|]. split; [done|].
  split; [by rewrite I4|by rewrite I5].
Qed.

Lemma tight_newExporter cfg maxRetries id :
  tight (newExporter (P := P) cfg maxRetries id).
Proof.
  split.
  - intros g s g' s' p H. by vm_compute in H.
  - intros p Hp. simpl in Hp. lia.
Qed.

(** A state that calls of the exporter reach from the one just built. *)
Lemma reached os cfg maxRetries id :
  let st := performAll NewPusher time_Now os (newExporter cfg maxRetries id) in
  sound st ∧ seqTokenMu (self st) = false ∧ tight st
  ∧ config (self st) = cfg ∧ retryCount (self st) = maxRetries.
Proof.
  exact (performAll_more os _ (sound_newExporter cfg maxRetries id)
           eq_refl (tight_newExporter cfg maxRetries id)).
Qed.

(** X8: a call of [PushLogs], whatever calls the exporter has served
    before.  The Pusher of the configured group and stream gets the events
    of the batch in order, each in one [AddLogEntry] with the time of one
    more reading of the clock, and then one [ForceFlush], whether or not an
    [AddLogEntry] failed; what [PushLogs] returns is what that [ForceFlush]
    returned.  No other call is made after the Pusher is resolved; the
    clock is read once per event; with no event to send nothing is called
    and nil is returned.  Every other Pusher object, the fields of the
    exporter and its registry are as resolving the Pusher left them, the
    mutex free. *)
Theorem PushLogs_trace cfg maxRetries id os ld :
  let st := performAll NewPusher time_Now os (newExporter cfg maxRetries id) in
  let got := getLogPusher NewPusher (LogGroupName cfg) (LogStreamName cfg) st in
  let p := got.1 in
  let evs := stamped time_Now (ticks st) (omap converted (recordsOf ld)) in
  ∃ obj err st',
    PushLogs NewPusher time_Now ld st = Some (err, st')
    ∧ pushers got.2 !! p = Some obj
    ∧ registered st' (LogGroupName cfg) (LogStreamName cfg) = Some p
    ∧ self st' = self got.2
    ∧ streamMaps st' = streamMaps got.2
    ∧ seqTokenMu (self st') = false
    ∧ ticks st' = (ticks st + length evs)%nat
    ∧ (∀ q, q ≠ p → pushers st' !! q = pushers got.2 !! q)
    ∧ if bool_decide (evs = []) then
        err = None ∧ calls st' = calls got.2 ∧ pushers st' = pushers got.2
      else
        let r := feed evs obj in
        err = (ForceFlush r.2).1
        ∧ calls st' = calls got.2 ++ addCalls p evs r.1 ++ [ForceFlushCall p err]
        ∧ length r.1 = length evs
        ∧ pushers st' !! p = Some (ForceFlush r.2).2.
Proof.
  intros st got p evs.
  destruct (reached os cfg maxRetries id) as (Hs & Hmu & _ & Hcfg & _).
  fold st in Hs, Hmu, Hcfg.
  pose proof (PushLogs_exact ld st Hs Hmu) as H. cbv zeta in H.
  rewrite Hcfg in H. fold got in H. fold p in H. fold evs in H.
  destruct H as (obj & err & st' & HP & Ho & H1 & H2 & H3 & H4 & H5 & H6).
  destruct (getLogPusher_spec NewPusher (LogGroupName cfg) (LogStreamName cfg)
              st Hs) as (_ & Hreg & _).
  fold got in Hreg.
  destruct (getLogPusher_touch NewPusher (LogGroupName cfg) (LogStreamName cfg) st)
    as (_ & _ & _ & _ & Tm & _).
  fold got in Tm.
  exists obj, err, st'. split; [done|]. split; [done|]. split.
  { rewrite (registered_eq got.2 st' ltac:(by rewrite H1) H2), Hreg.
    by rewrite bool_decide_eq_true_2. }
  split; [done|]. split; [done|]. split; [by rewrite H1, Tm|].
  split; [done|]. split; [done|].
  destruct (bool_decide (evs = [])).
  - by destruct H6 as (? & ? & _ & ?).
  - cbv zeta in *. destruct H6 as (? & ? & _ & ?).
    repeat split; try done.
    clear. generalize obj. induction evs as [|ev l IH]; intros o; [done|].
    simpl. by rewrite IH.
Qed.

(** X9: the lines that a call of [PushLogs] writes, whatever calls the
    exporter has served before: one debug line per record dropped in
    translation; then, when there is an event to send, the number of
    events, one debug line per event with the event as it is handed to the
    Pusher, followed by an error line when its [AddLogEntry] failed, the
    debug line that the events are put, which is written also when an
    [AddLogEntry] failed, and an error line with the error when
    [ForceFlush] failed.  With no event to send only the lines of the
    dropped records are written. *)
Theorem PushLogs_lines cfg maxRetries id os ld :
  let st := performAll NewPusher time_Now os (newExporter cfg maxRetries id) in
  let got := getLogPusher NewPusher (LogGroupName cfg) (LogStreamName cfg) st in
  let evs := stamped time_Now (ticks st) (omap converted (recordsOf ld)) in
  ∃ obj err st',
    PushLogs NewPusher time_Now ld st = Some (err, st')
    ∧ pushers got.2 !! got.1 = Some obj
    ∧ logger st'
      = logger st ++ (dropLine <$> omap refused (recordsOf ld))
        ++ (if bool_decide (evs = []) then []
            else exportLines evs (feed evs obj).1 err).
Proof.
  intros st got evs.
  destruct (reached os cfg maxRetries id) as (Hs & Hmu & _ & Hcfg & _).
  fold st in Hs, Hmu, Hcfg.
  pose proof (PushLogs_exact ld st Hs Hmu) as H. cbv zeta in H.
  rewrite Hcfg in H. fold got in H. fold evs in H.
  destruct H as (obj & err & st' & HP & Ho & _ & _ & _ & _ & _ & H6).
  exists obj, err, st'. split; [done|]. split; [done|].
  destruct (bool_decide (evs = [])).
  - destruct H6 as (_ & _ & -> & _). by rewrite app_nil_r.
  - cbv zeta in H6. by destruct H6 as (_ & _ & -> & _).
Qed.

(** X10: whatever calls an exporter has served, its registry pairs keys
    and Pusher objects one to one: two different pairs of group and stream
    never hold the same Pusher, every Pusher that a key holds exists, and
    every Pusher object that was built is held by some key. *)
Theorem registry_one_to_one cfg maxRetries id os :
  let st := performAll NewPusher time_Now os (newExporter cfg maxRetries id) in
  (∀ g s g' s' p,
     registered st g s = Some p → registered st g' s' = Some p →
     g = g' ∧ s = s')
  ∧ (∀ g s p, registered st g s = Some p → (p < length (pushers st))%nat)
  ∧ (∀ p, (p < length (pushers st))%nat → ∃ g s, registered st g s = Some p).
Proof.
  intros st.
  destruct (reached os cfg maxRetries id)
    as ((_ & _ & W3 & _) & _ & (Hinj & Hall) & _).
  split; [exact Hinj|]. split; [exact W3|exact Hall].
Qed.

(** X11: resolving a key that holds no Pusher yet, whatever calls the
    exporter has served: [NewPusher] is called once, with the group, the
    stream and the retry count that the exporter was built with; the new
    object gets the next address and the key holds it from then on; every
    other key and every older object is as before, no line is written and
    the clock is not read. *)
Theorem getLogPusher_fresh cfg maxRetries id os g s :
  let st := performAll NewPusher time_Now os (newExporter cfg maxRetries id) in
  registered st g s = None →
  let r := getLogPusher NewPusher g s st in
  r.1 = length (pushers st)
  ∧ pushers r.2 = pushers st ++ [NewPusher g s maxRetries]
  ∧ calls r.2 = calls st ++ [NewPusherCall g s r.1]
  ∧ (∀ g' s', registered r.2 g' s'
              = if bool_decide (g' = g ∧ s' = s) then Some r.1
                else registered st g' s')
  ∧ logger r.2 = logger st
  ∧ ticks r.2 = ticks st.
Proof.
  intros st Hnone r.
  destruct (reached os cfg maxRetries id) as (Hs & _ & _ & _ & Hr).
  fold st in Hs, Hr.
  destruct (getLogPusher_spec NewPusher g s st Hs) as (_ & Hreg & Hm).
  rewrite Hnone, Hr in Hm. destruct Hm as (H1 & H2 & H3).
  destruct (getLogPusher_touch NewPusher g s st) as (Tl & Tt & _).
  by repeat split.
Qed.

(** X12: [Shutdown] takes no lock.  It does the same while [seqTokenMu] is
    held, by a call of [PushLogs] that has not returned, as while it is
    free, and leaves the mutex as it found it; it returns nil, writes no
    line, also when the flush fails, and does not read the clock. *)
Theorem Shutdown_takes_no_lock b st :
  Shutdown NewPusher (with_self (set_seqTokenMu b) st)
  = (None, with_self (set_seqTokenMu b) (Shutdown NewPusher st).2)
  ∧ seqTokenMu (self (Shutdown NewPusher st).2) = seqTokenMu (self st)
  ∧ logger (Shutdown NewPusher st).2 = logger st
  ∧ ticks (Shutdown NewPusher st).2 = ticks st.
Proof.
  split.
  - rewrite !Shutdown_eq. cbv zeta. cbn [snd].
    change (config (self (with_self (set_seqTokenMu b) st)))
      with (config (self st)).
    rewrite getLogPusher_mutex. cbn [fst snd]. by rewrite forceFlush_mutex.
  - destruct (Shutdown_frame st) as (H1 & _ & _ & H2 & H3 & _).
    set (exp := config (self st)) in *.
    destruct (getLogPusher_touch NewPusher (LogGroupName exp)
                (LogStreamName exp) st) as (_ & _ & _ & _ & Tm & _).
    by rewrite H1.
Qed.

Lemma single_first st :
  sound st → tight st → single st →
  let exp := config (self st) in
  (∀ g s p, registered st g s = Some p → p = 0%nat)
  ∧ (length (pushers st) ≤ 1)%nat
  ∧ (getLogPusher NewPusher (LogGroupName exp) (LogStreamName exp) st).1 = 0%nat.
Proof.
  intros Hs [Hinj Hall] [Hkey _] exp.
  pose proof Hs as (_ & _ & W3 & _).
  assert (Hsame : ∀ p q, (p < length (pushers st))%nat →
                         (q < length (pushers st))%nat → p = q).
  { intros p q Hp Hq.
    destruct (Hall p Hp) as (g1 & s1 & H1). destruct (Hall q Hq) as (g2 & s2 & H2).
    destruct (Hkey _ _ _ H1) as [-> ->]. destruct (Hkey _ _ _ H2) as [-> ->].
    rewrite H1 in H2. by injection H2. }
  assert (Hlen : (length (pushers st) ≤ 1)%nat).
  { destruct (decide (length (pushers st) ≤ 1)%nat) as [|Hgt]; [done|].
    specialize (Hsame 0%nat 1%nat ltac:(lia) ltac:(lia)). done. }
  assert (Hzero : ∀ g s p, registered st g s = Some p → p = 0%nat).
  { intros g s p Hp%W3. lia. }
  split; [done|]. split; [done|].
  destruct (getLogPusher_spec NewPusher (LogGroupName exp) (LogStreamName exp)
              st Hs) as (_ & _ & Hm).
  destruct (registered st (LogGroupName exp) (LogStreamName exp)) as [q|] eqn:Hq.
  - rewrite Hm. simpl. by eapply Hzero.
  - destruct Hm as (-> & _).
    destruct (pushers st) as [|o l] eqn:Hps; [done|].
    destruct (Hall 0%nat ltac:(simpl; lia)) as (g & s & H0).
    destruct (Hkey _ _ _ H0) as [-> ->]. fold exp in H0. by rewrite Hq in H0.
Qed.

Lemma single_resolved st :
  sound st → tight st → single st →
  let exp := config (self st) in
  single (getLogPusher NewPusher (LogGroupName exp) (LogStreamName exp) st).2.
Proof.
  intros Hs Ht Hsi exp.
  destruct (single_first st Hs Ht Hsi) as (_ & _ & Hz). fold exp in Hz.
  destruct Hsi as [Hkey Hcalls].
  destruct (getLogPusher_spec NewPusher (LogGroupName exp) (LogStreamName exp)
              st Hs) as (_ & Hreg & _).
  destruct (getLogPusher_touch NewPusher (LogGroupName exp) (LogStreamName exp) st)
    as (_ & _ & Tc & _ & _ & Tcalls & _).
  set (got := getLogPusher NewPusher (LogGroupName exp) (LogStreamName exp) st) in *.
  split.
  - intros g s p. rewrite Hreg, Tc. fold exp.
    case_bool_decide as Hk; [done|]. apply Hkey.
  - intros c. destruct Tcalls as [-> | ->]; [apply Hcalls|].
    intros [Hin|Hin%list_elem_of_singleton]%elem_of_app; [by apply Hcalls|].
    by subst c.
Qed.

Lemma single_frame st st' delta p :
  self st' = self st → streamMaps st' = streamMaps st →
  calls st' = calls st ++ delta → (∀ c, c ∈ delta → target c = p) →
  p = 0%nat → single st → single st'.
Proof.
  intros H1 H2 H3 H4 -> [Hkey Hcalls].
  split.
  - intros g s p. rewrite (registered_eq st st') by (by rewrite ?H1).
    rewrite H1. apply Hkey.
  - intros c. rewrite H3. intros [Hin|Hin]%elem_of_app; auto.
Qed.

Lemma perform_single st o :
  exported o = true →
  sound st → seqTokenMu (self st) = false → tight st → single st →
  single (perform NewPusher time_Now st o).
Proof.
  intros Ho Hs Hmu Ht Hsi. destruct o as [ld| |g s]; [| |done];
    unfold perform.
  - destruct (PushLogs NewPusher time_Now ld st) as [[err st']|] eqn:HP;
      [|done].
    destruct (PushLogs_frame ld st err st' Hs HP)
      as (H1 & H2 & _ & delta & H3 & H4).
    destruct (single_first st Hs Ht Hsi) as (_ & _ & Hz).
    eapply single_frame; [exact H1|exact H2|exact H3|exact H4|exact Hz|].
    by apply single_resolved.
  - destruct (Shutdown_frame st) as (H1 & H2 & _ & _ & _ & r & H3).
    destruct (single_first st Hs Ht Hsi) as (_ & _ & Hz).
    eapply single_frame; [exact H1|exact H2|exact H3| |exact Hz|].
    + by intros c ->%list_elem_of_singleton.
    + by apply single_resolved.
Qed.

(** X13: an exporter that serves calls of [PushLogs] and [Shutdown] only,
    as the collector makes them, builds one Pusher at most.  Its registry
    never holds a key other than the group and stream of its
    configuration, and every [NewPusher], [AddLogEntry] and [ForceFlush]
    it ever makes is about that one Pusher object. *)
Theorem one_Pusher_per_exporter cfg maxRetries id os :
  forallb exported os = true →
  let st := performAll NewPusher time_Now os (newExporter cfg maxRetries id) in
  (∀ g s p, registered st g s = Some p →
            g = LogGroupName cfg ∧ s = LogStreamName cfg ∧ p = 0%nat)
  ∧ (length (pushers st) ≤ 1)%nat
  ∧ (∀ c, c ∈ calls st → target c = 0%nat)
  ∧ (length (constructed (LogGroupName cfg) (LogStreamName cfg) (calls st))
     ≤ 1)%nat.
Proof.
  intros Hos st.
  assert (∀ os st0,
            forallb exported os = true →
            sound st0 → seqTokenMu (self st0) = false → tight st0 → single st0 →
            single (performAll NewPusher time_Now os st0)) as Hall.
  { clear. induction os as [|o os IH]; intros st0 Hos Hs Hmu Ht Hsi; [done|].
    simpl in Hos. apply andb_true_iff in Hos as [Ho Hos].
    change (performAll NewPusher time_Now (o :: os) st0)
      with (performAll NewPusher time_Now os (perform NewPusher time_Now st0 o)).
    destruct (perform_keeps NewPusher time_Now st0 o Hs Hmu) as (H1 & H2 & _).
    destruct (perform_more st0 o Hs Hmu Ht) as (H4 & _).
    apply IH; try done. by apply perform_single. }
  destruct (reached os cfg maxRetries id) as (Hs & Hmu & Ht & Hcfg & _).
  fold st in Hs, Hmu, Ht, Hcfg.
  assert (Hsi : single st).
  { apply (Hall os _ Hos (sound_newExporter cfg maxRetries id) eq_refl
             (tight_newExporter cfg maxRetries id)).
    split; [by intros g s p H; vm_compute in H|by intros c ?%elem_of_nil]. }
  destruct (single_first st Hs Ht Hsi) as (Hz & Hlen & _).
  destruct Hsi as [Hkey Hcalls]. rewrite Hcfg in Hkey.
  split; [|split; [done|split; [done|]]].
  - intros g s p Hp. destruct (Hkey _ _ _ Hp) as [-> ->].
    repeat split. by eapply Hz.
  - destruct Hs as (_ & _ & _ & W4). rewrite W4.
    destruct (registered st _ _); simpl; lia.
Qed.

End Traces.

(** ** The export coordinator and the Pusher object *)

Lemma length_stamped (f : nat → Z) evs : ∀ t, length (stamped f t evs) = length evs.
Proof. induction evs as [|ev evs IH]; intros t; [done|]. simpl. by rewrite IH. Qed.

Lemma stamped_events (f : nat → Z) evs : ∀ t,
  cwlogs.InputLogEvent <$> stamped f t evs = evs.
Proof.
  induction evs as [|ev evs IH]; intros t; [done|].
  simpl. f_equal. apply IH.
Qed.

Lemma stamped_nil (f : nat → Z) t evs : stamped f t evs = [] ↔ evs = [].
Proof. by destruct evs. Qed.

Lemma failedAdds_addCalls p evs : ∀ errs,
  length errs = length evs →
  failedAdds (addCalls p evs errs) = failures errs.
Proof.
  unfold failedAdds, failures, addCalls.
  induction evs as [|ev evs IH]; intros [|err errs] Hl; try done.
  simpl in Hl. injection Hl as Hl. simpl zip_with.
  destruct err as [e|].
  - rewrite (filter_cons_True (λ c, addFailed c = true)) by done.
    rewrite (filter_cons_True (λ err : option error, is_Some err)) by eauto.
    simpl. by rewrite IH.
  - rewrite (filter_cons_False (λ c, addFailed c = true)) by done.
    rewrite (filter_cons_False (λ err : option error, is_Some err))
      by (by intros [? ?]).
    by apply IH.
Qed.

Section Delivered.

Context {P : Type} `{!Pusher P}.
Variable NewPusher : string → string → Z → P.
Variable time_Now : nat → Z.

Implicit Types (st : state P) (p : nat) (cs : list Call) (obj : P).

Lemma length_feed (evs : list Event) : ∀ obj, length (feed evs obj).1 = length evs.
Proof. induction evs as [|ev evs IH]; intros obj; [done|]. simpl. by rewrite IH. Qed.

(** What a call of [PushLogs] hands to the Pusher object, what comes back,
    and what is seen of it in the calls and the lines. *)
Lemma PushLogs_delivered ld st :
  sound st → seqTokenMu (self st) = false →
  let exp := config (self st) in
  let got := getLogPusher NewPusher (LogGroupName exp) (LogStreamName exp) st in
  let p := got.1 in
  let evs := omap converted (recordsOf ld) in
  let sent := stamped time_Now (ticks st) evs in
  ∃ obj err st' delta lines,
    PushLogs NewPusher time_Now ld st = Some (err, st')
    ∧ pushers got.2 !! p = Some obj
    ∧ calls st' = calls st ++ delta
    ∧ logger st'
      = logger st ++ (dropLine <$> omap refused (recordsOf ld)) ++ lines
    ∧ added delta = (fun ev => (p, ev)) <$> evs
    ∧ flushed delta = (if bool_decide (evs = []) then [] else [(p, err)])
    ∧ linesWith zap.ErrorLevel "Failed " lines = failedAdds delta
    ∧ failedAdds delta = failures (feed sent obj).1
    ∧ (∀ q, q ≠ p → pushers st' !! q = pushers got.2 !! q)
    ∧ (evs = [] → err = None ∧ pushers st' = pushers got.2)
    ∧ (evs ≠ [] →
       last delta = Some (ForceFlushCall p err)
       ∧ err = (ForceFlush (feed sent obj).2).1
       ∧ pushers st' !! p = Some (ForceFlush (feed sent obj).2).2).
Proof.
  intros Hs Hmu exp got p evs sent.
  pose proof (PushLogs_effect NewPusher time_Now ld st Hmu) as E.
  cbv zeta in E. fold exp in E. fold got in E. fold p in E. fold evs in E.
  destruct E as (err & st' & delta & lines & HP & Hc & Hl & Ha & Hf & He & Hla
                 & Hfa & _).
  pose proof (PushLogs_exact NewPusher time_Now ld st Hs Hmu) as X.
  cbv zeta in X. fold exp in X. fold got in X. fold p in X. fold evs in X.
  fold sent in X.
  destruct X as (obj & err0 & st0 & HP0 & Ho & _ & _ & _ & _ & Hq & H6).
  rewrite HP in HP0. injection HP0 as <- <-.
  destruct (getLogPusher_touch NewPusher (LogGroupName exp) (LogStreamName exp) st)
    as (_ & _ & _ & _ & _ & Tcalls & _).
  fold got in Tcalls. fold p in Tcalls.
  assert (∃ news, calls got.2 = calls st ++ news ∧ failedAdds news = 0%nat)
    as (news & Hnews & Hnn).
  { destruct Tcalls as [->| ->]; [exists []|eexists [_]];
      by rewrite ?app_nil_r. }
  exists obj, err, st', delta, lines.
  split; [done|]. split; [done|]. split; [done|]. split; [done|].
  split; [done|]. split; [done|]. split; [done|].
  destruct (decide (evs = [])) as [Hev|Hev].
  - assert (Hsent : sent = []) by (by apply stamped_nil).
    rewrite bool_decide_eq_true_2 in H6 by done.
    destruct H6 as (-> & Hc' & _ & Hp').
    rewrite Hc, Hnews in Hc'. apply app_inv_head in Hc'. subst delta.
    rewrite Hsent. split; [done|]. split; [done|]. split; [done|].
    by intros ?.
  - assert (Hsent : sent ≠ []) by (by intros ?%stamped_nil).
    rewrite bool_decide_eq_false_2 in H6 by done. cbv zeta in H6.
    destruct H6 as (Herr & Hc' & _ & Hp').
    rewrite Hc, Hnews, <- app_assoc in Hc'. apply app_inv_head in Hc'.
    split.
    { rewrite Hc', !failedAdds_app, Hnn.
      rewrite failedAdds_addCalls
        by (by rewrite length_feed).
      change (failedAdds [ForceFlushCall p err]) with 0%nat. lia. }
    split; [done|]. split; [by intros ?|].
    intros _. split; [by apply Hla|]. by split.
Qed.

(** C2: a call of [PushLogs] on an exporter whose registry is sound, with
    the mutex free, returns.  The Pusher object of the configured group and
    stream is given every translated event, in one [AddLogEntry] each,
    whatever the earlier calls of [AddLogEntry] returned; each call that
    returned an error is logged, and only logged.  If there is an event,
    [ForceFlush] is then called once on the object as the calls of
    [AddLogEntry] left it; what it returns is what [PushLogs] returns, and
    what it leaves is the Pusher object after the call.  If there is no
    event, [ForceFlush] is not called, the Pusher objects are untouched and
    [PushLogs] returns nil.  So the result is an error exactly when
    [ForceFlush] of the Pusher failed, and it is that error. *)
Theorem PushLogs_returns_flush_error ld st :
  sound st → seqTokenMu (self st) = false →
  let exp := config (self st) in
  let got := getLogPusher NewPusher (LogGroupName exp) (LogStreamName exp) st in
  let p := got.1 in
  let evs := omap converted (recordsOf ld) in
  let sent := stamped time_Now (ticks st) evs in
  ∃ obj err st' delta lines,
    PushLogs NewPusher time_Now ld st = Some (err, st')
    ∧ pushers got.2 !! p = Some obj
    ∧ calls st' = calls st ++ delta
    ∧ logger st' = logger st ++ lines
    ∧ added delta = (fun ev => (p, ev)) <$> evs
    ∧ length (feed sent obj).1 = length evs
    ∧ linesWith zap.ErrorLevel "Failed " lines = failedAdds delta
    ∧ failedAdds delta = failures (feed sent obj).1
    ∧ (evs = [] ∧ flushed delta = [] ∧ err = None
       ∧ pushers st' = pushers got.2
       ∨ evs ≠ [] ∧ flushed delta = [(p, err)]
         ∧ last delta = Some (ForceFlushCall p err)
         ∧ err = (ForceFlush (feed sent obj).2).1
         ∧ pushers st' !! p = Some (ForceFlush (feed sent obj).2).2)
    ∧ (∀ e, err = Some e ↔ (p, Some e) ∈ flushed delta)
    ∧ (∀ e, err = Some e
            ↔ evs ≠ [] ∧ (ForceFlush (feed sent obj).2).1 = Some e)
    ∧ (∀ q, q ≠ p → pushers st' !! q = pushers got.2 !! q).
Proof.
  intros Hs Hmu exp got p evs sent.
  destruct (PushLogs_delivered ld st Hs Hmu)
    as (obj & err & st' & delta & lines & HP & Ho & Hc & Hl & Ha & Hf & Hfa
        & Hfail & Hq & Hnil & Hev).
  fold exp in Ho, Ha, Hf, Hq, Hnil, Hev. fold got in Ho, Ha, Hf, Hq, Hnil, Hev.
  fold p in Ho, Ha, Hf, Hq, Hev. fold evs in Ha, Hf, Hfail, Hnil, Hev.
  fold sent in Hfail, Hev.
  exists obj, err, st', delta,
    ((dropLine <$> omap refused (recordsOf ld)) ++ lines).
  split; [done|]. split; [done|]. split; [done|]. split; [done|].
  split; [done|].
  split. { rewrite length_feed. unfold sent. by rewrite length_stamped. }
  split. { by rewrite linesWith_app, linesWith_dropLine. }
  split; [done|].
  destruct (decide (evs = [])) as [He|He].
  - rewrite bool_decide_eq_true_2 in Hf by done.
    destruct (Hnil He) as (-> & Hp). split; [by left|].
    split; [|split; [|done]].
    + intros e. rewrite Hf. split; [done|]. by intros ?%elem_of_nil.
    + intros e. split; [done|]. by intros [? _].
  - rewrite bool_decide_eq_false_2 in Hf by done.
    destruct (Hev He) as (Hla & Herr & Hp).
    split; [right; by repeat split|].
    split; [|split; [|done]].
    + intros e. rewrite Hf, list_elem_of_singleton. split; [by intros ->|].
      by intros [= ->].
    + intros e. rewrite <- Herr. split; [by intros ->|by intros [_ ->]].
Qed.

(** C7: [logsToCWLogs] returns the events of the records that translate, in
    their order, and the number of those that do not, and writes one line
    for each of these; no record is lost otherwise.  [PushLogs] gives each
    of the events, and nothing else, to the Pusher object of the configured
    group and stream, which the flush then leaves as the Pusher object
    after the call; it returns nil when that flush of the Pusher returns
    nil. *)
Theorem translation_failures_are_dropped lg ld st :
  sound st → seqTokenMu (self st) = false →
  let exp := config (self st) in
  let got := getLogPusher NewPusher (LogGroupName exp) (LogStreamName exp) st in
  let p := got.1 in
  let rs := recordsOf ld in
  let sent := stamped time_Now (ticks st) (omap converted rs) in
  logsToCWLogs lg ld
  = (omap converted rs, Z.of_nat (length (omap refused rs)),
     lg ++ (dropLine <$> omap refused rs))
  ∧ (length (omap converted rs) + length (omap refused rs))%nat = length rs
  ∧ ∃ obj err st' delta,
      PushLogs NewPusher time_Now ld st = Some (err, st')
      ∧ pushers got.2 !! p = Some obj
      ∧ calls st' = calls st ++ delta
      ∧ added delta = (fun ev => (p, ev)) <$> omap converted rs
      ∧ length (added delta) = (length rs - length (omap refused rs))%nat
      ∧ cwlogs.InputLogEvent <$> sent = omap converted rs
      ∧ length (feed sent obj).1 = (length rs - length (omap refused rs))%nat
      ∧ (omap converted rs = [] → err = None ∧ pushers st' = pushers got.2)
      ∧ (omap converted rs ≠ [] →
         err = (ForceFlush (feed sent obj).2).1
         ∧ pushers st' !! p = Some (ForceFlush (feed sent obj).2).2)
      ∧ ((ForceFlush (feed sent obj).2).1 = None → err = None)
      ∧ ((∀ q e, (q, Some e) ∉ flushed delta) → err = None).
Proof.
  intros Hs Hmu exp got p rs sent.
  split; [apply logsToCWLogs_spec|].
  pose proof (converted_or_refused rs) as Hlen. split; [done|].
  destruct (PushLogs_delivered ld st Hs Hmu)
    as (obj & err & st' & delta & lines & HP & Ho & Hc & Hl & Ha & Hf & Hfa
        & Hfail & Hq & Hnil & Hev).
  fold exp in Ho, Ha, Hf, Hq, Hnil, Hev. fold got in Ho, Ha, Hf, Hq, Hnil, Hev.
  fold p in Ho, Ha, Hf, Hq, Hev. fold rs in Ha, Hf, Hfail, Hnil, Hev.
  fold sent in Hfail, Hev.
  exists obj, err, st', delta.
  split; [done|]. split; [done|]. split; [done|]. split; [done|].
  split. { rewrite Ha, length_fmap. lia. }
  split; [apply stamped_events|].
  split. { rewrite length_feed. unfold sent. rewrite length_stamped. lia. }
  split; [done|]. split; [by intros He; destruct (Hev He) as (_ & ? & ?)|].
  split.
  - intros Hnone. destruct (decide (omap converted rs = [])) as [He|He].
    + by destruct (Hnil He).
    + destruct (Hev He) as (_ & -> & _). done.
  - intros Hno. destruct err as [e|]; [|done]. exfalso.
    destruct (decide (omap converted rs = [])) as [He|He];
      [by destruct (Hnil He)|].
    rewrite bool_decide_eq_false_2 in Hf by done.
    apply (Hno p e). rewrite Hf. by left.
Qed.

(** C10: within one call of [PushLogs] the events given to the Pusher
    object, one [AddLogEntry] after the other, are the events of the
    records that translate, in the order of [recordsOf]: by resource, then
    by scope, then by record (see [recordsOf_position] and
    [position_lex]).  The records that fail are left out; of two events
    given to the Pusher, the earlier comes from the earlier record, and
    none is given twice.  The Pusher object after the call is the object
    that these calls and the flush leave. *)
Theorem PushLogs_appends_in_order ld st :
  sound st → seqTokenMu (self st) = false →
  let exp := config (self st) in
  let got := getLogPusher NewPusher (LogGroupName exp) (LogStreamName exp) st in
  let p := got.1 in
  let sent := stamped time_Now (ticks st) (omap converted (recordsOf ld)) in
  ∃ obj err st' delta,
    PushLogs NewPusher time_Now ld st = Some (err, st')
    ∧ pushers got.2 !! p = Some obj
    ∧ calls st' = calls st ++ delta
    ∧ added delta = (fun ev => (p, ev)) <$> omap converted (recordsOf ld)
    ∧ length (added delta)
      = (length (recordsOf ld) - length (omap refused (recordsOf ld)))%nat
    ∧ cwlogs.InputLogEvent <$> sent = omap converted (recordsOf ld)
    ∧ (if bool_decide (sent = []) then pushers st' = pushers got.2
       else pushers st' !! p = Some (ForceFlush (feed sent obj).2).2)
    ∧ (∀ q, q ≠ p → pushers st' !! q = pushers got.2 !! q)
    ∧ (∀ n1 n2 c1 c2,
         added delta !! n1 = Some c1 → added delta !! n2 = Some c2 →
         (n1 < n2)%nat →
         ∃ m1 m2 r1 r2,
           (m1 < m2)%nat
           ∧ recordsOf ld !! m1 = Some r1 ∧ recordsOf ld !! m2 = Some r2
           ∧ converted r1 = Some c1.2 ∧ converted r2 = Some c2.2)
    ∧ (∀ n1 n2 e1 e2,
         sent !! n1 = Some e1 → sent !! n2 = Some e2 → (n1 < n2)%nat →
         ∃ m1 m2 r1 r2,
           (m1 < m2)%nat
           ∧ recordsOf ld !! m1 = Some r1 ∧ recordsOf ld !! m2 = Some r2
           ∧ converted r1 = Some (cwlogs.InputLogEvent e1)
           ∧ converted r2 = Some (cwlogs.InputLogEvent e2)).
Proof.
  intros Hs Hmu exp got p sent.
  destruct (PushLogs_delivered ld st Hs Hmu)
    as (obj & err & st' & delta & lines & HP & Ho & Hc & Hl & Ha & Hf & Hfa
        & Hfail & Hq & Hnil & Hev).
  fold exp in Ho, Ha, Hf, Hq, Hnil, Hev. fold got in Ho, Ha, Hf, Hq, Hnil, Hev.
  fold p in Ho, Ha, Hf, Hq, Hev. fold sent in Hfail, Hev.
  exists obj, err, st', delta.
  split; [done|]. split; [done|]. split; [done|]. split; [done|].
  split.
  { rewrite Ha, length_fmap.
    pose proof (converted_or_refused (recordsOf ld)). lia. }
  split; [apply stamped_events|].
  split.
  { destruct (decide (sent = [])) as [Hsent|Hsent].
    - rewrite bool_decide_eq_true_2 by done.
      pose proof (proj1 (stamped_nil _ _ _) Hsent) as He.
      by destruct (Hnil He).
    - rewrite bool_decide_eq_false_2 by done.
      assert (He : omap converted (recordsOf ld) ≠ [])
        by (intros He0; apply Hsent; unfold sent; by rewrite He0).
      by destruct (Hev He) as (_ & _ & ?). }
  split; [done|]. split.
  - intros n1 n2 c1 c2 H1 H2 Hlt. rewrite Ha in H1, H2.
    rewrite list_lookup_fmap in H1, H2.
    destruct (omap converted (recordsOf ld) !! n1) as [ev1|] eqn:E1; [|done].
    destruct (omap converted (recordsOf ld) !! n2) as [ev2|] eqn:E2; [|done].
    injection H1 as <-. injection H2 as <-. simpl.
    by apply (omap_order converted (recordsOf ld) n1 n2).
  - intros n1 n2 e1 e2 H1 H2 Hlt.
    apply (omap_order converted (recordsOf ld) n1 n2); [| |done].
    + rewrite <- (stamped_events time_Now _ (ticks st)), list_lookup_fmap.
      fold sent. by rewrite H1.
    + rewrite <- (stamped_events time_Now _ (ticks st)), list_lookup_fmap.
      fold sent. by rewrite H2.
Qed.

(** C9: [Shutdown] returns nil whatever [ForceFlush] returns.  It calls
    [ForceFlush] once, on the Pusher object that the registry holds for the
    group and stream of the configuration, or on the one it has [NewPusher]
    build for them if the registry holds none, and [AddLogEntry] not at
    all.  That Pusher object is after the call what [ForceFlush] left of
    it; every other Pusher object is as it was. *)
Theorem Shutdown_flushes_configured cfg maxRetries id os :
  let st := performAll NewPusher time_Now os (newExporter cfg maxRetries id) in
  let got := getLogPusher NewPusher (LogGroupName cfg) (LogStreamName cfg) st in
  ∃ p obj r st' delta,
    Shutdown NewPusher st = (None, st')
    ∧ p = got.1
    ∧ registered st' (LogGroupName cfg) (LogStreamName cfg) = Some p
    ∧ pushers got.2 !! p = Some obj
    ∧ match registered st (LogGroupName cfg) (LogStreamName cfg) with
      | Some q => q = p ∧ pushers st !! p = Some obj
      | None =>
          p = length (pushers st)
          ∧ obj = NewPusher (LogGroupName cfg) (LogStreamName cfg) maxRetries
      end
    ∧ r = (ForceFlush obj).1
    ∧ pushers st' !! p = Some (ForceFlush obj).2
    ∧ length (pushers st') = length (pushers got.2)
    ∧ calls st' = calls st ++ delta
    ∧ flushed delta = [(p, r)]
    ∧ added delta = []
    ∧ ∀ q, q ≠ p → pushers st' !! q = pushers st !! q.
Proof.
  intros st got.
  destruct (reached NewPusher time_Now os cfg maxRetries id)
    as (Hs & _ & _ & Hcfg & Hretry).
  fold st in Hs, Hcfg, Hretry.
  rewrite Shutdown_eq, Hcfg. cbv zeta. fold got.
  destruct (getLogPusher_spec NewPusher (LogGroupName cfg) (LogStreamName cfg)
              st Hs) as (Hs1 & Hreg & Hm).
  fold got in Hs1, Hreg, Hm.
  assert (Hp : (got.1 < length (pushers got.2))%nat).
  { destruct Hs1 as (_ & _ & W3 & _).
    apply (W3 (LogGroupName cfg) (LogStreamName cfg)).
    rewrite Hreg. by rewrite bool_decide_eq_true_2. }
  destruct (lookup_lt_is_Some_2 _ _ Hp) as [obj Hobj].
  pose proof (forceFlush_uses got.1 got.2) as Hu.
  destruct (uses_sound got.1 [ForceFlushCall got.1 (forceFlush got.1 got.2).1]
              [] 0 got.2 (forceFlush got.1 got.2).2 Hu ltac:(done) Hs1)
    as (_ & Hreg').
  rewrite (forceFlush_object got.1 got.2 obj Hobj) in Hu, Hreg'.
  rewrite (forceFlush_object got.1 got.2 obj Hobj). cbn [fst snd] in *.
  destruct Hu as (_ & _ & Uc & _ & _ & Un & Uo).
  assert (∃ news, calls got.2 = calls st ++ news ∧ flushed news = []
                  ∧ added news = []
                  ∧ ∀ q, q ≠ got.1 → pushers got.2 !! q = pushers st !! q)
    as (news & Hc & Hf & Ha & Hother).
  { destruct (registered st (LogGroupName cfg) (LogStreamName cfg)) as [q|].
    - rewrite Hm. exists []. by rewrite app_nil_r.
    - destruct Hm as (Hp0 & Hc & Hps). eexists [_]. repeat split; try done.
      intros q Hq. rewrite Hps, Hp0 in *.
      destruct (decide (q < length (pushers st))%nat).
      + by rewrite lookup_app_l.
      + rewrite !lookup_ge_None_2; [done|lia|]. rewrite length_app. simpl. lia. }
  eexists got.1, obj, (ForceFlush obj).1, _,
    (news ++ [ForceFlushCall got.1 (ForceFlush obj).1]).
  split; [reflexivity|]. split; [done|]. split.
  { rewrite Hreg', Hreg. by rewrite bool_decide_eq_true_2. }
  split; [done|]. split.
  { destruct (registered st (LogGroupName cfg) (LogStreamName cfg)) as [q|].
    - rewrite Hm in Hobj |- *. by split.
    - destruct Hm as (Hp0 & _ & Hps). split; [done|].
      rewrite Hps, Hp0, Hretry in Hobj.
      rewrite lookup_app_r, Nat.sub_diag in Hobj by lia.
      by injection Hobj. }
  split; [done|]. split.
  { simpl. by apply list_lookup_insert_eq. }
  split; [done|].
  rewrite Uc, Hc, flushed_app, added_app, Hf, Ha, app_assoc.
  repeat split; try done.
  intros q Hq. rewrite (Uo q Hq). by apply Hother.
Qed.

End Delivered.

Lemma PushLogs_returns_flush_error_witness :
  ∃ obj err st' delta,
    PushLogs (Scripted.scripted [Some (ErrorString "add"); None; None; None;
                                 Some (ErrorString "flush")])
      Scripted.clock Sample.five Sample.fresh = Some (err, st')
    ∧ calls st' = calls Sample.fresh ++ delta
    ∧ failedAdds delta
      = failures
          (feed (stamped Scripted.clock 0
                   (omap converted (recordsOf Sample.five))) obj).1
    ∧ ∀ e, err = Some e
           ↔ omap converted (recordsOf Sample.five) ≠ []
             ∧ (ForceFlush
                  (feed (stamped Scripted.clock 0
                           (omap converted (recordsOf Sample.five))) obj).2).1
               = Some e.
Proof.
  assert (Hs : sound Sample.fresh) by (by repeat split).
  destruct (PushLogs_returns_flush_error
              (Scripted.scripted [Some (ErrorString "add"); None; None; None;
                                  Some (ErrorString "flush")])
              Scripted.clock Sample.five Sample.fresh Hs eq_refl)
    as (obj & err & st' & delta & lines & HP & _ & Hc & _ & _ & _ & _ & Hfail
        & _ & _ & Hiff & _).
  exists obj, err, st', delta.
  split; [exact HP|]. split; [exact Hc|]. split; [exact Hfail|exact Hiff].
Defined.

(** The first [AddLogEntry] fails and so does the flush: the Pusher has
    been given the four events all the same, and the error returned is that
    of the flush. *)
Example failed_add_and_flush :
  (fun r => (r.1, (fun o => (length (Scripted.sent o),
                             length (Scripted.buffer o),
                             Scripted.script o)) <$> pushers r.2))
    <$> PushLogs (Scripted.scripted [Some (ErrorString "add"); None; None; None;
                                     Some (ErrorString "flush")])
          Scripted.clock Sample.five Sample.fresh
  = Some (Some (ErrorString "flush"), [(4%nat, 0%nat, [])]).
Proof. vm_compute. reflexivity. Qed.

Lemma translation_failures_are_dropped_witness :
  ∃ obj err st',
    PushLogs Scripted.quiet Scripted.clock Sample.five Sample.fresh
    = Some (err, st')
    ∧ length (feed (stamped Scripted.clock 0
                      (omap converted (recordsOf Sample.five))) obj).1
      = (length (recordsOf Sample.five)
         - length (omap refused (recordsOf Sample.five)))%nat
    ∧ ((ForceFlush
          (feed (stamped Scripted.clock 0
                   (omap converted (recordsOf Sample.five))) obj).2).1 = None
       → err = None).
Proof.
  assert (Hs : sound Sample.fresh) by (by repeat split).
  destruct (proj2 (proj2 (translation_failures_are_dropped Scripted.quiet
                            Scripted.clock [] Sample.five Sample.fresh Hs
                            eq_refl)))
    as (obj & err & st' & delta & HP & _ & _ & _ & _ & _ & Hlen & _ & _ & Hnone
        & _).
  exists obj, err, st'.
  split; [exact HP|]. split; [exact Hlen|exact Hnone].
Defined.

(** The five records at the Pusher: four events sent by the flush, the
    third record among them not, and nil returned. *)
Example five_records_sent :
  (fun r => (r.1,
             (fun o => (fun ev => bodyMember (cwlogs.InputLogEvent ev))
                         <$> Scripted.sent o) <$> pushers r.2))
    <$> PushLogs Scripted.quiet Scripted.clock Sample.five Sample.fresh
  = Some (None,
          [[Some (json.Str "a"); Some (json.Int 2); Some (json.Bool true);
            None]]).
Proof. vm_compute. reflexivity. Qed.

Lemma PushLogs_appends_in_order_witness :
  ∃ obj err st',
    PushLogs Scripted.quiet Scripted.clock Sample.nested Sample.fresh
    = Some (err, st')
    ∧ cwlogs.InputLogEvent
        <$> stamped Scripted.clock 0 (omap converted (recordsOf Sample.nested))
      = omap converted (recordsOf Sample.nested)
    ∧ (if bool_decide (stamped Scripted.clock 0
                         (omap converted (recordsOf Sample.nested)) = [])
       then pushers st'
            = pushers (getLogPusher Scripted.quiet "group" "stream"
                         Sample.fresh).2
       else pushers st' !! 0%nat
            = Some (ForceFlush
                      (feed (stamped Scripted.clock 0
                               (omap converted (recordsOf Sample.nested)))
                         obj).2).2).
Proof.
  assert (Hs : sound Sample.fresh) by (by repeat split).
  destruct (PushLogs_appends_in_order Scripted.quiet Scripted.clock
              Sample.nested Sample.fresh Hs eq_refl)
    as (obj & err & st' & delta & HP & _ & _ & _ & _ & Hev & Hobj & _).
  exists obj, err, st'. split; [exact HP|]. split; [exact Hev|exact Hobj].
Defined.

(** Two resources of two scopes of two records each: the Pusher sends the
    bodies 1 to 8 in that order. *)
Example nested_sent_in_order :
  (fun r => (fun o => (fun ev => bodyMember (cwlogs.InputLogEvent ev))
                        <$> Scripted.sent o) <$> pushers r.2)
    <$> PushLogs Scripted.quiet Scripted.clock Sample.nested Sample.fresh
  = Some [(fun n => Some (json.Int n)) <$> [1; 2; 3; 4; 5; 6; 7; 8]].
Proof. vm_compute. reflexivity. Qed.

(** [Shutdown] after an export: the Pusher object is flushed once more, as
    its script shows, and nil is returned although this flush fails. *)
Example Shutdown_flushes_the_object :
  (fun r => (r.1, (fun o => (length (Scripted.sent o), Scripted.script o))
                    <$> pushers r.2))
    (Shutdown (Scripted.scripted [None; None; None; None; None;
                                  Some (ErrorString "flush")])
       (performAll (Scripted.scripted [None; None; None; None; None;
                                       Some (ErrorString "flush")])
          Scripted.clock [DoPushLogs Sample.five] Sample.fresh))
  = (None, [(4%nat, [])]).
Proof. vm_compute. reflexivity. Qed.

Lemma getLogPusher_fresh_witness :
  let st := performAll Scripted.quiet Scripted.clock [DoPushLogs Sample.five]
              Sample.fresh in
  (getLogPusher Scripted.quiet "g" "s" st).1 = length (pushers st).
Proof.
  refine (proj1 (getLogPusher_fresh Scripted.quiet Scripted.clock Sample.cfg 3
                   "collector" [DoPushLogs Sample.five] "g" "s" _)).
  vm_compute. reflexivity.
Defined.

Lemma one_Pusher_per_exporter_witness :
  (length (pushers (performAll Scripted.quiet Scripted.clock
                      [DoPushLogs Sample.five; DoShutdown;
                       DoPushLogs Sample.nested] Sample.fresh)) ≤ 1)%nat.
Proof.
  exact (proj1 (proj2 (one_Pusher_per_exporter Scripted.quiet Scripted.clock
                         Sample.cfg 3 "collector"
                         [DoPushLogs Sample.five; DoShutdown;
                          DoPushLogs Sample.nested] eq_refl))).
Defined.

(** A Pusher whose second [AddLogEntry] fails: the four events of the five
    records are still handed over, with the clock readings 0 to 3, the
    flush follows and its result, nil, is returned. *)
Example trace_of_five :
  (fun r => (r.1,
             (fun c => match c with
                       | AddLogEntryCall p ev err =>
                           (p, cwlogs.GeneratedTime ev,
                            if err is Some _ then true else false)
                       | _ => (target c, -1, false)
                       end) <$> calls r.2,
             length (logger r.2)))
    <$> PushLogs (Scripted.scripted [None; Some (ErrorString "add")])
          Scripted.clock Sample.five Sample.fresh
  = Some (None,
          [(0%nat, -1, false); (0%nat, 0, false); (0%nat, 1, true);
           (0%nat, 2, false); (0%nat, 3, false); (0%nat, -1, false)],
          8%nat).
Proof. vm_compute. reflexivity. Qed.

(** [Shutdown] while a call of [PushLogs] holds the mutex, two events
    appended and two to go: the flush goes through and sends the two. *)
Example Shutdown_during_PushLogs :
  (fun r => (r.1, flushed (calls (Shutdown Scripted.quiet r.2).2),
             (fun o => length (Scripted.sent o))
               <$> pushers (Shutdown Scripted.quiet r.2).2))
    (alone Scripted.quiet Scripted.clock 4 (AtLock Sample.five) Sample.fresh)
  = (AtAppend 0 4 (drop 2 (omap converted (recordsOf Sample.five))),
     [(0%nat, None)], [2%nat]).
Proof. vm_compute. reflexivity. Qed.

(** ** Goroutines: the mutex is given back *)

Section Progress.

Context {P : Type} `{!Pusher P}.
Variable NewPusher : string → string → Z → P.
Variable time_Now : nat → Z.

Implicit Types (st : state P) (sys : system P).

Lemma advance_critical c st :
  critical c = true → is_Some (advance NewPusher time_Now c st).
Proof.
  destruct c as [ld|ld|p n [|logEvent rest]|ret|ret]; try done; intros _.
  - rewrite advance_translate. cbv zeta. by case_bool_decide.
  - rewrite advance_flush. cbv zeta. by destruct (forceFlush _ _).1.
  - by rewrite advance_append.
Qed.

Lemma advance_AtLock ld st :
  seqTokenMu (self st) = false →
  is_Some (advance NewPusher time_Now (AtLock ld) st).
Proof. intros Hmu. simpl. by rewrite Hmu. Qed.

Lemma step_moves sys t g st :
  goroutines sys !! t = Some g → exporters sys !! on g = Some st →
  is_Some (advance NewPusher time_Now (at_ g) st) →
  length (history (step NewPusher time_Now sys t)) = S (length (history sys)).
Proof.
  intros Hg He [[[c st'] a] Ha]. unfold step. rewrite Hg, He, Ha. simpl.
  rewrite length_app. simpl. lia.
Qed.

Lemma owned_spawn (exps : list (state P)) jobs :
  (∀ e st, exps !! e = Some st → seqTokenMu (self st) = false) →
  owned (spawn exps jobs).
Proof.
  intros Hfree e st He Hheld. simpl in He. rewrite (Hfree e st He) in Hheld.
  done.
Qed.

Lemma owned_step sys t : owned sys → owned (step NewPusher time_Now sys t).
Proof.
  intros Hown.
  destruct (step_cases NewPusher time_Now sys t)
    as [->|(g & st & c' & st' & a & Hg & He & Ha & ->)]; [done|].
  intros e ste Hlook Hheld. simpl in Hlook. simpl.
  destruct (decide (e = on g)) as [->|Hne].
  - rewrite list_lookup_insert_eq in Hlook by (by eapply lookup_lt_Some).
    injection Hlook as <-.
    exists t, {| on := on g; at_ := c' |}.
    split; [apply list_lookup_insert_eq; by eapply lookup_lt_Some|].
    split; [done|]. simpl.
    destruct (advance_cases NewPusher time_Now _ _ _ _ _ Ha)
      as [(_ & _ & Hc & _)|[(_ & Hc & _)|(_ & _ & Hfree)]]; try done.
    by rewrite Hfree in Hheld.
  - rewrite list_lookup_insert_ne in Hlook by done.
    destruct (Hown e ste Hlook Hheld) as (t0 & g0 & Hg0 & Hon & Hcrit).
    exists t0, g0. split; [|done].
    rewrite list_lookup_insert_ne; [done|].
    intros <-. rewrite Hg in Hg0. injection Hg0 as <-. done.
Qed.

Lemma owned_run schedule : ∀ sys,
  owned sys → owned (run NewPusher time_Now schedule sys).
Proof.
  induction schedule as [|t schedule IH]; intros sys Hown; [done|].
  apply IH. by apply owned_step.
Qed.

(** X14: calls of [PushLogs] cannot block each other for good.  Let
    goroutines call [PushLogs] on exporters whose mutexes are free, and let
    them be scheduled in any way.  Then a mutex is held only while one of
    the goroutines is between [Lock] and [Unlock] on that exporter, so it
    is free whenever none is; a goroutine that holds it can always take its
    next step; and for a goroutine that has not returned, some goroutine on
    the same exporter can take a step, the goroutine itself when the mutex
    is free. *)
Theorem PushLogs_no_deadlock (exps : list (state P)) jobs schedule :
  (∀ e st, exps !! e = Some st → seqTokenMu (self st) = false) →
  let sys := run NewPusher time_Now schedule (spawn exps jobs) in
  (∀ e st, exporters sys !! e = Some st →
     (∀ t g, goroutines sys !! t = Some g → on g = e →
             critical (at_ g) = false) →
     seqTokenMu (self st) = false)
  ∧ (∀ t g st,
       goroutines sys !! t = Some g → exporters sys !! on g = Some st →
       (∀ ret, at_ g ≠ Returned ret) →
       ∃ t' g',
         goroutines sys !! t' = Some g' ∧ on g' = on g
         ∧ length (history (step NewPusher time_Now sys t'))
           = S (length (history sys))
         ∧ (critical (at_ g) = true ∨ seqTokenMu (self st) = false → t' = t)).
Proof.
  intros Hfree sys.
  assert (Hown : owned sys) by (by apply owned_run, owned_spawn).
  split.
  - intros e st He Hnone. destruct (seqTokenMu (self st)) eqn:Hmu; [|done].
    destruct (Hown e st He Hmu) as (t & g & Hg & Hon & Hcrit).
    by rewrite (Hnone t g Hg Hon) in Hcrit.
  - intros t g st Hg He Hnot.
    assert (critical (at_ g) = true ∨ seqTokenMu (self st) = false
            → is_Some (advance NewPusher time_Now (at_ g) st)) as Hcan.
    { intros [Hc|Hmu]; [by apply advance_critical|].
      destruct (at_ g) as [ld|ld|p n rest|ret|ret] eqn:Hat;
        try (by apply advance_critical).
      - by apply advance_AtLock.
      - by destruct (Hnot ret). }
    destruct (critical (at_ g)) eqn:Hc.
    { exists t, g. repeat split; try done.
      eapply step_moves; eauto. }
    destruct (seqTokenMu (self st)) eqn:Hmu.
    + destruct (Hown (on g) st He Hmu) as (t' & g' & Hg' & Hon & Hcrit).
      exists t', g'. split; [done|]. split; [done|]. split.
      * eapply step_moves; [exact Hg'|by rewrite Hon|].
        by apply advance_critical.
      * by intros [?|?].
    + exists t, g. repeat split; try done.
      eapply step_moves; eauto.
Qed.

End Progress.

Lemma PushLogs_no_deadlock_witness :
  let sys := run Scripted.quiet Scripted.clock [0%nat]
               (spawn [Sample.fresh] Sample.sameExporter) in
  ∃ t' g',
    goroutines sys !! t' = Some g' ∧ on g' = 0%nat
    ∧ length (history (step Scripted.quiet Scripted.clock sys t'))
      = S (length (history sys)).
Proof.
  assert (Hfree : ∀ e st, [Sample.fresh] !! e = Some st →
                          seqTokenMu (self st) = false).
  { intros [|e] st H; [|done]. injection H as <-. reflexivity. }
  destruct (proj2 (PushLogs_no_deadlock Scripted.quiet Scripted.clock
                     [Sample.fresh] Sample.sameExporter [0%nat] Hfree)
              1%nat {| on := 0; at_ := AtLock Sample.five |}
              (with_self (set_seqTokenMu true) Sample.fresh)
              eq_refl eq_refl ltac:(intros ret; discriminate))
    as (t' & g' & H1 & H2 & H3 & _).
  exists t', g'. split; [exact H1|]. split; [exact H2|exact H3].
Defined.

(** Two calls on one exporter, the first stopped after two appends: the
    second cannot move, the first can. *)
Example second_call_waits :
  let sys := run Scripted.quiet Scripted.clock [0; 1; 0; 1; 0; 1; 0; 1]%nat
               (spawn [Sample.fresh] Sample.sameExporter) in
  (length (history sys), length (history (step Scripted.quiet Scripted.clock sys 1)),
   length (history (step Scripted.quiet Scripted.clock sys 0)))
  = (4, 4, 5)%nat.
Proof. vm_compute. reflexivity. Qed.
